(** * goledger: the journal scanner of [parse/lex.go]

    A shallow embedding of the lexer of the ledger journal language
    ([package parse], file [lex.go]) and the properties of its token
    stream.

    Go strings are byte strings: they are modelled by [string], whose
    characters are the 256 bytes.  [Pos] and [rune] are machine integers
    and are modelled by [Z]; every position the scanner computes lies
    between [0] and the length of the input (lemma [scan_Inv]), so no
    wrap-around can occur and no slice is out of range.  The channel [items] is modelled by the list
    of the items sent so far, in sending order, with a flag for
    [close]. *)

From Stdlib Require Import ZArith List String Ascii Bool Lia.
Import ListNotations.
Local Open Scope string_scope.
Local Open Scope list_scope.
Local Open Scope Z_scope.

Infix "+++" := String.append (at level 60, right associativity).

(** ** Go strings *)

(** [rune] is [int32] and [Pos] is [int]. *)
Abbreviation rune := Z (only parsing).
Abbreviation Pos := Z (only parsing).

(** [len(s)] *)
Definition len (s : string) : Z := Z.of_nat (String.length s).

(** [s[lo:hi]] *)
Definition slice (s : string) (lo hi : Z) : string :=
  substring (Z.to_nat lo) (Z.to_nat (hi - lo)) s.

(** [s[lo:]] *)
Definition slice_from (s : string) (lo : Z) : string :=
  slice s lo (len s).

Definition byte_val (c : ascii) : Z := Z.of_N (N_of_ascii c).

(** [s[i]], for [i] within the string. *)
Definition byte_at (s : string) (i : nat) : Z :=
  match String.get i s with
  | Some c => byte_val c
  | None => 0
  end.

(** ** [unicode/utf8] *)

Definition RuneError : rune := 0xFFFD.
Definition MaxLatin1 : rune := 0xFF.

(** The table [first] of the package: information about the first byte
    of an encoding.  [0xF0] is ASCII, [0xF1] an invalid lead byte;
    otherwise the low three bits are the size and the high nibble the
    index into [acceptRanges]. *)
Definition first (b : Z) : Z :=
  if b <? 0x80 then 0xF0
  else if b <? 0xC2 then 0xF1
  else if b <? 0xE0 then 0x02
  else if b =? 0xE0 then 0x13
  else if b <? 0xED then 0x03
  else if b =? 0xED then 0x23
  else if b <? 0xF0 then 0x03
  else if b =? 0xF0 then 0x34
  else if b <? 0xF4 then 0x04
  else if b =? 0xF4 then 0x44
  else 0xF1.

Definition acceptRanges (i : Z) : Z * Z :=
  match i with
  | 0 => (0x80, 0xBF)
  | 1 => (0xA0, 0xBF)
  | 2 => (0x80, 0x9F)
  | 3 => (0x90, 0xBF)
  | 4 => (0x80, 0x8F)
  | _ => (0, 0)
  end.

(** [utf8.DecodeRuneInString]: the rune at the head of [s] and its width
    in bytes; [(RuneError, 0)] on the empty string and [(RuneError, 1)]
    on an invalid encoding.  The mask-and-or of the original on
    [x >= as] is the test [x == xx] that it simulates. *)
Definition DecodeRuneInString (s : string) : rune * Z :=
  let n := len s in
  if n <? 1 then (RuneError, 0) else
  let s0 := byte_at s 0 in
  let x := first s0 in
  if x >=? 0xF0 then ((if x =? 0xF1 then RuneError else s0), 1) else
  let sz := Z.land x 7 in
  let '(lo, hi) := acceptRanges (Z.shiftr x 4) in
  if n <? sz then (RuneError, 1) else
  let s1 := byte_at s 1 in
  if (s1 <? lo) || (hi <? s1) then (RuneError, 1) else
  if sz <=? 2 then
    (Z.lor (Z.shiftl (Z.land s0 0x1F) 6) (Z.land s1 0x3F), 2) else
  let s2 := byte_at s 2 in
  if (s2 <? 0x80) || (0xBF <? s2) then (RuneError, 1) else
  if sz <=? 3 then
    (Z.lor (Z.lor (Z.shiftl (Z.land s0 0x0F) 12)
                  (Z.shiftl (Z.land s1 0x3F) 6))
           (Z.land s2 0x3F), 3) else
  let s3 := byte_at s 3 in
  if (s3 <? 0x80) || (0xBF <? s3) then (RuneError, 1) else
  (Z.lor (Z.lor (Z.lor (Z.shiftl (Z.land s0 0x07) 18)
                       (Z.shiftl (Z.land s1 0x3F) 12))
                (Z.shiftl (Z.land s2 0x3F) 6))
         (Z.land s3 0x3F), 4).

(** ** [unicode] *)

(** The letters of Latin-1 (bit [pLmask] of the table [properties]). *)
Definition latin1_letter (r : rune) : bool :=
  ((0x41 <=? r) && (r <=? 0x5A)) || ((0x61 <=? r) && (r <=? 0x7A))
  || (r =? 0xAA) || (r =? 0xB5) || (r =? 0xBA)
  || ((0xC0 <=? r) && (r <=? 0xD6)) || ((0xD8 <=? r) && (r <=? 0xF6))
  || ((0xF8 <=? r) && (r <=? 0xFF)).

(** [isExcludingLatin]: membership in a range table for a rune that is
    not Latin-1.  The table is given by its characteristic function on
    the code points; the runes are compared as [uint32], so that a
    negative rune is in no table. *)
Definition isExcludingLatin (rangeTab : rune -> bool) (r : rune) : bool :=
  if r <? 0 then false else rangeTab r.

(** ** Instances of the library parameters

    The scanner is parameterised by the range tables [unicode.Letter]
    and [unicode.Digit] and by the verb [%#U] of [fmt].  These instances
    serve to run it on concrete inputs. *)

(** A range table without any code point above Latin-1. *)
Definition latin1_only (r : rune) : bool := false.

(** The Arabic-Indic digits U+0660 to U+0669, the first range of the
    table [unicode.Digit] above Latin-1. *)
Definition arabic_indic (r : rune) : bool := (0x0660 <=? r) && (r <=? 0x0669).

Definition udigit (d : Z) : ascii :=
  ascii_of_N (Z.to_N (if d <? 10 then 48 + d else 55 + d)).

Fixpoint hex_digits (k : nat) (u : Z) : string :=
  match k with
  | O => EmptyString
  | S k' => hex_digits k' (u / 16) +++ String (udigit (u mod 16)) EmptyString
  end.

(** [%#U] on the runes below [0x80] and on the negative ones, which
    [fmt] converts to [uint64]: ["U+"], at least four upper-case
    hexadecimal digits, and the quoted character when it is printable. *)
Definition fmt_U_ascii (r : rune) : string :=
  if r <? 0 then "U+" +++ hex_digits 16 (r mod 2 ^ 64)
  else if r <? 0x10000 then
    "U+" +++ hex_digits 4 r +++
    (if (0x20 <=? r) && (r <? 0x7F)
     then " '" +++ String (ascii_of_N (Z.to_N r)) "'" else "")
  else "U+" +++ hex_digits 6 r.

(** ** The scanner *)

(** The rune of an ASCII character. *)
Definition rn (c : ascii) : rune := byte_val c.

(** The line feed, as a string. *)
Definition LF : string := String "010" EmptyString.

(** [itemType] identifies the type of lex items. *)
Inductive itemType : Type :=
| itemError | itemEOF | itemString | itemNote | itemJournal
| itemJournalItem | itemDate | itemSpace | itemEOL | itemText
| itemEqual | itemAsterisk | itemExclamation | itemSemicolon
| itemCommodity | itemIdentifier | itemLeftParen | itemRightParen
| itemNeg | itemQuantity | itemTilde | itemPeriodExpr | itemDot
| itemStatus | itemAccountName | itemAccount | itemBeginAutomatedXact
| itemBeginPeriodicXact | itemBeginXact
| itemKeyword | itemInclude | itemAccountKeyword | itemEnd | itemAlias
| itemPrice.

(** The value [iota] gives to each constant. *)
Definition iota (t : itemType) : Z :=
  match t with
  | itemError => 0 | itemEOF => 1 | itemString => 2 | itemNote => 3
  | itemJournal => 4 | itemJournalItem => 5 | itemDate => 6
  | itemSpace => 7 | itemEOL => 8 | itemText => 9 | itemEqual => 10
  | itemAsterisk => 11 | itemExclamation => 12 | itemSemicolon => 13
  | itemCommodity => 14 | itemIdentifier => 15 | itemLeftParen => 16
  | itemRightParen => 17 | itemNeg => 18 | itemQuantity => 19
  | itemTilde => 20 | itemPeriodExpr => 21 | itemDot => 22
  | itemStatus => 23 | itemAccountName => 24 | itemAccount => 25
  | itemBeginAutomatedXact => 26 | itemBeginPeriodicXact => 27
  | itemBeginXact => 28 | itemKeyword => 29 | itemInclude => 30
  | itemAccountKeyword => 31 | itemEnd => 32 | itemAlias => 33
  | itemPrice => 34
  end.

(** [item]: a token returned from the scanner; [ipos] is its field
    [pos], the starting position in bytes. *)
Record item : Type := mkItem {
  typ : itemType;
  ipos : Pos;
  val : string
}.

(** The entries of the map [key]. *)
Definition key_table : list (string * itemType) :=
  [ ("include", itemInclude);
    ("account", itemAccountKeyword);
    ("end", itemEnd);
    ("alias", itemAlias);
    ("P", itemPrice) ].

Fixpoint lookup (w : string) (tbl : list (string * itemType))
  : option itemType :=
  match tbl with
  | [] => None
  | (k, t) :: rest => if String.eqb w k then Some t else lookup w rest
  end.

(** [key[word]]: the zero value [itemError] when [word] is no key. *)
Definition key (word : string) : itemType :=
  match lookup word key_table with
  | Some t => t
  | None => itemError
  end.

Definition eof : rune := -1.

(** The state functions, by name; [None] stands for the [nil] state. *)
Inductive stateFn : Type :=
| LexJournal | LexIdentifier | LexPeriodicXact | LexAutomatedXact
| LexPlainXactDate | LexPlainXactRest | LexPostings | LexPostingAmount.

(** [lexer] holds the state of the scanner. *)
Record lexer : Type := mkLexer {
  name : string;
  input : string;
  state : option stateFn;
  pos : Pos;
  start : Pos;
  width : Pos;
  lastPos : Pos;
  items : list item;
  closed : bool;
  parenDepth : Z
}.

Definition set_state (s : option stateFn) (l : lexer) : lexer :=
  mkLexer (name l) (input l) s (pos l) (start l) (width l) (lastPos l)
          (items l) (closed l) (parenDepth l).

Definition set_pos (p : Pos) (l : lexer) : lexer :=
  mkLexer (name l) (input l) (state l) p (start l) (width l) (lastPos l)
          (items l) (closed l) (parenDepth l).

Definition set_start (p : Pos) (l : lexer) : lexer :=
  mkLexer (name l) (input l) (state l) (pos l) p (width l) (lastPos l)
          (items l) (closed l) (parenDepth l).

Definition set_width (w : Pos) (l : lexer) : lexer :=
  mkLexer (name l) (input l) (state l) (pos l) (start l) w (lastPos l)
          (items l) (closed l) (parenDepth l).

(** [l.items <- it] *)
Definition send (it : item) (l : lexer) : lexer :=
  mkLexer (name l) (input l) (state l) (pos l) (start l) (width l)
          (lastPos l) (items l ++ [it]) (closed l) (parenDepth l).

(** [close(l.items)] *)
Definition close (l : lexer) : lexer :=
  mkLexer (name l) (input l) (state l) (pos l) (start l) (width l)
          (lastPos l) (items l) true (parenDepth l).

(** [isSpace] reports whether [r] is a space character. *)
Definition isSpace (r : rune) : bool :=
  (r =? rn " ") || (r =? 9).

(** [isEndOfLine] reports whether [r] is an end-of-line character. *)
Definition isEndOfLine (r : rune) : bool :=
  (r =? 13) || (r =? 10).

(** [next] returns the next rune in the input. *)
Definition next (l : lexer) : rune * lexer :=
  if pos l >=? len (input l) then (eof, set_width 0 l)
  else
    let '(r, w) := DecodeRuneInString (slice_from (input l) (pos l)) in
    (r, set_pos (pos l + w) (set_width w l)).

(** [backup] steps back one rune. *)
Definition backup (l : lexer) : lexer :=
  set_pos (pos l - width l) l.

(** [peek] returns but does not consume the next rune in the input. *)
Definition peek (l : lexer) : rune * lexer :=
  let '(r, l1) := next l in (r, backup l1).

(** [emit] passes an item back to the client. *)
Definition emit (t : itemType) (l : lexer) : lexer :=
  set_start (pos l)
    (send (mkItem t (start l) (slice (input l) (start l) (pos l))) l).

Definition current (l : lexer) : string :=
  slice (input l) (start l) (pos l).

(** [ignore] skips over the pending input before this point. *)
Definition ignore (l : lexer) : lexer :=
  set_start (pos l) l.

(** [errorf] returns an error token and the [nil] state; [msg] is the
    formatted message. *)
Definition errorf (msg : string) (l : lexer) : option stateFn * lexer :=
  (None, send (mkItem itemError (start l) msg) l).

(** [nextItem], on the side of the parser, receives the items in the
    order they were sent: the [k]-th call returns the [k]-th item. *)
Definition nextItem (k : nat) (l : lexer) : option (item * lexer) :=
  match nth_error (items l) k with
  | Some it =>
      Some (it, mkLexer (name l) (input l) (state l) (pos l) (start l)
                        (width l) (ipos it) (items l) (closed l)
                        (parenDepth l))
  | None => None
  end.

(** [lex] creates a new scanner for the input string. *)
Definition lex (name input : string) : lexer :=
  mkLexer name input None 0 0 0 0 [] false 0.

(** The loops of the scanner are run with a budget of iterations:
    [Ret a l] is a call that returned [a] and left the scanner in [l];
    [Timeout l] is a call that was still running, the scanner being in
    [l], when the budget was spent. *)
Inductive outcome (A : Type) : Type :=
| Ret (a : A) (l : lexer)
| Timeout (l : lexer).

Arguments Ret {A} a l.
Arguments Timeout {A} l.

Definition bind {A B : Type} (m : outcome A) (k : A -> lexer -> outcome B)
  : outcome B :=
  match m with
  | Ret a l => k a l
  | Timeout l => Timeout l
  end.

(** The scanner in which a call ended or was interrupted. *)
Definition final {A : Type} (m : outcome A) : lexer :=
  match m with
  | Ret _ l => l
  | Timeout l => l
  end.

Definition returned {A : Type} (m : outcome A) : bool :=
  match m with
  | Ret _ _ => true
  | Timeout _ => false
  end.

Section Lexer.

(** The range tables [unicode.Letter] and [unicode.Digit] above
    Latin-1, and the verb [%#U] of [fmt.Sprintf]. *)
Variables Letter Digit : rune -> bool.
Variable fmt_U : rune -> string.

(** [unicode.IsLetter] *)
Definition IsLetter (r : rune) : bool :=
  if r mod 2 ^ 32 <=? MaxLatin1 then latin1_letter r
  else isExcludingLatin Letter r.

(** [unicode.IsDigit] *)
Definition IsDigit (r : rune) : bool :=
  if r <=? MaxLatin1 then (rn "0" <=? r) && (r <=? rn "9")
  else isExcludingLatin Digit r.

(** [isAlphaNumeric] reports whether [r] is an alphabetic, digit, or
    underscore. *)
Definition isAlphaNumeric (r : rune) : bool :=
  (r =? rn "_") || IsLetter r || IsDigit r.

(** [for isSpace(l.peek()) { l.next() }] *)
Fixpoint spaceRun (n : nat) (l : lexer) : outcome unit :=
  match n with
  | O => Timeout l
  | S n' =>
      let '(r, l1) := peek l in
      if isSpace r then spaceRun n' (snd (next l1)) else Ret tt l1
  end.

Definition scanSpaces (n : nat) (l : lexer) : outcome bool :=
  bind (spaceRun n l) (fun _ l1 =>
    if String.eqb (current l1) "" then Ret false l1
    else Ret true (emit itemSpace l1)).

Fixpoint stringToEOL (n : nat) (l : lexer) : outcome unit :=
  match n with
  | O => Timeout l
  | S n' =>
      let '(r, l1) := peek l in
      if isEndOfLine r then Ret tt l1
      else if r =? eof then Ret tt l1
      else stringToEOL n' (snd (next l1))
  end.

Definition scanStringToEOL (n : nat) (l : lexer) : outcome bool :=
  bind (stringToEOL n l) (fun _ l1 =>
    if String.eqb (current l1) "" then Ret false l1
    else Ret true (emit itemString l1)).

Fixpoint stringUntil (until : rune) (n : nat) (l : lexer) : outcome unit :=
  match n with
  | O => Timeout l
  | S n' =>
      let '(r, l1) := peek l in
      if isEndOfLine r then Ret tt l1
      else if r =? eof then Ret tt l1
      else if r =? until then Ret tt l1
      else stringUntil until n' (snd (next l1))
  end.

Definition scanStringUntil (until : rune) (n : nat) (l : lexer)
  : outcome bool :=
  bind (stringUntil until n l) (fun _ l1 =>
    if String.eqb (current l1) "" then Ret false l1
    else Ret true (emit itemString l1)).

(** [if l.current() != "" { l.emit(t) }] *)
Definition emitNonEmpty (t : itemType) (l : lexer) : lexer :=
  if String.eqb (current l) "" then l else emit t l.

Fixpoint scanNote (n : nat) (l : lexer) : outcome unit :=
  match n with
  | O => Timeout l
  | S n' =>
      let '(r, l1) := next l in
      if isEndOfLine r || (r =? eof)
      then Ret tt (emitNonEmpty itemNote (backup l1))
      else scanNote n' l1
  end.

Fixpoint scanStringNote (n : nat) (l : lexer) : outcome unit :=
  match n with
  | O => Timeout l
  | S n' =>
      let '(r, l1) := next l in
      if r =? rn ";" then
        let l2 := emitNonEmpty itemString (backup l1) in
        scanNote n (snd (next l2))
      else if isEndOfLine r then Ret tt (emitNonEmpty itemString l1)
      else if r =? eof then Ret tt (emitNonEmpty itemString l1)
      else scanStringNote n' l1
  end.

Definition atTerminator (l : lexer) : bool * lexer :=
  let '(r, l1) := peek l in
  (isSpace r || isEndOfLine r, l1).

(** [lexJournal] scans the Ledger file for top-level Ledger
    constructs. *)
Definition lexJournal (n : nat) (l : lexer) : outcome (option stateFn) :=
  let '(r, l1) := next l in
  if isSpace r then
    bind (spaceRun n l1) (fun _ l2 =>
      Ret (Some LexJournal) (emit itemSpace l2))
  else if r =? rn "~" then Ret (Some LexPeriodicXact) (emit itemTilde l1)
  else if r =? rn "=" then Ret (Some LexAutomatedXact) (emit itemEqual l1)
  else if IsDigit r then Ret (Some LexPlainXactDate) l1
  else if isAlphaNumeric r then Ret (Some LexIdentifier) (backup l1)
  else if isEndOfLine r then Ret (Some LexJournal) (emit itemEOL l1)
  else if r =? eof then Ret (Some LexJournal) (emit itemEOF l1)
  else
    let '(s, l2) :=
      errorf ("unrecognized character in directive: " +++ fmt_U r) l1 in
    Ret s l2.

(** [lexIdentifier] scans an alphanumeric. *)
Fixpoint lexIdentifier (n : nat) (l : lexer) : outcome (option stateFn) :=
  match n with
  | O => Timeout l
  | S n' =>
      let '(r, l1) := next l in
      if isAlphaNumeric r then lexIdentifier n' l1
      else
        let l2 := backup l1 in
        let word := slice (input l2) (start l2) (pos l2) in
        let '(t, l3) := atTerminator l2 in
        if negb t then
          let '(s, l4) := errorf ("bad character " +++ fmt_U r) l3 in
          Ret s l4
        else if String.eqb word "include" then
          bind (scanSpaces n (emit itemInclude l3)) (fun _ l4 =>
          bind (scanStringToEOL n l4) (fun ok l5 =>
            if negb ok then
              Ret None (snd (errorf "missing filename after 'include'" l5))
            else Ret (Some LexJournal) l5))
        else if String.eqb word "end" then
          bind (scanSpaces n (emit itemEnd l3)) (fun _ l4 =>
            Ret (Some LexIdentifier) l4)
        else if iota (key word) >? iota itemKeyword then
          Ret (Some LexJournal) (emit (key word) l3)
        else Ret (Some LexJournal) (emit itemIdentifier l3)
  end.

Definition lexPeriodicXact (n : nat) (l : lexer)
  : outcome (option stateFn) :=
  bind (scanSpaces n l) (fun _ l1 =>
  bind (scanStringNote n l1) (fun _ l2 =>
    Ret (Some LexPostings) l2)).

Definition lexAutomatedXact (n : nat) (l : lexer)
  : outcome (option stateFn) :=
  bind (scanSpaces n l) (fun _ l1 =>
  bind (scanStringNote n l1) (fun _ l2 =>
    Ret (Some LexPostings) l2)).

Definition lexPlainXactDate (n : nat) (l : lexer)
  : outcome (option stateFn) :=
  let '(r, l1) := peek l in
  if IsDigit r || (r =? rn ".") || (r =? rn "-") || (r =? rn "/") then
    Ret (Some LexPlainXactDate) (snd (next l1))
  else if isSpace r then
    bind (scanSpaces n (emit itemDate l1)) (fun _ l2 =>
      Ret (Some LexPlainXactRest) l2)
  else if r =? eof then
    Ret None (snd (errorf "unexpected end-of-file" l1))
  else if isEndOfLine r then
    Ret None (snd (errorf "unexpected end-of-line" l1))
  else
    Ret None
      (snd (errorf ("invalid character in transaction date specification: "
                    +++ fmt_U r) l1)).

Definition lexPlainXactRest (n : nat) (l : lexer)
  : outcome (option stateFn) :=
  let '(r, l1) := next l in
  if r =? rn "=" then
    bind (scanSpaces n (emit itemEqual l1)) (fun _ l2 =>
      Ret (Some LexPlainXactDate) l2)
  else if r =? rn "*" then
    bind (scanSpaces n (emit itemAsterisk l1)) (fun _ l2 =>
      Ret (Some LexPlainXactRest) l2)
  else if r =? rn "!" then
    bind (scanSpaces n (emit itemExclamation l1)) (fun _ l2 =>
      Ret (Some LexPlainXactRest) l2)
  else if r =? rn "(" then
    bind (scanStringUntil (rn ")") n (emit itemLeftParen l1)) (fun _ l2 =>
      Ret (Some LexPlainXactRest) l2)
  else if r =? rn ")" then
    Ret (Some LexPlainXactRest) (emit itemRightParen l1)
  else
    bind (scanStringNote n (backup l1)) (fun _ l2 =>
      Ret (Some LexPostings) l2).

(** Modelled from the spec: [scanAccountName], which [lexPostings]
    calls, is not declared in [lex.go].  It consumes characters until
    end-of-line (or the end of the input) or until a field separator is
    found: a tab, or a space followed by a space or a tab; the separator
    is left in the input and the name is emitted as an
    [itemAccountName]. *)
Fixpoint scanAccountName (n : nat) (l : lexer) : outcome unit :=
  match n with
  | O => Timeout l
  | S n' =>
      let '(r, l1) := peek l in
      if isEndOfLine r || (r =? eof) then Ret tt (emit itemAccountName l1)
      else if r =? 9 then Ret tt (emit itemAccountName l1)
      else if (r =? rn " ") && isSpace (fst (next (snd (next l1)))) then
        Ret tt (emit itemAccountName l1)
      else scanAccountName n' (snd (next l1))
  end.

(** The loop of [lexPostings]; [expectIndent] is its local variable. *)
Fixpoint lexPostings_loop (n : nat) (expectIndent : bool) (l : lexer)
  : outcome (option stateFn) :=
  match n with
  | O => Timeout l
  | S n' =>
      let '(r, l1) := next l in
      if isEndOfLine r then lexPostings_loop n' true (emit itemEOL l1)
      else if expectIndent then
        if isSpace r then
          bind (scanSpaces n l1) (fun _ l2 => Ret (Some LexPostings) l2)
        else Ret (Some LexJournal) (backup l1)
      else if r =? rn "*" then
        bind (scanSpaces n (emit itemAsterisk l1)) (fun _ l2 =>
          lexPostings_loop n' false l2)
      else if r =? rn "!" then
        bind (scanSpaces n (emit itemExclamation l1)) (fun _ l2 =>
          lexPostings_loop n' false l2)
      else if IsLetter r then
        bind (scanAccountName n l1) (fun _ l2 =>
          Ret (Some LexPostingAmount) l2)
      else lexPostings_loop n' false l1
  end.

Definition lexPostings (n : nat) (l : lexer) : outcome (option stateFn) :=
  lexPostings_loop n false l.

Definition lexPostingAmount (n : nat) (l : lexer)
  : outcome (option stateFn) :=
  Ret (Some LexPostings) l.

(** The call [f(l)] of a state function. *)
Definition call (f : stateFn) (n : nat) (l : lexer)
  : outcome (option stateFn) :=
  match f with
  | LexJournal => lexJournal n l
  | LexIdentifier => lexIdentifier n l
  | LexPeriodicXact => lexPeriodicXact n l
  | LexAutomatedXact => lexAutomatedXact n l
  | LexPlainXactDate => lexPlainXactDate n l
  | LexPlainXactRest => lexPlainXactRest n l
  | LexPostings => lexPostings n l
  | LexPostingAmount => lexPostingAmount n l
  end.

(** The loop of [run]: [for ...; l.state != nil; { l.state = l.state(l) }]
    and then [close(l.items)]. *)
Fixpoint run_loop (n : nat) (l : lexer) : outcome unit :=
  match state l with
  | None => Ret tt (close l)
  | Some f =>
      match n with
      | O => Timeout l
      | S n' =>
          bind (call f n l) (fun s l1 => run_loop n' (set_state s l1))
      end
  end.

(** [run] runs the state machine for the lexer. *)
Definition run (n : nat) (l : lexer) : outcome unit :=
  run_loop n (set_state (Some LexJournal) l).

(** The producer started by [lex name input], with a budget of [n]. *)
Definition scan (n : nat) (input : string) : outcome unit :=
  run n (lex "" input).

(** The tokens of an outcome, as pairs of kind and text. *)
Definition tokens {A : Type} (m : outcome A) : list (itemType * string) :=
  map (fun it => (typ it, val it)) (items (final m)).

(** ** Notions used to state the properties *)

(** The input that has not been read, [l.input[l.pos:]]. *)
Definition rest (l : lexer) : string := slice_from (input l) (pos l).

(** The rune that [next] returns when [s] is what remains of the
    input. *)
Definition head_rune (s : string) : rune :=
  if len s <? 1 then eof else fst (DecodeRuneInString s).

(** The width that [next] records when [s] is what remains of the
    input. *)
Definition head_width (s : string) : Z :=
  if len s <? 1 then 0 else snd (DecodeRuneInString s).

(** The length in bytes of the longest prefix of [s] all of whose runes
    satisfy [P]; [k] bounds the number of runes. *)
Fixpoint span (P : rune -> bool) (k : nat) (s : string) : Z :=
  match k with
  | O => 0
  | S k' =>
      if len s <? 1 then 0
      else
        let '(r, w) := DecodeRuneInString s in
        if P r then w + span P k' (slice_from s w) else 0
  end.

Definition run_length (P : rune -> bool) (s : string) : Z :=
  span P (String.length s) s.

(** The runes of a line: neither an end-of-line character nor the end
    of the input. *)
Definition inLine (r : rune) : bool :=
  negb (isEndOfLine r) && negb (r =? eof).

(** The scanner [l] moved forward to [p], the last rune read being [w]
    wide. *)
Definition at_pos (p w : Z) (l : lexer) : lexer :=
  set_width w (set_pos p l).

(** The items sent so far tile the input up to the offset [s]: each one
    starts where the one before it ends and carries the text between its
    start and its end; none is an error, and an [itemEOF] ends at the
    end of the input. *)
Inductive tiled (inp : string) : list item -> Z -> Prop :=
| tiled_nil : tiled inp [] 0
| tiled_snoc : forall its s t p,
    tiled inp its s ->
    s <= p <= len inp ->
    t <> itemError ->
    (t = itemEOF -> p = len inp) ->
    tiled inp (its ++ [mkItem t s (slice inp s p)]) p.

(** The invariant of the scanner on the input [inp]. *)
Definition Inv (inp : string) (l : lexer) : Prop :=
  input l = inp /\
  tiled inp (items l) (start l) /\
  start l <= pos l <= len inp.

(** A scanner that has stopped on an error: the item [itemError], with
    the position of the pending text, follows the tiling; [errorf] has
    moved neither the start of the pending text nor the cursor. *)
Definition Failed (inp : string) (l : lexer) : Prop :=
  exists l0 msg,
    Inv inp l0 /\ items l = items l0 ++ [mkItem itemError (start l0) msg] /\
    start l = start l0 /\ pos l = pos l0.

(** What holds of the scanner when a state function is left. *)
Definition Post (inp : string) (m : outcome (option stateFn)) : Prop :=
  match m with
  | Ret (Some _) l => Inv inp l
  | Ret None l => Failed inp l
  | Timeout l => Inv inp l
  end.

(** What holds of the scanner when a helper is left, or interrupted. *)
Definition Keeps {A : Type} (inp : string) (m : outcome A) : Prop :=
  Inv inp (final m).

(** The call of the state function [f] sends an error with the message
    [msg] and returns the [nil] state, on which [run] closes the
    channel: the scan halts. *)
Definition halts_with (n : nat) (f : stateFn) (l : lexer) (msg : string)
  : Prop :=
  exists l',
    call f n l = Ret None l' /\
    items l' = items l ++ [mkItem itemError (start l) msg] /\
    (state l = Some f -> run_loop n l = Ret tt (close (set_state None l'))).

(** The concatenation of the texts of a list of items. *)
Definition texts (its : list item) : string :=
  fold_right (fun it s => val it +++ s) "" its.

(** Keyword recognition as the specification words it: a static
    lookup of the text of the bareword in the table, a bareword that is
    not in the table being an identifier.  To be compared with the
    cases of [lexIdentifier]. *)
Definition kind_of (word : string) : itemType :=
  match lookup word key_table with
  | Some t => t
  | None => itemIdentifier
  end.

(** [strings.ToLower] on ASCII text. *)
Definition lower_byte (c : ascii) : ascii :=
  let b := byte_val c in
  if (0x41 <=? b) && (b <=? 0x5A) then ascii_of_N (Z.to_N (b + 32)) else c.

Fixpoint ToLower (s : string) : string :=
  match s with
  | EmptyString => EmptyString
  | String c s' => String (lower_byte c) (ToLower s')
  end.

Definition is_keyword (t : itemType) : bool := iota t >? iota itemKeyword.

(** The scanner [l'] reads the same input as [l] and is not behind it. *)
Definition advances (l l' : lexer) : Prop :=
  input l' = input l /\ pos l <= pos l' <= len (input l).

(** The call returned, and left the scanner not behind [l]. *)
Definition Returns {A : Type} (l : lexer) (m : outcome A) : Prop :=
  match m with
  | Ret _ l' => advances l l'
  | Timeout _ => False
  end.

(** [strings.Count(s, sep)] for a separator [sep] of one byte: the
    number of bytes of [s] that are equal to it. *)
Fixpoint Count (s : string) (sep : ascii) : Z :=
  match s with
  | EmptyString => 0
  | String c s' => (if Ascii.eqb c sep then 1 else 0) + Count s' sep
  end.

(** [lineNumber] reports which line we're on, based on the position of
    the previous item returned by [nextItem]. *)
Definition lineNumber (l : lexer) : Z :=
  1 + Count (slice (input l) 0 (lastPos l)) "010".

(** The kinds of item for which the scanner has an [emit] or an
    [errorf]. *)
Definition sent_kind (t : itemType) : bool :=
  match t with
  | itemError | itemEOF | itemString | itemNote | itemDate | itemSpace
  | itemEOL | itemEqual | itemAsterisk | itemExclamation | itemIdentifier
  | itemLeftParen | itemRightParen | itemTilde | itemAccountName
  | itemInclude | itemAccountKeyword | itemEnd | itemAlias | itemPrice =>
      true
  | _ => false
  end.

(** The scanner [l'] comes from [l] by the work of the producer before
    [close]: items have been added to the ones sent, of the kinds above,
    and the fields that the producer does not write are the same. *)
Definition extends (l l' : lexer) : Prop :=
  name l' = name l /\ input l' = input l /\ lastPos l' = lastPos l /\
  parenDepth l' = parenDepth l /\ closed l' = closed l /\
  exists more,
    items l' = items l ++ more /\
    Forall (fun t => sent_kind (typ t) = true) more.

Definition Ext {A : Type} (l : lexer) (m : outcome A) : Prop :=
  extends l (final m).

(** The runes that a scan up to the delimiter [until] passes over:
    those of the line other than the delimiter. *)
Definition before (until : rune) (r : rune) : bool :=
  inLine r && negb (r =? until).

(** The call [m], made on the scanner [l], read the longest run of
    runes that satisfy [P] and sent the pending text together with that
    run as one item of kind [t], unless both were empty; it returned
    whether an item was sent and left no text pending. *)
Definition sends_run (t : itemType) (P : rune -> bool) (l : lexer)
           (m : outcome bool) : Prop :=
  let p := pos l + run_length P (rest l) in
  exists l',
    m = Ret (negb (start l =? p)) l' /\
    input l' = input l /\ pos l' = p /\ start l' = p /\
    P (head_rune (rest l')) = false /\
    items l' =
      items l ++
      (if start l =? p then []
       else [mkItem t (start l) (slice (input l) (start l) p)]).

(** The items whose text is fixed by their kind: the end of the input,
    the single characters, the note, and the barewords, whose kind is
    the entry of their text in the table [key]. *)
Definition shaped (inp : string) (t : item) : Prop :=
  match typ t with
  | itemEOF => val t = "" /\ ipos t = len inp
  | itemTilde => val t = "~"
  | itemEqual => val t = "="
  | itemLeftParen => val t = "("
  | itemRightParen => val t = ")"
  | itemNote => exists s, val t = String ";" s
  | itemInclude | itemAccountKeyword | itemEnd | itemAlias | itemPrice =>
      key (val t) = typ t
  | itemIdentifier => (iota (key (val t)) >? iota itemKeyword) = false
  | _ => True
  end.

Definition Shaped (inp : string) (l : lexer) : Prop :=
  Forall (shaped inp) (items l).

(** A helper that keeps the shapes and, when it returns, leaves no text
    pending. *)
Definition Tidy {A : Type} (inp : string) (m : outcome A) : Prop :=
  Shaped inp (final m) /\
  (returned m = true -> start (final m) = pos (final m)).

(** A state function that keeps the shapes and leaves no text pending
    for the next state, unless that state is [lexPlainXactDate]. *)
Definition TidyS (inp : string) (m : outcome (option stateFn)) : Prop :=
  Shaped inp (final m) /\
  match m with
  | Ret (Some f) l => f <> LexPlainXactDate -> start l = pos l
  | _ => True
  end.

(** The runes that [lexPlainXactDate] absorbs. *)
Definition dateRune (r : rune) : bool :=
  IsDigit r || (r =? rn ".") || (r =? rn "-") || (r =? rn "/").

(** [strings.ContainsRune], a parameter like the tables of [unicode]:
    whether the code point [r] is within the string. *)
Variable ContainsRune : string -> rune -> bool.

(** An instance for the strings of characters below [0x80], to run
    [accept] and [acceptRun] on concrete inputs. *)
Definition contains_byte (valid : string) (r : rune) : bool :=
  existsb (fun c => byte_val c =? r) (list_ascii_of_string valid).

(** [accept] consumes the next rune if it's from the valid set. *)
Definition accept (valid : string) (l : lexer) : bool * lexer :=
  let '(r, l1) := next l in
  if ContainsRune valid r then (true, l1) else (false, backup l1).

(** [acceptRun] consumes a run of runes from the valid set. *)
Fixpoint acceptRun (valid : string) (n : nat) (l : lexer) : outcome unit :=
  match n with
  | O => Timeout l
  | S n' =>
      let '(r, l1) := next l in
      if ContainsRune valid r then acceptRun valid n' l1
      else Ret tt (backup l1)
  end.

(** A state that can pass control on without reading a rune has rank
    1, the state it passes control to has rank 0. *)
Definition rank (f : stateFn) (r : rune) : Z :=
  match f with
  | LexJournal => if isAlphaNumeric r then 1 else 0
  | LexIdentifier => if isAlphaNumeric r then 0 else 1
  | LexPostings => 0
  | _ => 1
  end.

(** What is left to do in the state [f]: it decreases at every call of
    a state function that returns a state. *)
Definition effort (f : stateFn) (l : lexer) : Z :=
  2 * len (rest l) + rank f (head_rune (rest l)).

(** The call [m] of a state function on [l] returned, and [Q] holds of
    the state that it returned and of the scanner. *)
Definition Steps (l : lexer) (m : outcome (option stateFn))
           (Q : stateFn -> lexer -> Prop) : Prop :=
  match m with
  | Ret None _ => True
  | Ret (Some s) l' => advances l l' /\ Q s l'
  | Timeout _ => False
  end.

(** The three ways in which a run of the producer on [inp] ends: it has
    returned; or it is at the top level at the end of the input, sending
    [itemEOF] again and again; or it is in the loop of [lexPostings] at
    the end of the input. *)
Definition Ending (inp : string) (slack : Z) (n : nat) (m : outcome unit)
  : Prop :=
  returned m = true
  \/ (returned m = false /\ state (final m) = Some LexJournal /\
      pos (final m) = len inp /\
      exists its j,
        items (final m) = its ++ repeat (mkItem itemEOF (len inp) "") j /\
        Z.of_nat n <= Z.of_nat j + slack)
  \/ (returned m = false /\ state (final m) = Some LexPostings /\
      pos (final m) = len inp).

(** The runes that match no case of [lexPostings] when no indentation
    is expected. *)
Definition unmatched (r : rune) : bool :=
  negb (isEndOfLine r) && negb (r =? rn "*") && negb (r =? rn "!")
  && negb (IsLetter r) && negb (r =? eof).

(** The verbs [%q] and [%.10q] of [fmt.Sprintf] on a string. *)
Variables Sprintf_q Sprintf_q10 : string -> string.

(** Instances for the texts of printable characters below [0x80]
    other than the double quote and the backslash, which [%q] leaves as
    they are between double quotes; the precision cuts the text. *)
Definition quote_plain (s : string) : string :=
  String "034" s +++ String "034" EmptyString.

Definition quote_plain10 (s : string) : string :=
  quote_plain (substring 0 10 s).

(** The method [String] of [item]. *)
Definition item_String (i : item) : string :=
  if iota (typ i) =? iota itemEOF then "EOF"
  else if iota (typ i) =? iota itemError then val i
  else if iota (typ i) >? iota itemKeyword then "<" +++ val i +++ ">"
  else if len (val i) >? 10 then Sprintf_q10 (val i) +++ "..."
  else Sprintf_q (val i).

(** ** Go strings: slices *)

Lemma len_nonneg (s : string) : 0 <= len s.
Proof. unfold len; lia. Qed.

Lemma len_String (c : ascii) (s : string) : len (String c s) = 1 + len s.
Proof. unfold len; simpl String.length; lia. Qed.

Lemma len_app (a b : string) : len (a +++ b) = len a + len b.
Proof.
  unfold len. induction a as [|c a IH]; cbn [append String.length]; lia.
Qed.

Lemma len_zero (s : string) : len s = 0 -> s = "".
Proof. destruct s; [reflexivity | rewrite len_String; pose proof (len_nonneg s); lia]. Qed.

Lemma substring_empty (n m : nat) : substring n m "" = "".
Proof. destruct n, m; reflexivity. Qed.

Lemma substring_zero (n : nat) (s : string) : substring n 0 s = "".
Proof.
  revert n; induction s as [|c s IH]; intros [|n]; simpl; auto.
Qed.

Lemma substring_app (s : string) :
  forall n m k,
    substring n m s +++ substring (n + m) k s = substring n (m + k) s.
Proof.
  induction s as [|c s IH]; intros n m k.
  - now rewrite !substring_empty.
  - destruct n as [|n]; simpl.
    + destruct m as [|m]; simpl; [reflexivity|].
      now rewrite <- (IH 0%nat m k).
    + apply IH.
Qed.

Lemma substring_length (s : string) :
  forall n m, (n + m <= String.length s)%nat ->
              String.length (substring n m s) = m.
Proof.
  induction s as [|c s IH]; intros n m H; simpl in H.
  - assert (m = 0)%nat by lia; subst. now rewrite substring_empty.
  - destruct n as [|n]; simpl.
    + destruct m as [|m]; simpl; [reflexivity|]. rewrite IH; [reflexivity|lia].
    + apply IH; lia.
Qed.

Lemma substring_all (s : string) : substring 0 (String.length s) s = s.
Proof. induction s as [|c s IH]; simpl; [reflexivity | now rewrite IH]. Qed.

Lemma substring_substring (s : string) :
  forall n m p q, (p + q <= m)%nat ->
    substring p q (substring n m s) = substring (n + p) q s.
Proof.
  induction s as [|c s IH]; intros n m p q H.
  - now rewrite !substring_empty.
  - destruct n as [|n]; simpl.
    + destruct m as [|m]; simpl.
      * assert (p = 0 /\ q = 0)%nat as [-> ->] by lia. reflexivity.
      * destruct p as [|p]; simpl.
        -- destruct q as [|q]; simpl; [reflexivity|].
           now rewrite (IH 0%nat m 0%nat q) by lia.
        -- now rewrite (IH 0%nat m p q) by lia.
    + apply IH; lia.
Qed.

Lemma slice_empty (s : string) (a : Z) : slice s a a = "".
Proof. unfold slice. rewrite Z.sub_diag. apply substring_zero. Qed.

Lemma slice_app (s : string) (a b c : Z) :
  0 <= a <= b -> b <= c ->
  slice s a b +++ slice s b c = slice s a c.
Proof.
  intros H1 H2. unfold slice.
  replace (Z.to_nat b) with (Z.to_nat a + Z.to_nat (b - a))%nat by lia.
  replace (Z.to_nat (c - a))
    with (Z.to_nat (b - a) + Z.to_nat (c - b))%nat by lia.
  apply substring_app.
Qed.

Lemma len_slice (s : string) (a b : Z) :
  0 <= a <= b -> b <= len s -> len (slice s a b) = b - a.
Proof.
  intros H1 H2. unfold slice, len in *.
  rewrite substring_length by lia. lia.
Qed.

Lemma slice_all (s : string) : slice s 0 (len s) = s.
Proof.
  unfold slice, len. rewrite Z.sub_0_r, Nat2Z.id. apply substring_all.
Qed.

Lemma slice_from_0 (s : string) : slice_from s 0 = s.
Proof. apply slice_all. Qed.

Lemma len_slice_from (s : string) (p : Z) :
  0 <= p <= len s -> len (slice_from s p) = len s - p.
Proof. intros H. unfold slice_from. apply len_slice; lia. Qed.

Lemma slice_slice_from (s : string) (p a b : Z) :
  0 <= p -> 0 <= a <= b -> p + b <= len s ->
  slice (slice_from s p) a b = slice s (p + a) (p + b).
Proof.
  intros Hp Ha Hb. unfold slice_from, slice.
  rewrite substring_substring by (unfold len in *; lia).
  f_equal; lia.
Qed.

Lemma slice_from_slice_from (s : string) (p k : Z) :
  0 <= p -> 0 <= k -> p + k <= len s ->
  slice_from (slice_from s p) k = slice_from s (p + k).
Proof.
  intros Hp Hk H. unfold slice_from at 1 3.
  rewrite len_slice_from by lia.
  rewrite slice_slice_from by lia.
  f_equal; lia.
Qed.

Lemma slice_nonempty (s : string) (a b : Z) :
  0 <= a -> a < b -> b <= len s -> slice s a b <> "".
Proof.
  intros Ha Hab Hb E.
  assert (H : len (slice s a b) = b - a) by (apply len_slice; lia).
  rewrite E in H. unfold len in H; simpl in H. lia.
Qed.

Lemma eqb_empty_len (s : string) :
  String.eqb s "" = (len s =? 0).
Proof.
  destruct s; [reflexivity|].
  rewrite len_String. pose proof (len_nonneg s).
  cbn [String.eqb]. symmetry. apply Z.eqb_neq. lia.
Qed.

(** ** [unicode/utf8]: the width and the sign of a decoded rune *)

Lemma byte_val_range (c : ascii) : 0 <= byte_val c < 256.
Proof.
  unfold byte_val. pose proof (N_ascii_bounded c) as H. lia.
Qed.

Lemma byte_at_range (s : string) (i : nat) : 0 <= byte_at s i < 256.
Proof.
  unfold byte_at. destruct (get i s); [apply byte_val_range | lia].
Qed.

Ltac eval_first :=
  repeat match goal with
  | |- context [Z.land (Zpos ?a) 7] =>
      let v := eval vm_compute in (Z.land (Zpos a) 7) in
      change (Z.land (Zpos a) 7) with v
  | |- context [acceptRanges (Z.shiftr (Zpos ?a) 4)] =>
      let v := eval vm_compute in (acceptRanges (Z.shiftr (Zpos a) 4)) in
      change (acceptRanges (Z.shiftr (Zpos a) 4)) with v
  end.

Ltac split_ifs :=
  repeat match goal with
  | |- context [if ?c then _ else _] => destruct c eqn:?
  end.

Ltac bits_nonneg :=
  repeat first
    [ apply Z.lor_nonneg; split
    | apply Z.shiftl_nonneg
    | apply Z.land_nonneg; right; lia ].

(** A rune decoded from a non-empty string is not negative and is at
    least one byte and at most the whole string wide. *)
Lemma decode_bounds (s : string) :
  1 <= len s ->
  1 <= snd (DecodeRuneInString s) <= len s /\
  0 <= fst (DecodeRuneInString s).
Proof.
  intros H. unfold DecodeRuneInString.
  destruct (len s <? 1) eqn:E0; [lia|].
  pose proof (byte_at_range s 0) as H0.
  unfold first.
  repeat match goal with
  | |- context [if byte_at s 0 <? ?c then _ else _] =>
      destruct (byte_at s 0 <? c) eqn:?
  | |- context [if byte_at s 0 =? ?c then _ else _] =>
      destruct (byte_at s 0 =? c) eqn:?
  end; cbn -[len byte_at Z.shiftl Z.lor Z.land Z.ltb Z.leb];
  eval_first; cbv iota beta; split_ifs; cbn [fst snd];
  (split; [lia | first [unfold RuneError; lia | bits_nonneg]]).
Qed.

(** A byte below [0x80] is the encoding of itself. *)
Lemma decode_ascii (c : ascii) (s : string) :
  byte_val c < 128 ->
  DecodeRuneInString (String c s) = (byte_val c, 1).
Proof.
  intros H. unfold DecodeRuneInString.
  rewrite len_String. pose proof (len_nonneg s).
  destruct (1 + len s <? 1) eqn:E; [lia|].
  change (byte_at (String c s) 0) with (byte_val c).
  unfold first. destruct (byte_val c <? 128) eqn:E1; [reflexivity | lia].
Qed.

(** ** The cursor *)

Ltac fields :=
  unfold emit, backup, set_pos, set_width, set_start, set_state, send, close
    in *;
  cbn [pos width name input state start lastPos items closed parenDepth
       fst snd] in *.

(** The fields of a scanner built by the operations of the cursor,
    computed on demand. *)
Ltac proj :=
  cbn [pos width name input state start lastPos items closed parenDepth
       fst snd emit backup set_pos set_width set_start set_state send close
       errorf].

Lemma tiled_range (inp : string) (its : list item) (s : Z) :
  tiled inp its s -> 0 <= s <= len inp.
Proof.
  intros H; destruct H; [pose proof (len_nonneg inp) | induction H]; lia.
Qed.

Lemma Inv_range (inp : string) (l : lexer) :
  Inv inp l -> 0 <= start l /\ start l <= pos l /\ pos l <= len (input l).
Proof.
  intros (Hi & Ht & Hp). apply tiled_range in Ht. rewrite Hi. lia.
Qed.

Lemma next_fields (l : lexer) :
  input (snd (next l)) = input l /\
  items (snd (next l)) = items l /\
  start (snd (next l)) = start l /\
  state (snd (next l)) = state l /\
  closed (snd (next l)) = closed l /\
  pos (snd (next l)) = pos l + width (snd (next l)).
Proof.
  unfold next. destruct (pos l >=? len (input l)).
  - cbn. repeat split; lia.
  - destruct (DecodeRuneInString _) as [r w]. cbn. repeat split; lia.
Qed.

(** [next] moves forward, by the width it records, and stays within the
    input; it returns [eof] exactly when it does not move. *)
Lemma next_advance (l : lexer) :
  0 <= pos l <= len (input l) ->
  pos l <= pos (snd (next l)) <= len (input l) /\
  (fst (next l) = eof -> pos l = len (input l)) /\
  (fst (next l) <> eof -> pos l < pos (snd (next l))) /\
  0 <= fst (next l) \/ fst (next l) = eof.
Proof.
  intros H. unfold next.
  destruct (pos l >=? len (input l)) eqn:E.
  - cbn. right. reflexivity.
  - left.
    assert (Hl : 1 <= len (slice_from (input l) (pos l)))
      by (rewrite len_slice_from; lia).
    destruct (decode_bounds _ Hl) as [Hw Hr].
    rewrite len_slice_from in Hw by lia.
    destruct (DecodeRuneInString _) as [r w]. cbn in *.
    unfold eof. repeat split; lia.
Qed.

Lemma next_eof_end (l : lexer) :
  0 <= pos l <= len (input l) ->
  fst (next l) = eof -> pos (snd (next l)) = len (input l).
Proof.
  intros H E. unfold next in *.
  destruct (pos l >=? len (input l)) eqn:E1.
  - cbn. lia.
  - assert (Hl : 1 <= len (slice_from (input l) (pos l)))
      by (rewrite len_slice_from; lia).
    destruct (decode_bounds _ Hl) as [_ Hr].
    destruct (DecodeRuneInString _) as [r w]. cbn in *. unfold eof in E. lia.
Qed.

(** [backup] after [next] restores the position. *)
Lemma backup_next (l : lexer) :
  backup (snd (next l)) = set_width (width (snd (next l))) l.
Proof.
  unfold next, backup. destruct (pos l >=? len (input l)).
  - destruct l; fields. f_equal; lia.
  - destruct (DecodeRuneInString _) as [r w]. destruct l; fields.
    f_equal; lia.
Qed.

Lemma peek_eq (l : lexer) :
  peek l = (fst (next l), set_width (width (snd (next l))) l).
Proof.
  unfold peek. rewrite <- backup_next. now destruct (next l).
Qed.

Lemma next_set_width (w : Z) (l : lexer) : next (set_width w l) = next l.
Proof.
  unfold next; cbn. destruct (pos l >=? len (input l)); [reflexivity|].
  now destruct (DecodeRuneInString _).
Qed.

(** ** The invariant is kept by the operations of the cursor *)

Lemma Inv_set_width (inp : string) (w : Z) (l : lexer) :
  Inv inp l -> Inv inp (set_width w l).
Proof. intros H; exact H. Qed.

Lemma Inv_set_state (inp : string) (s : option stateFn) (l : lexer) :
  Inv inp l -> Inv inp (set_state s l).
Proof. intros H; exact H. Qed.

Lemma Inv_next (inp : string) (l : lexer) :
  Inv inp l -> Inv inp (snd (next l)).
Proof.
  intros H. pose proof (Inv_range _ _ H) as Hr.
  destruct H as (Hi & Ht & Hp).
  destruct (next_fields l) as (E1 & E2 & E3 & _).
  destruct (next_advance l) as [(Ha & _)|He]; [lia| |].
  - unfold Inv. rewrite E1, E2, E3. rewrite Hi in *. repeat split; try lia; auto.
  - pose proof (next_eof_end l ltac:(lia) He) as Hq.
    unfold Inv. rewrite E1, E2, E3. rewrite Hi in *. repeat split; try lia; auto.
Qed.

Lemma Inv_backup_next (inp : string) (l : lexer) :
  Inv inp l -> Inv inp (backup (snd (next l))).
Proof. intros H. rewrite backup_next. exact H. Qed.

Lemma Inv_peek (inp : string) (l : lexer) :
  Inv inp l -> Inv inp (snd (peek l)).
Proof. intros H. rewrite peek_eq. exact H. Qed.

Lemma Inv_emit (inp : string) (t : itemType) (l : lexer) :
  Inv inp l -> t <> itemError -> (t = itemEOF -> pos l = len inp) ->
  Inv inp (emit t l).
Proof.
  intros (Hi & Ht & Hp) Hne He. unfold Inv, emit; cbn.
  repeat split; try lia; auto.
  rewrite Hi. apply tiled_snoc; auto.
Qed.

Lemma Inv_emitNonEmpty (inp : string) (t : itemType) (l : lexer) :
  Inv inp l -> t <> itemError -> t <> itemEOF ->
  Inv inp (emitNonEmpty t l).
Proof.
  intros H H1 H2. unfold emitNonEmpty.
  destruct (String.eqb (current l) ""); [exact H|].
  apply Inv_emit; auto. intros E; contradiction.
Qed.

(** ** The invariant is kept by the scanning loops *)

Lemma Inv_emit_tok (inp : string) (t : itemType) (l : lexer) :
  Inv inp l -> t <> itemError -> t <> itemEOF -> Inv inp (emit t l).
Proof. intros H H1 H2. apply Inv_emit; auto. intros E; contradiction. Qed.

Lemma Inv_next_peek (inp : string) (l : lexer) :
  Inv inp l -> Inv inp (snd (next (snd (peek l)))).
Proof.
  intros H. rewrite peek_eq. cbn [snd]. rewrite next_set_width.
  now apply Inv_next.
Qed.

Ltac out := unfold Keeps, Post; cbn [final bind].

Create HintDb inv.
#[local] Hint Resolve Inv_set_width Inv_set_state Inv_next Inv_backup_next
  Inv_peek Inv_next_peek Inv_emit_tok Inv_emitNonEmpty : inv.
#[local] Hint Extern 1 (_ <> _) => discriminate : inv.

Lemma Keeps_bind {A B : Type} (inp : string) (m : outcome A)
      (k : A -> lexer -> outcome B) :
  Keeps inp m ->
  (forall a l, Inv inp l -> Keeps inp (k a l)) ->
  Keeps inp (bind m k).
Proof. destruct m; cbn; auto. Qed.

Lemma Post_bind {A : Type} (inp : string) (m : outcome A)
      (k : A -> lexer -> outcome (option stateFn)) :
  Keeps inp m ->
  (forall a l, Inv inp l -> Post inp (k a l)) ->
  Post inp (bind m k).
Proof. destruct m; cbn; auto. Qed.

Lemma Post_errorf (inp msg : string) (l : lexer) :
  Inv inp l -> Post inp (Ret None (snd (errorf msg l))).
Proof. intros H. exists l, msg. split; [exact H | repeat split]. Qed.

Lemma spaceRun_keeps (inp : string) (n : nat) :
  forall l, Inv inp l -> Keeps inp (spaceRun n l).
Proof.
  induction n as [|n IH]; intros l H; cbn [spaceRun]; [exact H|].
  destruct (peek l) as [r l1] eqn:E.
  assert (H1 : Inv inp l1) by (change l1 with (snd (r, l1)); rewrite <- E; auto with inv).
  destruct (isSpace r); [apply IH | exact H1]. auto with inv.
Qed.

Lemma scanSpaces_keeps (inp : string) (n : nat) (l : lexer) :
  Inv inp l -> Keeps inp (scanSpaces n l).
Proof.
  intros H. unfold scanSpaces. apply Keeps_bind.
  - now apply spaceRun_keeps.
  - intros _ l1 H1. destruct (String.eqb (current l1) ""); out; auto with inv.
Qed.

Lemma stringToEOL_keeps (inp : string) (n : nat) :
  forall l, Inv inp l -> Keeps inp (stringToEOL n l).
Proof.
  induction n as [|n IH]; intros l H; cbn [stringToEOL]; [exact H|].
  destruct (peek l) as [r l1] eqn:E.
  assert (H1 : Inv inp l1) by (change l1 with (snd (r, l1)); rewrite <- E; auto with inv).
  destruct (isEndOfLine r); [exact H1|].
  destruct (r =? eof); [exact H1|]. apply IH. auto with inv.
Qed.

Lemma scanStringToEOL_keeps (inp : string) (n : nat) (l : lexer) :
  Inv inp l -> Keeps inp (scanStringToEOL n l).
Proof.
  intros H. unfold scanStringToEOL. apply Keeps_bind.
  - now apply stringToEOL_keeps.
  - intros _ l1 H1. destruct (String.eqb (current l1) ""); out; auto with inv.
Qed.

Lemma stringUntil_keeps (inp : string) (u : Z) (n : nat) :
  forall l, Inv inp l -> Keeps inp (stringUntil u n l).
Proof.
  induction n as [|n IH]; intros l H; cbn [stringUntil]; [exact H|].
  destruct (peek l) as [r l1] eqn:E.
  assert (H1 : Inv inp l1) by (change l1 with (snd (r, l1)); rewrite <- E; auto with inv).
  destruct (isEndOfLine r); [exact H1|].
  destruct (r =? eof); [exact H1|].
  destruct (r =? u); [exact H1|]. apply IH. auto with inv.
Qed.

Lemma scanStringUntil_keeps (inp : string) (u : Z) (n : nat) (l : lexer) :
  Inv inp l -> Keeps inp (scanStringUntil u n l).
Proof.
  intros H. unfold scanStringUntil. apply Keeps_bind.
  - now apply stringUntil_keeps.
  - intros _ l1 H1. destruct (String.eqb (current l1) ""); out; auto with inv.
Qed.

Lemma scanNote_keeps (inp : string) (n : nat) :
  forall l, Inv inp l -> Keeps inp (scanNote n l).
Proof.
  induction n as [|n IH]; intros l H; cbn [scanNote]; [exact H|].
  destruct (next l) as [r l1] eqn:E.
  assert (E1 : l1 = snd (next l)) by now rewrite E.
  destruct (isEndOfLine r || (r =? eof)).
  - subst l1. out. auto with inv.
  - apply IH. subst l1. auto with inv.
Qed.

Lemma scanStringNote_keeps (inp : string) (n : nat) :
  forall l, Inv inp l -> Keeps inp (scanStringNote n l).
Proof.
  induction n as [|n IH]; intros l H; cbn [scanStringNote]; [exact H|].
  destruct (next l) as [r l1] eqn:E.
  assert (E1 : l1 = snd (next l)) by now rewrite E.
  subst l1.
  destruct (r =? rn ";").
  - apply scanNote_keeps. auto with inv.
  - destruct (isEndOfLine r); [out; auto with inv|].
    destruct (r =? eof); [out; auto with inv|].
    apply IH. auto with inv.
Qed.

Lemma scanAccountName_keeps (inp : string) (n : nat) :
  forall l, Inv inp l -> Keeps inp (scanAccountName n l).
Proof.
  induction n as [|n IH]; intros l H; cbn [scanAccountName]; [exact H|].
  destruct (peek l) as [r l1] eqn:E.
  assert (E1 : l1 = snd (peek l)) by now rewrite E.
  subst l1.
  destruct (isEndOfLine r || (r =? eof)); [out; auto with inv|].
  destruct (r =? 9); [out; auto with inv|].
  destruct (andb _ _); [out; auto with inv|].
  apply IH. auto with inv.
Qed.

#[local] Hint Resolve spaceRun_keeps scanSpaces_keeps stringToEOL_keeps
  scanStringToEOL_keeps stringUntil_keeps scanStringUntil_keeps
  scanNote_keeps scanStringNote_keeps scanAccountName_keeps : inv.

(** ** The invariant is kept by the state functions *)

Lemma key_keyword (w : string) :
  (iota (key w) >? iota itemKeyword) = true ->
  key w <> itemError /\ key w <> itemEOF.
Proof.
  destruct (key w); cbn; intros H; split; congruence.
Qed.

Lemma lexJournal_Post (inp : string) (n : nat) (l : lexer) :
  Inv inp l -> Post inp (lexJournal n l).
Proof.
  intros H. unfold lexJournal.
  destruct (next l) as [r l1] eqn:E.
  assert (E1 : l1 = snd (next l)) by now rewrite E.
  assert (Er : r = fst (next l)) by now rewrite E.
  assert (H1 : Inv inp l1) by (subst l1; auto with inv).
  destruct (isSpace r).
  { apply Post_bind; [auto with inv|]. intros _ l2 H2; out. auto with inv. }
  destruct (r =? rn "~"); [out; auto with inv|].
  destruct (r =? rn "="); [out; auto with inv|].
  destruct (IsDigit r); [exact H1|].
  destruct (isAlphaNumeric r); [out; subst l1; auto with inv|].
  destruct (isEndOfLine r); [out; auto with inv|].
  destruct (r =? eof) eqn:Ee.
  - out. apply Inv_emit; auto with inv. intros _.
    apply Z.eqb_eq in Ee. destruct H as (Hi & Ht & Hp).
    pose proof (tiled_range _ _ _ Ht).
    subst l1. rewrite <- Hi. apply next_eof_end; [rewrite Hi; lia | congruence].
  - apply (Post_errorf inp _ l1 H1).
Qed.

Lemma lexIdentifier_Post (inp : string) (n : nat) :
  forall l, Inv inp l -> Post inp (lexIdentifier n l).
Proof.
  induction n as [|n IH]; intros l H; cbn [lexIdentifier]; [exact H|].
  destruct (next l) as [r l1] eqn:E.
  assert (E1 : l1 = snd (next l)) by now rewrite E.
  subst l1.
  destruct (isAlphaNumeric r); [apply IH; auto with inv|].
  unfold atTerminator.
  destruct (peek (backup (snd (next l)))) as [r2 l3] eqn:E3.
  assert (H3 : Inv inp l3).
  { replace l3 with (snd (peek (backup (snd (next l))))) by now rewrite E3.
    auto with inv. }
  destruct (negb _); [apply (Post_errorf inp _ l3 H3)|].
  destruct (String.eqb _ "include").
  { apply Post_bind; [auto with inv|]. intros _ l4 H4.
    apply Post_bind; [auto with inv|]. intros ok l5 H5.
    destruct (negb ok); [now apply Post_errorf | exact H5]. }
  destruct (String.eqb _ "end").
  { apply Post_bind; [auto with inv|]. intros _ l4 H4. exact H4. }
  destruct (iota (key _) >? iota itemKeyword) eqn:Ek.
  - destruct (key_keyword _ Ek). out. auto with inv.
  - out. auto with inv.
Qed.

Lemma lexPeriodicXact_Post (inp : string) (n : nat) (l : lexer) :
  Inv inp l -> Post inp (lexPeriodicXact n l).
Proof.
  intros H. unfold lexPeriodicXact.
  apply Post_bind; [auto with inv|]. intros _ l1 H1.
  apply Post_bind; [auto with inv|]. intros _ l2 H2. exact H2.
Qed.

Lemma lexAutomatedXact_Post (inp : string) (n : nat) (l : lexer) :
  Inv inp l -> Post inp (lexAutomatedXact n l).
Proof. apply lexPeriodicXact_Post. Qed.

Lemma lexPlainXactDate_Post (inp : string) (n : nat) (l : lexer) :
  Inv inp l -> Post inp (lexPlainXactDate n l).
Proof.
  intros H. unfold lexPlainXactDate.
  destruct (peek l) as [r l1] eqn:E.
  assert (E1 : l1 = snd (peek l)) by now rewrite E.
  assert (H1 : Inv inp l1) by (subst l1; auto with inv).
  destruct (_ || _); [out; subst l1; auto with inv|].
  destruct (isSpace r).
  { apply Post_bind; [auto with inv|]. intros _ l2 H2. exact H2. }
  destruct (r =? eof); [now apply Post_errorf|].
  destruct (isEndOfLine r); now apply Post_errorf.
Qed.

Lemma lexPlainXactRest_Post (inp : string) (n : nat) (l : lexer) :
  Inv inp l -> Post inp (lexPlainXactRest n l).
Proof.
  intros H. unfold lexPlainXactRest.
  destruct (next l) as [r l1] eqn:E.
  assert (E1 : l1 = snd (next l)) by now rewrite E.
  assert (H1 : Inv inp l1) by (subst l1; auto with inv).
  repeat match goal with
  | |- Post _ (if ?c then _ else _) => destruct c
  end;
  try (apply Post_bind; [subst l1; auto with inv | intros ? l2 H2; exact H2]).
  out. auto with inv.
Qed.

Lemma lexPostings_loop_Post (inp : string) (n : nat) :
  forall b l, Inv inp l -> Post inp (lexPostings_loop n b l).
Proof.
  induction n as [|n IH]; intros b l H; cbn [lexPostings_loop]; [exact H|].
  destruct (next l) as [r l1] eqn:E.
  assert (E1 : l1 = snd (next l)) by now rewrite E.
  assert (H1 : Inv inp l1) by (subst l1; auto with inv).
  destruct (isEndOfLine r); [apply IH; auto with inv|].
  destruct b.
  { destruct (isSpace r).
    - apply Post_bind; [auto with inv|]. intros _ l2 H2. exact H2.
    - out. subst l1. auto with inv. }
  destruct (r =? rn "*").
  { apply Post_bind; [auto with inv|]. intros _ l2 H2. now apply IH. }
  destruct (r =? rn "!").
  { apply Post_bind; [auto with inv|]. intros _ l2 H2. now apply IH. }
  destruct (IsLetter r).
  { apply Post_bind; [auto with inv|]. intros _ l2 H2. exact H2. }
  now apply IH.
Qed.

Lemma call_Post (inp : string) (f : stateFn) (n : nat) (l : lexer) :
  Inv inp l -> Post inp (call f n l).
Proof.
  intros H. destruct f; cbn [call].
  - now apply lexJournal_Post.
  - now apply lexIdentifier_Post.
  - now apply lexPeriodicXact_Post.
  - now apply lexAutomatedXact_Post.
  - now apply lexPlainXactDate_Post.
  - now apply lexPlainXactRest_Post.
  - now apply lexPostings_loop_Post.
  - exact H.
Qed.

(** The producer is left, or interrupted, either with the invariant or
    stopped on an error. *)
Lemma run_loop_Inv (inp : string) (n : nat) :
  forall l, Inv inp l ->
    Inv inp (final (run_loop n l)) \/ Failed inp (final (run_loop n l)).
Proof.
  induction n as [|n IH]; intros l H.
  - cbn [run_loop]. destruct (state l); left; exact H.
  - cbn [run_loop]. destruct (state l) as [f|]; [|left; exact H].
    pose proof (call_Post inp f (S n) l H) as HP.
    destruct (call f (S n) l) as [[s|] l1|l1]; cbn [bind].
    + apply IH. exact HP.
    + right. destruct n; cbn; exact HP.
    + left. exact HP.
Qed.

Lemma lex_Inv (nm inp : string) : Inv inp (lex nm inp).
Proof.
  unfold Inv, lex; cbn. pose proof (len_nonneg inp).
  repeat split; try lia. constructor.
Qed.

Lemma scan_Inv (inp : string) (n : nat) :
  Inv inp (final (scan n inp)) \/ Failed inp (final (scan n inp)).
Proof.
  unfold scan, run. apply run_loop_Inv. apply Inv_set_state, lex_Inv.
Qed.

(** ** The stream of tokens *)

Lemma texts_app (a b : list item) : texts (a ++ b) = texts a +++ texts b.
Proof.
  induction a as [|x a IH]; cbn; [reflexivity|].
  fold (texts (a ++ b)). fold (texts a). rewrite IH.
  generalize (val x) as v. intros v.
  induction v as [|c v IHv]; cbn; [reflexivity | now rewrite IHv].
Qed.

Lemma append_empty_r (s : string) : s +++ "" = s.
Proof. induction s as [|c s IH]; cbn; [reflexivity | now rewrite IH]. Qed.

Lemma tiled_texts (inp : string) (its : list item) (s : Z) :
  tiled inp its s -> texts its = slice inp 0 s.
Proof.
  induction 1 as [|its s t p Ht IH Hp Hne He].
  - now rewrite slice_empty.
  - apply tiled_range in Ht.
    rewrite texts_app, IH. cbn. rewrite append_empty_r.
    apply slice_app; lia.
Qed.

Lemma tiled_inv_snoc (inp : string) (its : list item) (x : item) (p : Z) :
  tiled inp (its ++ [x]) p ->
  exists s,
    tiled inp its s /\ ipos x = s /\ val x = slice inp s p /\
    s <= p <= len inp /\ typ x <> itemError /\
    (typ x = itemEOF -> p = len inp).
Proof.
  intros H. inversion H as [E|its' s t p' Ht Hp Hne He E1 E2].
  - destruct its; discriminate.
  - apply app_inj_tail in E1 as [-> <-].
    subst p'. exists s. cbn. repeat split; auto; lia.
Qed.

Lemma tiled_prefix (inp : string) (pre post : list item) :
  forall s, tiled inp (pre ++ post) s ->
            exists s1, tiled inp pre s1 /\ s1 <= s.
Proof.
  induction post as [|x post IH] using rev_ind; intros s H.
  - rewrite app_nil_r in H. exists s. split; [exact H | lia].
  - rewrite app_assoc in H.
    apply tiled_inv_snoc in H as (s0 & H0 & _ & _ & Hp & _).
    destruct (IH _ H0) as (s1 & H1 & Hle). exists s1. split; [exact H1 | lia].
Qed.

Lemma tiled_split (inp : string) (pre post : list item) (t : item) (s : Z) :
  tiled inp (pre ++ t :: post) s ->
  exists p,
    tiled inp pre (ipos t) /\ tiled inp (pre ++ [t]) p /\
    val t = slice inp (ipos t) p /\ ipos t <= p <= s /\
    typ t <> itemError /\ (typ t = itemEOF -> p = len inp).
Proof.
  intros H.
  change (pre ++ t :: post) with (pre ++ [t] ++ post) in H.
  rewrite app_assoc in H.
  destruct (tiled_prefix _ _ _ _ H) as (p & Hp & Hle).
  destruct (tiled_inv_snoc _ _ _ _ Hp) as (s0 & H0 & E0 & Ev & Hr & Hne & He).
  subst s0. exists p. repeat split; auto; lia.
Qed.

Lemma snoc_split {A : Type} (pre post its : list A) (t e : A) :
  pre ++ t :: post = its ++ [e] ->
  (post = [] /\ pre = its /\ t = e) \/
  (exists post', post = post' ++ [e] /\ its = pre ++ t :: post').
Proof.
  intros H. destruct post as [|y post] using rev_ind.
  - left. apply (app_inj_tail pre its t e) in H as [-> ->]. auto.
  - right. clear IHpost. exists post.
    change (pre ++ t :: post ++ [y]) with (pre ++ (t :: post) ++ [y]) in H.
    rewrite app_assoc in H. apply app_inj_tail in H as [<- ->]. auto.
Qed.

(** The shape of the stream of a scan, whether it runs, has been
    interrupted or has stopped on an error: every token starts where the
    texts of the tokens before it end, an error is the last token, and
    any other token carries the text of the source at its position. *)
Lemma scan_stream (inp : string) (n : nat) (pre post : list item) (t : item) :
  items (final (scan n inp)) = pre ++ t :: post ->
  tiled inp pre (ipos t) /\
  (typ t = itemError -> post = []) /\
  (typ t <> itemError ->
   exists p, val t = slice inp (ipos t) p /\ ipos t <= p <= len inp /\
             tiled inp (pre ++ [t]) p /\ (typ t = itemEOF -> p = len inp)).
Proof.
  intros E.
  destruct (scan_Inv inp n)
    as [(Hi & Ht & Hp)|(l0 & msg & (Hi & Ht & Hp) & Ef & _)].
  - rewrite E in Ht. pose proof (tiled_range _ _ _ Ht) as Hr.
    destruct (tiled_split _ _ _ _ _ Ht) as (p & H1 & H2 & H3 & H4 & H5 & H6).
    split; [exact H1|]. split; [intros C; contradiction|].
    intros _. exists p. repeat split; auto; lia.
  - rewrite E in Ef. apply snoc_split in Ef as [(-> & -> & ->)|(post' & -> & E0)].
    + cbn. split; [exact Ht|]. split; [reflexivity|].
      intros C; contradiction.
    + rewrite E0 in Ht. pose proof (tiled_range _ _ _ Ht) as Hr.
      destruct (tiled_split _ _ _ _ _ Ht) as (p & H1 & H2 & H3 & H4 & H5 & H6).
      split; [exact H1|]. split; [intros C; contradiction|].
      intros _. exists p. repeat split; auto; lia.
Qed.

(** The cursor is at or after the start of every token sent, and an
    error carries the start of the text that is pending when it is
    sent. *)
Lemma scan_cursor (inp : string) (n : nat) (pre post : list item) (t : item) :
  items (final (scan n inp)) = pre ++ t :: post ->
  ipos t <= pos (final (scan n inp)) <= len inp /\
  (typ t = itemError -> ipos t = start (final (scan n inp))).
Proof.
  intros E.
  destruct (scan_Inv inp n)
    as [(Hi & Ht & Hp)|(l0 & msg & (Hi & Ht & Hp) & Ef & Es & Ep)].
  - rewrite E in Ht.
    destruct (tiled_split _ _ _ _ _ Ht) as (p & _ & _ & _ & H4 & H5 & _).
    split; [lia | intros C; contradiction].
  - rewrite E in Ef. rewrite Es, Ep.
    apply snoc_split in Ef as [(-> & -> & ->)|(post' & -> & E0)].
    + cbn. split; [lia | reflexivity].
    + rewrite E0 in Ht.
      destruct (tiled_split _ _ _ _ _ Ht) as (p & _ & _ & _ & H4 & H5 & _).
      split; [lia | intros C; contradiction].
Qed.

(** C2, amended.  For every input and at every moment of the scan, the
    tokens emitted so far have non-decreasing start positions; no token
    overlaps a later one; every token that is not an error carries the
    text of the source at its position; the texts of the tokens that
    precede any token, concatenated in the order of emission, are
    exactly the source before the start position of that token -- in
    particular before that of the terminal token; and the texts up to
    an [itemEOF] are the whole source.  Every token starts at or before
    the cursor [l.pos], and the position of an [itemError] is [l.start],
    the start of the text that is pending when [errorf] is called: the
    texts before the terminal token are a prefix of the source
    consumed, the one that ends where the terminal token starts, and
    the runes read between [l.start] and [l.pos] are in no token. *)
Theorem C2_tokens_tile_the_source (inp : string) (n : nat) :
  let its := items (final (scan n inp)) in
  (forall pre a mid b post,
      its = pre ++ a :: mid ++ b :: post ->
      ipos a <= ipos b /\ ipos a + len (val a) <= ipos b) /\
  (forall pre t post,
      its = pre ++ t :: post ->
      0 <= ipos t <= len inp /\
      texts pre = slice inp 0 (ipos t) /\
      (typ t <> itemError ->
       val t = slice inp (ipos t) (ipos t + len (val t))) /\
      (typ t = itemEOF -> texts (pre ++ [t]) = inp)) /\
  (forall pre t post,
      its = pre ++ t :: post ->
      ipos t <= pos (final (scan n inp)) <= len inp /\
      (typ t = itemError -> ipos t = start (final (scan n inp)))).
Proof.
  intros its. split; [|split].
  - intros pre a mid b post E.
    destruct (scan_stream inp n pre (mid ++ b :: post) a E) as (Ha & Hlast & Hv).
    assert (Hne : typ a <> itemError).
    { intros C. apply Hlast in C. destruct mid; discriminate. }
    destruct (Hv Hne) as (p & Ev & Hr & Hp & _).
    pose proof (tiled_range _ _ _ Ha) as Hra.
    assert (El : len (val a) = p - ipos a) by (rewrite Ev; apply len_slice; lia).
    assert (E' : its = (pre ++ [a] ++ mid) ++ b :: post).
    { rewrite E. rewrite <- !app_assoc. reflexivity. }
    destruct (scan_stream inp n _ _ b E') as (Hb & _ & _).
    rewrite app_assoc in Hb.
    destruct (tiled_prefix _ _ _ _ Hb) as (p' & Hp' & Hle).
    destruct (tiled_inv_snoc _ _ _ _ Hp) as (s0 & Hs0 & _).
    destruct (tiled_inv_snoc _ _ _ _ Hp') as (s1 & _ & _ & Ev' & Hr' & _).
    assert (p' = p).
    { pose proof (tiled_texts _ _ _ Hp) as T1.
      pose proof (tiled_texts _ _ _ Hp') as T2.
      pose proof (tiled_range _ _ _ Hp) as R1.
      pose proof (tiled_range _ _ _ Hp') as R2.
      assert (L1 : len (slice inp 0 p) = p) by (rewrite len_slice; lia).
      assert (L2 : len (slice inp 0 p') = p') by (rewrite len_slice; lia).
      congruence. }
    lia.
  - intros pre t post E.
    destruct (scan_stream inp n pre post t E) as (Ht & Hlast & Hv).
    pose proof (tiled_range _ _ _ Ht) as Hr.
    split; [exact Hr|]. split; [now apply tiled_texts|]. split.
    + intros Hne. destruct (Hv Hne) as (p & Ev & Hp & _).
      rewrite Ev at 1. f_equal. rewrite Ev, len_slice; lia.
    + intros He.
      assert (Hne : typ t <> itemError) by congruence.
      destruct (Hv Hne) as (p & Ev & Hp & Htp & Hend).
      rewrite (tiled_texts _ _ _ Htp), (Hend He). apply slice_all.
  - intros pre t post E. exact (scan_cursor inp n pre post t E).
Qed.

(** ** The cursor, in terms of the remaining input *)

Lemma lexer_eta (l : lexer) :
  l = mkLexer (name l) (input l) (state l) (pos l) (start l) (width l)
              (lastPos l) (items l) (closed l) (parenDepth l).
Proof. now destruct l. Qed.

Lemma set_pos_same (l : lexer) (p : Z) : p = pos l -> set_pos p l = l.
Proof. intros ->. now destruct l. Qed.

Lemma head_width_range (s : string) : 0 <= head_width s <= len s.
Proof.
  unfold head_width. destruct (len s <? 1) eqn:E.
  - pose proof (len_nonneg s). lia.
  - destruct (decode_bounds s ltac:(lia)). lia.
Qed.

Lemma head_rune_eof (s : string) : head_rune s = eof <-> len s = 0.
Proof.
  unfold head_rune. pose proof (len_nonneg s).
  destruct (len s <? 1) eqn:E.
  - split; [lia | reflexivity].
  - destruct (decode_bounds s ltac:(lia)) as [_ Hr]. unfold eof. lia.
Qed.

Lemma head_width_pos (s : string) : 1 <= len s -> 1 <= head_width s.
Proof.
  intros H. unfold head_width. destruct (len s <? 1) eqn:E; [lia|].
  destruct (decode_bounds s H). lia.
Qed.

(** [next] reads the rune at the head of the remaining input. *)
Lemma next_spec (l : lexer) :
  0 <= pos l <= len (input l) ->
  next l = (head_rune (rest l),
            set_pos (pos l + head_width (rest l))
                    (set_width (head_width (rest l)) l)).
Proof.
  intros H. unfold next, head_rune, head_width, rest.
  rewrite len_slice_from by lia.
  destruct (pos l >=? len (input l)) eqn:E.
  - assert (E1 : (len (input l) - pos l <? 1) = true) by lia. rewrite E1.
    f_equal. destruct l; fields. f_equal; lia.
  - assert (E1 : (len (input l) - pos l <? 1) = false) by lia. rewrite E1.
    now destruct (DecodeRuneInString _).
Qed.

Lemma peek_spec (l : lexer) :
  0 <= pos l <= len (input l) ->
  peek l = (head_rune (rest l), set_width (head_width (rest l)) l).
Proof.
  intros H. rewrite peek_eq, next_spec by exact H. reflexivity.
Qed.

Lemma rest_set_width (w : Z) (l : lexer) : rest (set_width w l) = rest l.
Proof. reflexivity. Qed.

Lemma rest_advance (l : lexer) (k w : Z) :
  0 <= pos l -> 0 <= k -> pos l + k <= len (input l) ->
  rest (set_pos (pos l + k) (set_width w l)) = slice_from (rest l) k.
Proof.
  intros H1 H2 H3. unfold rest; fields.
  now rewrite slice_from_slice_from by lia.
Qed.

Lemma len_rest (l : lexer) :
  0 <= pos l <= len (input l) -> len (rest l) = len (input l) - pos l.
Proof. intros H. unfold rest. now apply len_slice_from. Qed.

(** ** Runs of runes *)

Lemma span_enough (P : Z -> bool) (k1 : nat) :
  forall k2 s, len s <= Z.of_nat k1 -> len s <= Z.of_nat k2 ->
               span P k1 s = span P k2 s.
Proof.
  induction k1 as [|k1 IH]; intros k2 s H1 H2.
  - destruct k2; cbn [span]; [reflexivity|].
    destruct (len s <? 1) eqn:E; [reflexivity | lia].
  - destruct k2; cbn [span].
    + destruct (len s <? 1) eqn:E; [reflexivity | lia].
    + destruct (len s <? 1) eqn:E; [reflexivity|].
      destruct (decode_bounds s ltac:(lia)) as [Hw _].
      destruct (DecodeRuneInString s) as [r w]. cbn [snd] in Hw.
      destruct (P r); [|reflexivity]. f_equal.
      apply IH; rewrite len_slice_from; lia.
Qed.

Lemma run_length_empty (P : Z -> bool) (s : string) :
  len s = 0 -> run_length P s = 0.
Proof.
  intros H. unfold run_length. destruct (String.length s); cbn [span]; [reflexivity|].
  destruct (len s <? 1) eqn:E; [reflexivity | lia].
Qed.

Lemma run_length_unfold (P : Z -> bool) (s : string) :
  1 <= len s ->
  run_length P s =
  if P (head_rune s)
  then head_width s + run_length P (slice_from s (head_width s))
  else 0.
Proof.
  intros H. unfold run_length, head_rune, head_width.
  destruct (String.length s) as [|k] eqn:Ek; [unfold len in H; lia|].
  cbn [span]. destruct (len s <? 1) eqn:E; [lia|].
  destruct (decode_bounds s H) as [Hw _].
  destruct (DecodeRuneInString s) as [r w]. cbn [fst snd] in *.
  destruct (P r); [|reflexivity]. f_equal.
  apply span_enough.
  - rewrite len_slice_from by lia. unfold len in *. lia.
  - unfold len. lia.
Qed.

Lemma run_length_stop (P : Z -> bool) (s : string) :
  P (head_rune s) = false -> run_length P s = 0.
Proof.
  intros H. pose proof (len_nonneg s).
  destruct (Z.eq_dec (len s) 0) as [E|E].
  - now apply run_length_empty.
  - rewrite run_length_unfold by lia. now rewrite H.
Qed.

Lemma run_length_range (P : Z -> bool) (s : string) :
  0 <= run_length P s <= len s.
Proof.
  unfold run_length. generalize (String.length s) as k.
  intros k; revert s. induction k as [|k IH]; intros s; cbn [span].
  - pose proof (len_nonneg s). lia.
  - pose proof (len_nonneg s).
    destruct (len s <? 1) eqn:E; [lia|].
    destruct (decode_bounds s ltac:(lia)) as [Hw _].
    destruct (DecodeRuneInString s) as [r w]. cbn [snd] in Hw.
    destruct (P r); [|lia].
    specialize (IH (slice_from s w)).
    rewrite len_slice_from in IH by lia. lia.
Qed.

Lemma slice_from_String (c : ascii) (s : string) :
  slice_from (String c s) 1 = s.
Proof.
  unfold slice_from, slice. rewrite len_String.
  replace (Z.to_nat (1 + len s - 1)) with (String.length s)
    by (unfold len; lia).
  change (Z.to_nat 1) with 1%nat. cbn [substring].
  apply substring_all.
Qed.

Lemma head_ascii (c : ascii) (s : string) :
  byte_val c < 128 ->
  head_rune (String c s) = byte_val c /\ head_width (String c s) = 1.
Proof.
  intros H. unfold head_rune, head_width.
  rewrite len_String. pose proof (len_nonneg s).
  destruct (1 + len s <? 1) eqn:E; [lia|].
  now rewrite decode_ascii.
Qed.

Lemma run_length_ascii (P : Z -> bool) (c : ascii) (s : string) :
  byte_val c < 128 ->
  run_length P (String c s) =
  if P (byte_val c) then 1 + run_length P s else 0.
Proof.
  intros H. destruct (head_ascii c s H) as [E1 E2].
  rewrite run_length_unfold
    by (rewrite len_String; pose proof (len_nonneg s); lia).
  now rewrite E1, E2, slice_from_String.
Qed.

(** ** What the scanning loops compute *)

Ltac lexer_eq l :=
  destruct l; unfold at_pos; fields; f_equal; try lia.

Lemma isSpace_nonempty (s : string) :
  isSpace (head_rune s) = true -> 1 <= len s.
Proof.
  intros H. pose proof (len_nonneg s).
  destruct (Z.eq_dec (len s) 0) as [E|E]; [|lia].
  apply head_rune_eof in E. rewrite E in H. discriminate.
Qed.

Lemma inLine_nonempty (s : string) :
  inLine (head_rune s) = true -> 1 <= len s.
Proof.
  intros H. pose proof (len_nonneg s).
  destruct (Z.eq_dec (len s) 0) as [E|E]; [|lia].
  apply head_rune_eof in E. rewrite E in H. discriminate.
Qed.

(** The loop over the spaces stops after the longest run of spaces. *)
Lemma spaceRun_spec (n : nat) :
  forall l,
    0 <= pos l <= len (input l) ->
    len (rest l) < Z.of_nat n ->
    spaceRun n l =
    Ret tt (at_pos (pos l + run_length isSpace (rest l))
                   (head_width (slice_from (rest l)
                                           (run_length isSpace (rest l))))
                   l).
Proof.
  induction n as [|n IH]; intros l Hp Hn.
  - pose proof (len_nonneg (rest l)). lia.
  - cbn [spaceRun]. rewrite peek_spec by exact Hp.
    pose proof (head_width_range (rest l)) as Hw.
    pose proof (len_rest l Hp) as Hl.
    destruct (isSpace (head_rune (rest l))) eqn:E.
    + pose proof (isSpace_nonempty _ E) as Hne.
      pose proof (head_width_pos _ Hne) as Hw1.
      rewrite next_set_width, next_spec by exact Hp. cbn [snd].
      set (l' := set_pos _ _).
      assert (Er : rest l' = slice_from (rest l) (head_width (rest l)))
        by (apply rest_advance; lia).
      assert (Ep : pos l' = pos l + head_width (rest l)) by reflexivity.
      assert (Ei : input l' = input l) by reflexivity.
      rewrite IH; [|rewrite Ei, Ep; lia|rewrite Er, len_slice_from; lia].
      rewrite (run_length_unfold isSpace (rest l)) by exact Hne.
      rewrite E, Er.
      pose proof (run_length_range isSpace
                    (slice_from (rest l) (head_width (rest l)))) as Hk.
      rewrite len_slice_from in Hk by lia.
      rewrite slice_from_slice_from by lia.
      f_equal. subst l'. lexer_eq l.
    + rewrite run_length_stop by exact E.
      rewrite slice_from_0. f_equal. lexer_eq l.
Qed.

(** The loop of [scanStringToEOL] stops at the end of the line. *)
Lemma stringToEOL_spec (n : nat) :
  forall l,
    0 <= pos l <= len (input l) ->
    len (rest l) < Z.of_nat n ->
    stringToEOL n l =
    Ret tt (at_pos (pos l + run_length inLine (rest l))
                   (head_width (slice_from (rest l)
                                           (run_length inLine (rest l))))
                   l).
Proof.
  induction n as [|n IH]; intros l Hp Hn.
  - pose proof (len_nonneg (rest l)). lia.
  - cbn [stringToEOL]. rewrite peek_spec by exact Hp.
    pose proof (head_width_range (rest l)) as Hw.
    pose proof (len_rest l Hp) as Hl.
    destruct (inLine (head_rune (rest l))) eqn:E.
    + pose proof (inLine_nonempty _ E) as Hne.
      pose proof (head_width_pos _ Hne) as Hw1.
      unfold inLine in E. apply andb_prop in E as [E1 E2].
      apply negb_true_iff in E1, E2. rewrite E1, E2.
      assert (E : inLine (head_rune (rest l)) = true)
        by (unfold inLine; now rewrite E1, E2).
      rewrite next_set_width, next_spec by exact Hp. cbn [snd].
      set (l' := set_pos _ _).
      assert (Er : rest l' = slice_from (rest l) (head_width (rest l)))
        by (apply rest_advance; lia).
      assert (Ep : pos l' = pos l + head_width (rest l)) by reflexivity.
      assert (Ei : input l' = input l) by reflexivity.
      rewrite IH; [|rewrite Ei, Ep; lia|rewrite Er, len_slice_from; lia].
      rewrite (run_length_unfold inLine (rest l)) by exact Hne.
      rewrite E, Er.
      pose proof (run_length_range inLine
                    (slice_from (rest l) (head_width (rest l)))) as Hk.
      rewrite len_slice_from in Hk by lia.
      rewrite slice_from_slice_from by lia.
      f_equal. subst l'. lexer_eq l.
    + rewrite run_length_stop by exact E.
      rewrite slice_from_0.
      assert (R : Ret tt (set_width (head_width (rest l)) l) =
                  Ret tt (at_pos (pos l + 0) (head_width (rest l)) l))
        by (f_equal; lexer_eq l).
      unfold inLine in E.
      destruct (isEndOfLine (head_rune (rest l))); [exact R|].
      destruct (head_rune (rest l) =? eof); [exact R | discriminate].
Qed.

Lemma current_at_pos (p w : Z) (l : lexer) :
  current (at_pos p w l) = slice (input l) (start l) p.
Proof. reflexivity. Qed.

Lemma slice_eqb_empty (s : string) (a b : Z) :
  0 <= a <= b -> b <= len s ->
  String.eqb (slice s a b) "" = (a =? b).
Proof.
  intros H1 H2. rewrite eqb_empty_len, len_slice by lia.
  destruct (a =? b) eqn:E; lia.
Qed.

(** [scanSpaces] emits the pending text and the run of spaces that
    follows as an [itemSpace], unless both are empty. *)
Lemma scanSpaces_spec (n : nat) (l : lexer) :
  0 <= start l <= pos l -> pos l <= len (input l) ->
  len (rest l) < Z.of_nat n ->
  let k := run_length isSpace (rest l) in
  let l1 := at_pos (pos l + k) (head_width (slice_from (rest l) k)) l in
  scanSpaces n l =
  if start l =? pos l + k then Ret false l1
  else Ret true (emit itemSpace l1).
Proof.
  intros Hs Hp Hn k l1. unfold scanSpaces.
  rewrite spaceRun_spec by (auto; lia). cbn [bind]. fold k. fold l1.
  pose proof (run_length_range isSpace (rest l)) as Hk. fold k in Hk.
  rewrite len_rest in Hk by lia.
  unfold l1. rewrite current_at_pos, slice_eqb_empty by lia.
  reflexivity.
Qed.

(** [scanStringToEOL] emits the pending text and the rest of the line
    as an [itemString], unless both are empty. *)
Lemma scanStringToEOL_spec (n : nat) (l : lexer) :
  0 <= start l <= pos l -> pos l <= len (input l) ->
  len (rest l) < Z.of_nat n ->
  let k := run_length inLine (rest l) in
  let l1 := at_pos (pos l + k) (head_width (slice_from (rest l) k)) l in
  scanStringToEOL n l =
  if start l =? pos l + k then Ret false l1
  else Ret true (emit itemString l1).
Proof.
  intros Hs Hp Hn k l1. unfold scanStringToEOL.
  rewrite stringToEOL_spec by (auto; lia). cbn [bind]. fold k. fold l1.
  pose proof (run_length_range inLine (rest l)) as Hk. fold k in Hk.
  rewrite len_rest in Hk by lia.
  unfold l1. rewrite current_at_pos, slice_eqb_empty by lia.
  reflexivity.
Qed.

Lemma lexIdentifier_absorb (n : nat) (l : lexer) :
  0 <= pos l <= len (input l) ->
  isAlphaNumeric (head_rune (rest l)) = true ->
  lexIdentifier (S n) l =
  lexIdentifier n (set_pos (pos l + head_width (rest l))
                           (set_width (head_width (rest l)) l)).
Proof.
  intros Hp E. cbn [lexIdentifier]. rewrite next_spec by exact Hp.
  now rewrite E.
Qed.

(** The loop of [lexIdentifier] absorbs the longest run of alphanumeric
    runes. *)
Lemma lexIdentifier_skip (n : nat) :
  forall l,
    0 <= pos l <= len (input l) ->
    len (rest l) < Z.of_nat n ->
    exists m w,
      lexIdentifier n l =
      lexIdentifier (S m)
        (at_pos (pos l + run_length isAlphaNumeric (rest l)) w l) /\
      len (rest l) - run_length isAlphaNumeric (rest l) <= Z.of_nat m /\
      isAlphaNumeric
        (head_rune (slice_from (rest l)
                               (run_length isAlphaNumeric (rest l)))) = false.
Proof.
  induction n as [|n IH]; intros l Hp Hn.
  - pose proof (len_nonneg (rest l)). lia.
  - pose proof (head_width_range (rest l)) as Hw.
    pose proof (len_rest l Hp) as Hl.
    destruct (isAlphaNumeric (head_rune (rest l))) eqn:E.
    + assert (Hne : 1 <= len (rest l)).
      { pose proof (len_nonneg (rest l)).
        destruct (Z.eq_dec (len (rest l)) 0) as [E0|E0]; [|lia].
        apply head_rune_eof in E0. rewrite E0 in E. discriminate. }
      pose proof (head_width_pos _ Hne) as Hw1.
      rewrite lexIdentifier_absorb by assumption.
      set (l' := set_pos _ _).
      assert (Er : rest l' = slice_from (rest l) (head_width (rest l)))
        by (apply rest_advance; lia).
      assert (Ep : pos l' = pos l + head_width (rest l)) by reflexivity.
      assert (Ei : input l' = input l) by reflexivity.
      destruct (IH l') as (m & w & E1 & E2 & E3);
        [rewrite Ei, Ep; lia|rewrite Er, len_slice_from; lia|].
      exists m, w.
      rewrite (run_length_unfold isAlphaNumeric (rest l)) by exact Hne.
      rewrite E. rewrite Er in *.
      pose proof (run_length_range isAlphaNumeric
                    (slice_from (rest l) (head_width (rest l)))) as Hk.
      rewrite len_slice_from in Hk, E2 by lia.
      rewrite slice_from_slice_from in E3 by lia.
      split; [|split; [lia | exact E3]].
      rewrite E1. f_equal. subst l'. lexer_eq l.
    + exists n, (width l).
      rewrite run_length_stop by exact E. rewrite slice_from_0.
      split; [|split; [lia | exact E]].
      f_equal. lexer_eq l.
Qed.

(** What [lexIdentifier] does when the next rune is not alphanumeric. *)
Lemma lexIdentifier_stop (m : nat) (l : lexer) :
  0 <= pos l <= len (input l) ->
  isAlphaNumeric (head_rune (rest l)) = false ->
  let r := head_rune (rest l) in
  let l3 := set_width (head_width (rest l)) l in
  let word := slice (input l) (start l) (pos l) in
  lexIdentifier (S m) l =
  if negb (isSpace r || isEndOfLine r) then
    Ret None (send (mkItem itemError (start l) ("bad character " +++ fmt_U r))
                   l3)
  else if String.eqb word "include" then
    bind (scanSpaces (S m) (emit itemInclude l3)) (fun _ l4 =>
    bind (scanStringToEOL (S m) l4) (fun ok l5 =>
      if negb ok then
        Ret None (snd (errorf "missing filename after 'include'" l5))
      else Ret (Some LexJournal) l5))
  else if String.eqb word "end" then
    bind (scanSpaces (S m) (emit itemEnd l3)) (fun _ l4 =>
      Ret (Some LexIdentifier) l4)
  else if iota (key word) >? iota itemKeyword then
    Ret (Some LexJournal) (emit (key word) l3)
  else Ret (Some LexJournal) (emit itemIdentifier l3).
Proof.
  intros Hp E r l3 word. cbn [lexIdentifier].
  rewrite next_spec by exact Hp. rewrite E.
  unfold atTerminator.
  assert (Eb : backup (set_pos (pos l + head_width (rest l))
                               (set_width (head_width (rest l)) l)) = l3)
    by (unfold l3; lexer_eq l).
  rewrite Eb. unfold l3 at 1. rewrite peek_spec by exact Hp.
  rewrite rest_set_width.
  replace (set_width (head_width (rest l))
                     (set_width (head_width (rest l)) l)) with l3
    by (unfold l3; lexer_eq l).
  fold r. reflexivity.
Qed.

(** ** Barewords *)

Lemma rest_at_pos (l : lexer) (k w : Z) :
  0 <= pos l -> 0 <= k -> pos l + k <= len (input l) ->
  rest (at_pos (pos l + k) w l) = slice_from (rest l) k.
Proof.
  intros H1 H2 H3. unfold rest, at_pos; fields.
  now rewrite slice_from_slice_from by lia.
Qed.

Lemma run_loop_nil (n : nat) (l : lexer) :
  state l = None -> run_loop n l = Ret tt (close l).
Proof. intros H. destruct n; cbn [run_loop]; now rewrite H. Qed.

(** A state function that returns [nil] ends [run]. *)
Lemma run_loop_halts (n : nat) (f : stateFn) (l l' : lexer) :
  call f n l = Ret None l' -> (0 < n)%nat ->
  state l = Some f -> run_loop n l = Ret tt (close (set_state None l')).
Proof.
  intros E Hn Hs. destruct n as [|n]; [lia|].
  cbn [run_loop]. rewrite Hs, E. cbn [bind].
  now apply run_loop_nil.
Qed.

(** The kind of a bareword is found in the table [key], and is
    [itemIdentifier] for a word that is not in it. *)
Lemma kind_of_key (w : string) :
  kind_of w =
  if iota (key w) >? iota itemKeyword then key w else itemIdentifier.
Proof.
  unfold kind_of, key, key_table, lookup.
  repeat match goal with
  | |- context [String.eqb w ?k] => destruct (String.eqb w k)
  end; reflexivity.
Qed.

Lemma kind_of_include : kind_of "include" = itemInclude.
Proof. reflexivity. Qed.

Lemma kind_of_end : kind_of "end" = itemEnd.
Proof. reflexivity. Qed.

Lemma bind_final_items {A B : Type} (m : outcome A)
      (k : A -> lexer -> outcome B) (its : list item) :
  (exists more, items (final m) = its ++ more) ->
  (forall a l, exists more, items (final (k a l)) = items l ++ more) ->
  exists more, items (final (bind m k)) = its ++ more.
Proof.
  intros (more & E) H. destruct m as [a l|l]; cbn [bind final] in *.
  - destruct (H a l) as (more' & E'). exists (more ++ more').
    now rewrite E', E, app_assoc.
  - now exists more.
Qed.

Lemma ex_snoc (xs its : list item) (x : item) :
  (exists more, xs = (its ++ [x]) ++ more) ->
  exists more, xs = its ++ x :: more.
Proof.
  intros (more & E). exists more. now rewrite E, <- app_assoc.
Qed.

Lemma spaceRun_items (n : nat) :
  forall l, items (final (spaceRun n l)) = items l.
Proof.
  induction n as [|n IH]; intros l; cbn [spaceRun]; [reflexivity|].
  rewrite peek_eq. destruct (isSpace _); [|reflexivity].
  cbn [snd]. rewrite next_set_width, IH. apply next_fields.
Qed.

Lemma stringToEOL_items (n : nat) :
  forall l, items (final (stringToEOL n l)) = items l.
Proof.
  induction n as [|n IH]; intros l; cbn [stringToEOL]; [reflexivity|].
  rewrite peek_eq. destruct (isEndOfLine _); [reflexivity|].
  destruct (_ =? eof); [reflexivity|].
  cbn [snd]. rewrite next_set_width, IH. apply next_fields.
Qed.

Lemma scanSpaces_grows (n : nat) (l : lexer) :
  exists more, items (final (scanSpaces n l)) = items l ++ more.
Proof.
  unfold scanSpaces. pose proof (spaceRun_items n l) as E.
  destruct (spaceRun n l) as [[] l1|l1]; cbn [bind final] in *.
  - destruct (String.eqb _ _); cbn [final].
    + exists []. now rewrite app_nil_r.
    + eexists. cbn. rewrite E. reflexivity.
  - exists []. now rewrite app_nil_r.
Qed.

Lemma scanStringToEOL_grows (n : nat) (l : lexer) :
  exists more, items (final (scanStringToEOL n l)) = items l ++ more.
Proof.
  unfold scanStringToEOL. pose proof (stringToEOL_items n l) as E.
  destruct (stringToEOL n l) as [[] l1|l1]; cbn [bind final] in *.
  - destruct (String.eqb _ _); cbn [final].
    + exists []. now rewrite app_nil_r.
    + eexists. cbn. rewrite E. reflexivity.
  - exists []. now rewrite app_nil_r.
Qed.

(** C10.  A bareword that runs up to the end of the input -- every rune
    that remains is alphanumeric -- is not emitted, neither as an
    identifier nor as a keyword: [lexIdentifier] sends the error
    "bad character" with the rendering of [eof] and returns the [nil]
    state, and the scan halts. *)
Theorem C10_bareword_at_end_of_input (n : nat) (l : lexer) :
  0 <= pos l <= len (input l) ->
  run_length isAlphaNumeric (rest l) = len (rest l) ->
  len (rest l) < Z.of_nat n ->
  halts_with n LexIdentifier l ("bad character " +++ fmt_U eof).
Proof.
  intros Hp Hall Hn.
  destruct (lexIdentifier_skip n l Hp Hn) as (m & w & E1 & _ & E3).
  pose proof (len_rest l Hp) as Hl.
  set (lk := at_pos _ w l) in E1.
  assert (Hpk : 0 <= pos lk <= len (input lk)) by (unfold lk, at_pos; fields; lia).
  assert (Erk : rest lk = slice_from (rest l) (len (rest l))).
  { unfold lk. rewrite Hall. apply rest_at_pos; lia. }
  assert (Hek : head_rune (rest lk) = eof).
  { apply head_rune_eof. rewrite Erk, len_slice_from; pose proof (len_nonneg (rest l)); lia. }
  rewrite Hall, <- Erk in E3.
  rewrite (lexIdentifier_stop m lk Hpk E3) in E1.
  rewrite Hek in E1. cbn [isSpace isEndOfLine negb orb] in E1.
  change (negb (isSpace eof || isEndOfLine eof)) with true in E1.
  cbv iota in E1.
  eexists. split; [exact E1|]. split; [reflexivity|].
  intros Hs. apply run_loop_halts with (f := LexIdentifier); auto.
  pose proof (len_nonneg (rest l)). lia.
Qed.

(** C5, amended.  Keyword recognition for a completed bareword -- the
    longest run of alphanumeric runes, followed by a space or an
    end-of-line character -- is a static lookup of the exact text of
    the bareword in the table [key] (include, account, end, alias and
    the upper-case P): the token emitted for the bareword has the kind
    found in the table, and the kind [itemIdentifier] when the text is
    not in the table. *)
Theorem C5_keyword_lookup (n : nat) (l : lexer) :
  0 <= start l <= pos l -> pos l <= len (input l) ->
  len (rest l) < Z.of_nat n ->
  let k := run_length isAlphaNumeric (rest l) in
  let word := slice (input l) (start l) (pos l + k) in
  let r := head_rune (slice_from (rest l) k) in
  isSpace r || isEndOfLine r = true ->
  (kind_of word =
   match lookup word key_table with
   | Some t => t
   | None => itemIdentifier
   end) /\
  exists more,
    items (final (lexIdentifier n l)) =
    items l ++ mkItem (kind_of word) (start l) word :: more.
Proof.
  intros Hs Hp Hn k word r Hr. split; [reflexivity|].
  assert (Hp' : 0 <= pos l <= len (input l)) by lia.
  destruct (lexIdentifier_skip n l Hp' Hn) as (m & w & E1 & _ & E3).
  pose proof (len_rest l Hp') as Hl.
  pose proof (run_length_range isAlphaNumeric (rest l)) as Hk.
  fold k in E1, E3, Hk.
  set (lk := at_pos (pos l + k) w l) in E1.
  assert (Hpk : 0 <= pos lk <= len (input lk))
    by (unfold lk, at_pos; fields; lia).
  assert (Erk : rest lk = slice_from (rest l) k)
    by (unfold lk; apply rest_at_pos; lia).
  rewrite <- Erk in E3.
  rewrite E1, (lexIdentifier_stop m lk Hpk E3).
  rewrite Erk. fold r. rewrite Hr. cbn [negb].
  change (slice (input lk) (start lk) (pos lk)) with word.
  set (l3 := set_width _ lk).
  assert (Ei : items l3 = items l) by reflexivity.
  assert (Est : start l3 = start l) by reflexivity.
  assert (Ecur : slice (input l3) (start l3) (pos l3) = word) by reflexivity.
  destruct (String.eqb word "include") eqn:Einc.
  { apply String.eqb_eq in Einc.
    replace (kind_of word) with itemInclude by now rewrite Einc.
    apply ex_snoc, bind_final_items.
    - destruct (scanSpaces_grows (S m) (emit itemInclude l3)) as (more & E).
      exists more. rewrite E. reflexivity.
    - intros _ l4. apply bind_final_items.
      + apply scanStringToEOL_grows.
      + intros ok l5. destruct (negb ok); cbn.
        * eexists; reflexivity.
        * exists []. now rewrite app_nil_r. }
  destruct (String.eqb word "end") eqn:Eend.
  { apply String.eqb_eq in Eend.
    replace (kind_of word) with itemEnd by now rewrite Eend.
    apply ex_snoc, bind_final_items.
    - destruct (scanSpaces_grows (S m) (emit itemEnd l3)) as (more & E).
      exists more. rewrite E. reflexivity.
    - intros _ l4. cbn. exists []. now rewrite app_nil_r. }
  rewrite kind_of_key.
  destruct (iota (key word) >? iota itemKeyword); cbn [final];
    exists []; reflexivity.
Qed.

(** ** The directive [include] *)

Lemma slice_rest (l : lexer) (a b : Z) :
  0 <= pos l -> 0 <= a <= b -> pos l + b <= len (input l) ->
  slice (input l) (pos l + a) (pos l + b) = slice (rest l) a b.
Proof.
  intros H1 H2 H3. unfold rest. now rewrite slice_slice_from by lia.
Qed.

Lemma slice_from_app (a b : string) : slice_from (a +++ b) (len a) = b.
Proof.
  induction a as [|c a IH]; cbn [append].
  - apply slice_from_0.
  - rewrite len_String.
    rewrite <- (slice_from_slice_from _ 1 (len a));
      try (pose proof (len_nonneg a); lia).
    + now rewrite slice_from_String.
    + rewrite len_String, len_app.
      pose proof (len_nonneg a); pose proof (len_nonneg b); lia.
Qed.

Lemma slice_app_l (a b : string) : slice (a +++ b) 0 (len a) = a.
Proof.
  unfold slice, len. rewrite Z.sub_0_r, Nat2Z.id. cbn [Z.to_nat].
  induction a as [|c a IH]; cbn [append String.length substring].
  - apply substring_zero.
  - now rewrite IH.
Qed.

Lemma terminator_not_alnum (r : Z) :
  isSpace r || isEndOfLine r = true -> isAlphaNumeric r = false.
Proof.
  unfold isSpace, isEndOfLine. intros H.
  repeat (apply orb_true_iff in H as [H|H]);
    apply Z.eqb_eq in H; subst r; vm_compute; reflexivity.
Qed.

Lemma eqb_shift (a k : Z) : (a =? a + k) = (k =? 0).
Proof. destruct (k =? 0) eqn:E; lia. Qed.

(** The rest of the line after [include] and the spaces: the file
    name, or the error when it is missing. *)
Lemma filename_line (n : nat) (l : lexer) :
  0 <= start l -> start l = pos l -> pos l <= len (input l) ->
  len (rest l) < Z.of_nat n ->
  let fn := run_length inLine (rest l) in
  exists l',
    bind (scanStringToEOL n l) (fun ok l5 =>
      if negb ok then
        Ret None (snd (errorf "missing filename after 'include'" l5))
      else Ret (Some LexJournal) l5) =
    Ret (if fn =? 0 then None else Some LexJournal) l' /\
    items l' =
    items l ++
    [if fn =? 0
     then mkItem itemError (pos l) "missing filename after 'include'"
     else mkItem itemString (pos l) (slice (rest l) 0 fn)].
Proof.
  intros H0 Hs Hp Hn fn.
  rewrite scanStringToEOL_spec by lia. fold fn.
  rewrite Hs, eqb_shift.
  pose proof (run_length_range inLine (rest l)) as Hk. fold fn in Hk.
  rewrite len_rest in Hk by lia.
  destruct (fn =? 0) eqn:E; cbn [bind negb].
  - eexists. split; [reflexivity|].
    unfold errorf, at_pos; fields. now rewrite Hs.
  - eexists. split; [reflexivity|].
    unfold emit, at_pos; fields. rewrite Hs.
    rewrite <- slice_rest by lia. now rewrite Z.add_0_r.
Qed.

(** The line after the keyword [include]. *)
Lemma include_line (n : nat) (l : lexer) :
  0 <= start l -> start l = pos l -> pos l <= len (input l) ->
  len (rest l) < Z.of_nat n ->
  let sp := run_length isSpace (rest l) in
  let fn := run_length inLine (slice_from (rest l) sp) in
  exists l',
    bind (scanSpaces n l) (fun _ l4 =>
    bind (scanStringToEOL n l4) (fun ok l5 =>
      if negb ok then
        Ret None (snd (errorf "missing filename after 'include'" l5))
      else Ret (Some LexJournal) l5)) =
    Ret (if fn =? 0 then None else Some LexJournal) l' /\
    items l' =
    items l ++
    (if sp =? 0 then []
     else [mkItem itemSpace (pos l) (slice (rest l) 0 sp)]) ++
    [if fn =? 0
     then mkItem itemError (pos l + sp) "missing filename after 'include'"
     else mkItem itemString (pos l + sp) (slice (rest l) sp (sp + fn))].
Proof.
  intros H0 Hs Hp Hn sp fn.
  rewrite scanSpaces_spec by lia. fold sp.
  rewrite Hs, eqb_shift.
  pose proof (run_length_range isSpace (rest l)) as Hk. fold sp in Hk.
  pose proof (len_rest l ltac:(lia)) as Hl. rewrite Hl in Hk.
  pose proof (run_length_range inLine (slice_from (rest l) sp)) as Hf.
  fold fn in Hf. rewrite len_slice_from, Hl in Hf by lia.
  set (w := head_width (slice_from (rest l) sp)).
  assert (Er : rest (at_pos (pos l + sp) w l) = slice_from (rest l) sp)
    by (apply rest_at_pos; lia).
  assert (Hlen : len (rest (at_pos (pos l + sp) w l)) < Z.of_nat n)
    by (rewrite Er, len_slice_from; lia).
  destruct (sp =? 0) eqn:E; cbn [bind].
  - destruct (filename_line n (at_pos (pos l + sp) w l))
      as (l' & E1 & E2);
      [unfold at_pos; fields; lia | unfold at_pos; fields; lia
      |unfold at_pos; fields; lia | exact Hlen |].
    rewrite Er in E1, E2. fold fn in E1, E2.
    exists l'. split; [exact E1|]. rewrite E2.
    unfold at_pos; fields. cbn [app].
    rewrite slice_slice_from by lia.
    replace (sp + 0) with sp by lia. reflexivity.
  - destruct (filename_line n (emit itemSpace (at_pos (pos l + sp) w l)))
      as (l' & E1 & E2);
      [unfold at_pos; fields; lia | unfold at_pos; fields; lia
      |unfold at_pos; fields; lia | exact Hlen |].
    change (rest (emit itemSpace (at_pos (pos l + sp) w l)))
      with (rest (at_pos (pos l + sp) w l)) in E1, E2.
    rewrite Er in E1, E2. fold fn in E1, E2.
    exists l'. split; [exact E1|]. rewrite E2.
    unfold at_pos; fields. rewrite Hs, <- app_assoc. cbn [app].
    rewrite slice_slice_from by lia.
    replace (sp + 0) with sp by lia.
    rewrite <- (slice_rest l 0 sp) by lia. now rewrite Z.add_0_r.
Qed.

(** C9, amended.  For the bareword "include", followed by spaces or by
    an end-of-line character: the scanner emits the keyword token
    [itemInclude], then the spaces as an [itemSpace], if there are any,
    then the rest of the line as an [itemString]; when nothing remains
    on the line after the spaces it sends instead the error
    "missing filename after 'include'" and the scan halts. *)
Theorem C9_include (n : nat) (l : lexer) (tail : string) :
  0 <= start l -> start l = pos l -> pos l <= len (input l) ->
  rest l = "include" +++ tail ->
  isSpace (head_rune tail) || isEndOfLine (head_rune tail) = true ->
  len (rest l) < Z.of_nat n ->
  let p := pos l in
  let sp := run_length isSpace tail in
  let fn := run_length inLine (slice_from tail sp) in
  let keyword := mkItem itemInclude p "include" in
  let spaces :=
    if sp =? 0 then [] else [mkItem itemSpace (p + 7) (slice tail 0 sp)] in
  let missing :=
    mkItem itemError (p + 7 + sp) "missing filename after 'include'" in
  let filename := mkItem itemString (p + 7 + sp) (slice tail sp (sp + fn)) in
  exists l',
    lexIdentifier n l =
    Ret (if fn =? 0 then None else Some LexJournal) l' /\
    items l' =
    items l ++ keyword :: spaces ++ [if fn =? 0 then missing else filename] /\
    (fn = 0 -> state l = Some LexIdentifier ->
     run_loop n l = Ret tt (close (set_state None l'))).
Proof.
  intros H0 Hs Hp Hrest Hterm Hn p sp fn keyword spaces missing filename.
  assert (Hp' : 0 <= pos l <= len (input l)) by lia.
  pose proof (len_rest l Hp') as Hl.
  assert (Hlen : len (rest l) = 7 + len tail)
    by (rewrite Hrest, len_app; reflexivity).
  pose proof (len_nonneg tail) as Htl.
  assert (Hk : run_length isAlphaNumeric (rest l) = 7).
  { rewrite Hrest. cbn [append].
    repeat (rewrite run_length_ascii by (vm_compute; reflexivity);
            match goal with
            | |- context [isAlphaNumeric (byte_val ?c)] =>
                change (isAlphaNumeric (byte_val c)) with true
            end; cbv iota).
    rewrite run_length_stop; [reflexivity|].
    now apply terminator_not_alnum. }
  destruct (lexIdentifier_skip n l Hp' Hn) as (m & w & E1 & E2 & E3).
  rewrite Hk in E1, E2, E3.
  assert (Etail : slice_from (rest l) 7 = tail)
    by (rewrite Hrest; apply (slice_from_app "include" tail)).
  rewrite Etail in E3.
  set (lk := at_pos (pos l + 7) w l) in E1.
  assert (Hpk : 0 <= pos lk <= len (input lk))
    by (unfold lk, at_pos; fields; lia).
  assert (Erk : rest lk = tail)
    by (unfold lk; rewrite rest_at_pos by lia; exact Etail).
  rewrite <- Erk in E3.
  rewrite (lexIdentifier_stop m lk Hpk E3) in E1.
  rewrite Erk, Hterm in E1. cbn [negb] in E1.
  assert (Eword : slice (input lk) (start lk) (pos lk) = "include").
  { unfold lk, at_pos; fields. rewrite Hs.
    rewrite <- (Z.add_0_r (pos l)) at 1.
    rewrite slice_rest by lia. rewrite Hrest.
    apply (slice_app_l "include" tail). }
  rewrite Eword in E1. cbn [String.eqb Ascii.eqb Bool.eqb] in E1.
  change (String.eqb "include" "include") with true in E1. cbv iota in E1.
  set (l0 := emit itemInclude (set_width (head_width tail) lk)) in E1.
  assert (Er0 : rest l0 = tail) by exact Erk.
  destruct (include_line (S m) l0) as (l' & E4 & E5);
    [unfold l0, lk, at_pos; fields; lia | unfold l0, lk, at_pos; fields; lia
    |unfold l0, lk, at_pos; fields; lia | rewrite Er0; lia |].
  rewrite Er0 in E4, E5. fold sp fn in E4, E5.
  exists l'. split; [now rewrite E1|]. split.
  - rewrite E5. unfold l0, lk, at_pos; fields.
    rewrite Hs, <- app_assoc. cbn [app].
    replace (slice (input l) (pos l) (pos l + 7)) with "include"; [reflexivity|].
    symmetry. rewrite <- (Z.add_0_r (pos l)) at 1.
    rewrite slice_rest by lia. rewrite Hrest.
    apply (slice_app_l "include" tail).
  - intros Hf Hst. apply run_loop_halts with (f := LexIdentifier); auto; [|lia].
    cbn [call]. rewrite E1, E4, Hf. reflexivity.
Qed.

(** ** The date of a transaction *)

Lemma space_not_date (r : Z) :
  isSpace r = true ->
  IsDigit r || (r =? rn ".") || (r =? rn "-") || (r =? rn "/") = false /\
  isEndOfLine r = false.
Proof.
  unfold isSpace. intros H.
  apply orb_true_iff in H as [H|H]; apply Z.eqb_eq in H; subst r;
    split; vm_compute; reflexivity.
Qed.

Lemma eol_not_date (r : Z) :
  isEndOfLine r = true ->
  IsDigit r || (r =? rn ".") || (r =? rn "-") || (r =? rn "/") = false /\
  isSpace r = false /\ (r =? eof) = false.
Proof.
  unfold isEndOfLine. intros H.
  apply orb_true_iff in H as [H|H]; apply Z.eqb_eq in H; subst r;
    repeat split; vm_compute; reflexivity.
Qed.

Lemma next_at (l : lexer) :
  0 <= pos l <= len (input l) ->
  next l = (head_rune (rest l),
            at_pos (pos l + head_width (rest l)) (head_width (rest l)) l).
Proof.
  intros H. rewrite next_spec by exact H. reflexivity.
Qed.

Lemma halts_intro (n : nat) (f : stateFn) (l : lexer) (msg : string)
      (w : Z) :
  (0 < n)%nat ->
  call f n l = Ret None (snd (errorf msg (set_width w l))) ->
  halts_with n f l msg.
Proof.
  intros Hn E. eexists. split; [exact E|]. split; [reflexivity|].
  intros Hs. now apply run_loop_halts with (f := f).
Qed.

(** The dates of the tests of the lexer. *)
Lemma date_examples :
  tokens (scan 20 "2016/09/09") =
  [(itemError, "unexpected end-of-file")] /\
  tokens (scan 20 ("2016/09/09" +++ LF)) =
  [(itemError, "unexpected end-of-line")] /\
  tokens (scan 20 ("2016/09eee" +++ LF)) =
  [(itemError,
    "invalid character in transaction date specification: " +++
    fmt_U (rn "e"))] /\
  firstn 2 (tokens (scan 20 "2016/09/09 Payee")) =
  [(itemDate, "2016/09/09"); (itemSpace, " ")].
Proof. repeat split; vm_compute; reflexivity. Qed.

(** C4, amended.  In the state of the date of a transaction, where the
    text accumulated so far is [current l]: a digit in the sense of
    [unicode.IsDigit] -- an ASCII digit or a decimal digit of the table
    [unicode.Digit] -- or one of the separators
    '.', '-', '/' is absorbed, that is added to the accumulated text
    without any token, and the state is kept; on a space the
    accumulated text is emitted as an [itemDate], the run of spaces as
    an [itemSpace], and the next state is that of the rest of the
    header; at the end of the input, at an end-of-line character and on
    any other character the errors "unexpected end-of-file",
    "unexpected end-of-line" and "invalid character in transaction date
    specification: " followed by the rune are sent, and in each of
    these cases the scan halts. *)
Theorem C4_transaction_date (n : nat) (l : lexer) :
  0 <= start l <= pos l -> pos l <= len (input l) ->
  len (rest l) < Z.of_nat n ->
  let r := head_rune (rest l) in
  let w := head_width (rest l) in
  let k := run_length isSpace (rest l) in
  let date_rune :=
    IsDigit r || (r =? rn ".") || (r =? rn "-") || (r =? rn "/") in
  (date_rune = true ->
   lexPlainXactDate n l =
   Ret (Some LexPlainXactDate) (at_pos (pos l + w) w l) /\
   current (at_pos (pos l + w) w l) = current l +++ slice (rest l) 0 w) /\
  (isSpace r = true ->
   exists l',
     lexPlainXactDate n l = Ret (Some LexPlainXactRest) l' /\
     items l' =
     items l ++ [mkItem itemDate (start l) (current l);
                 mkItem itemSpace (pos l) (slice (rest l) 0 k)] /\
     start l' = pos l + k /\ pos l' = pos l + k) /\
  (r = eof ->
   halts_with n LexPlainXactDate l "unexpected end-of-file") /\
  (isEndOfLine r = true ->
   halts_with n LexPlainXactDate l "unexpected end-of-line") /\
  (date_rune = false -> isSpace r = false -> r <> eof ->
   isEndOfLine r = false ->
   halts_with n LexPlainXactDate l
     ("invalid character in transaction date specification: " +++ fmt_U r)).
Proof.
  intros Hs Hp Hn r w k date_rune.
  assert (Hp' : 0 <= pos l <= len (input l)) by lia.
  pose proof (len_nonneg (rest l)) as Hl0.
  assert (Hn0 : (0 < n)%nat) by lia.
  assert (E : lexPlainXactDate n l =
    let l1 := set_width w l in
    if date_rune then
      Ret (Some LexPlainXactDate) (snd (next l1))
    else if isSpace r then
      bind (scanSpaces n (emit itemDate l1)) (fun _ l2 =>
        Ret (Some LexPlainXactRest) l2)
    else if r =? eof then
      Ret None (snd (errorf "unexpected end-of-file" l1))
    else if isEndOfLine r then
      Ret None (snd (errorf "unexpected end-of-line" l1))
    else
      Ret None
        (snd (errorf ("invalid character in transaction date specification: "
                      +++ fmt_U r) l1))).
  { unfold lexPlainXactDate. rewrite peek_spec by exact Hp'. reflexivity. }
  cbv zeta in E.
  split; [|split; [|split; [|split]]].
  - intros Hd. split.
    + rewrite E, Hd, next_set_width, next_at by exact Hp'. reflexivity.
    + pose proof (head_width_range (rest l)) as Hw. fold w in Hw.
      rewrite len_rest in Hw by exact Hp'.
      unfold current, at_pos; proj.
      rewrite <- (slice_rest l 0 w) by lia. rewrite Z.add_0_r.
      symmetry. apply slice_app; lia.
  - intros Hsp. destruct (space_not_date r Hsp) as [Hd _].
    fold date_rune in Hd. rewrite E, Hd, Hsp. clear E.
    pose proof (run_length_range isSpace (rest l)) as Hk. fold k in Hk.
    rewrite len_rest in Hk by exact Hp'.
    assert (Hk1 : 1 <= k).
    { unfold k. rewrite run_length_unfold by (now apply isSpace_nonempty).
      fold r. rewrite Hsp.
      pose proof (head_width_pos _ (isSpace_nonempty _ Hsp)).
      pose proof (run_length_range isSpace
                    (slice_from (rest l) (head_width (rest l)))). lia. }
    rewrite scanSpaces_spec;
      [|proj; lia|proj; lia|exact Hn].
    change (rest (emit itemDate (set_width w l))) with (rest l). fold k.
    change (start (emit itemDate (set_width w l))) with (pos l).
    change (pos (emit itemDate (set_width w l))) with (pos l).
    rewrite eqb_shift.
    destruct (k =? 0) eqn:Ek; [lia|]. cbn [bind].
    eexists. split; [reflexivity|].
    unfold at_pos, current; proj.
    rewrite <- app_assoc. cbn [app].
    rewrite <- (slice_rest l 0 k) by lia. rewrite Z.add_0_r.
    repeat split; reflexivity.
  - intros He. apply halts_intro with (w := w); [exact Hn0|].
    assert (Hd : date_rune = false)
      by (unfold date_rune; rewrite He; vm_compute; reflexivity).
    cbn [call]. rewrite E, Hd, He. reflexivity.
  - intros He. destruct (eol_not_date r He) as (Hd & Hsp & Hf).
    apply halts_intro with (w := w); [exact Hn0|].
    cbn [call]. fold date_rune in Hd. rewrite E, Hd, Hsp, Hf, He. reflexivity.
  - intros Hd Hsp Hf He.
    apply halts_intro with (w := w); [exact Hn0|].
    apply Z.eqb_neq in Hf.
    cbn [call]. rewrite E, Hd, Hsp, Hf, He. reflexivity.
Qed.

(** ** The block of the postings *)

Lemma space_not_eol (r : Z) : isSpace r = true -> isEndOfLine r = false.
Proof.
  unfold isSpace. intros H.
  apply orb_true_iff in H as [H|H]; apply Z.eqb_eq in H; subst r;
    reflexivity.
Qed.

(** C8, amended.  In the loop of the block of the postings with the
    flag [expectIndent] set, as it is after an [itemEOL]: when the next
    rune is a space, the whole run of spaces is emitted as an
    [itemSpace] and the state is entered again; when it is an
    end-of-line character, it is emitted as an [itemEOL] and the loop
    goes on with the flag set; otherwise the rune is pushed back -- the
    position and the items are those before the read -- and the
    top-level state is returned. *)
Theorem C8_postings_expect_indent (n : nat) (l : lexer) :
  0 <= start l -> start l = pos l -> pos l <= len (input l) ->
  len (rest l) < Z.of_nat n ->
  let r := head_rune (rest l) in
  let w := head_width (rest l) in
  let k := run_length isSpace (rest l) in
  (isSpace r = true ->
   exists l',
     lexPostings_loop n true l = Ret (Some LexPostings) l' /\
     items l' = items l ++ [mkItem itemSpace (pos l) (slice (rest l) 0 k)] /\
     start l' = pos l + k /\ pos l' = pos l + k) /\
  (isEndOfLine r = true ->
   exists l1,
     lexPostings_loop n true l = lexPostings_loop (pred n) true l1 /\
     items l1 = items l ++ [mkItem itemEOL (pos l) (slice (rest l) 0 w)] /\
     start l1 = pos l + w /\ pos l1 = pos l + w) /\
  (isSpace r = false -> isEndOfLine r = false ->
   lexPostings_loop n true l = Ret (Some LexJournal) (set_width w l)).
Proof.
  intros Hs0 Hs Hp Hn r w k.
  assert (Hp' : 0 <= pos l <= len (input l)) by lia.
  pose proof (len_nonneg (rest l)) as Hl0.
  pose proof (len_rest l Hp') as Hl.
  pose proof (head_width_range (rest l)) as Hw. fold w in Hw.
  destruct n as [|n]; [lia|].
  assert (E : lexPostings_loop (S n) true l =
    let l1 := at_pos (pos l + w) w l in
    if isEndOfLine r then lexPostings_loop n true (emit itemEOL l1)
    else if isSpace r then
      bind (scanSpaces (S n) l1) (fun _ l2 => Ret (Some LexPostings) l2)
    else Ret (Some LexJournal) (backup l1)).
  { cbn [lexPostings_loop]. rewrite next_at by exact Hp'. reflexivity. }
  cbv zeta in E.
  repeat split.
  - intros Hsp. pose proof (space_not_eol r Hsp) as He.
    rewrite E, He, Hsp. clear E.
    pose proof (isSpace_nonempty _ Hsp) as Hne.
    pose proof (head_width_pos _ Hne) as Hw1. fold w in Hw1.
    assert (Er : rest (at_pos (pos l + w) w l) = slice_from (rest l) w)
      by (apply rest_at_pos; lia).
    assert (Ek : k = w + run_length isSpace (slice_from (rest l) w)).
    { unfold k. rewrite run_length_unfold by exact Hne.
      fold r. now rewrite Hsp. }
    pose proof (run_length_range isSpace (slice_from (rest l) w)) as Hk.
    rewrite len_slice_from in Hk by lia.
    rewrite scanSpaces_spec;
      [|unfold at_pos; proj; lia|unfold at_pos; proj; lia
       |rewrite Er, len_slice_from; lia].
    rewrite Er.
    set (k1 := run_length isSpace (slice_from (rest l) w)) in *.
    change (start (at_pos (pos l + w) w l)) with (start l).
    change (pos (at_pos (pos l + w) w l)) with (pos l + w).
    destruct (start l =? pos l + w + k1) eqn:Ec; [lia|]. cbn [bind].
    eexists. split; [reflexivity|].
    unfold at_pos; proj. rewrite Hs.
    rewrite <- (slice_rest l 0 k) by lia. rewrite Z.add_0_r.
    replace (pos l + w + k1) with (pos l + k) by lia.
    repeat split; reflexivity.
  - intros He. rewrite E, He. clear E. cbn [pred].
    eexists. split; [reflexivity|].
    unfold at_pos; proj. rewrite Hs.
    rewrite <- (slice_rest l 0 w) by lia. rewrite Z.add_0_r.
    repeat split; reflexivity.
  - intros Hsp He. rewrite E, He, Hsp. f_equal. lexer_eq l.
Qed.

(** ** Where the scanner departs from its tests *)

Lemma run_loop_step (n : nat) (f : stateFn) (s : option stateFn)
      (l l1 : lexer) :
  state l = Some f -> call f (S n) l = Ret s l1 ->
  run_loop (S n) l = run_loop n (set_state s l1).
Proof. intros Hs E. cbn [run_loop]. now rewrite Hs, E. Qed.

Lemma rest_at_end (l : lexer) :
  0 <= pos l -> pos l = len (input l) ->
  head_rune (rest l) = eof /\ head_width (rest l) = 0.
Proof.
  intros H0 H.
  assert (E : len (rest l) = 0) by (rewrite len_rest; lia).
  split; [now apply head_rune_eof|].
  unfold head_width. now rewrite E.
Qed.

(** At the end of the input the top-level state emits [itemEOF] and is
    entered again: the token is repeated for as long as the producer is
    run, and the channel is never closed. *)
Lemma run_loop_eof (n : nat) :
  forall l,
    0 <= pos l -> pos l = len (input l) -> start l = pos l ->
    state l = Some LexJournal ->
    exists l',
      run_loop n l = Timeout l' /\
      items l' = items l ++ repeat (mkItem itemEOF (pos l) "") n /\
      closed l' = closed l.
Proof.
  induction n as [|n IH]; intros l H0 Hp Hs Hst.
  - cbn [run_loop]. rewrite Hst. exists l. cbn [repeat].
    now rewrite app_nil_r.
  - destruct (rest_at_end l H0 Hp) as [Er Ew].
    assert (E : call LexJournal (S n) l =
                Ret (Some LexJournal) (emit itemEOF (at_pos (pos l) 0 l))).
    { cbn [call]. unfold lexJournal. rewrite next_at by lia.
      rewrite Er, Ew, Z.add_0_r. reflexivity. }
    rewrite (run_loop_step _ _ _ _ _ Hst E).
    destruct (IH (set_state (Some LexJournal)
                            (emit itemEOF (at_pos (pos l) 0 l))))
      as (l' & E1 & E2 & E3); try (unfold at_pos; proj; auto; lia).
    exists l'. split; [exact E1|]. split; [|exact E3].
    rewrite E2. unfold at_pos; proj. rewrite Hs, slice_empty.
    rewrite <- app_assoc. reflexivity.
Qed.

(** On every input, [run] returns -- and closes the channel -- only
    after an error: a scan without error never terminates. *)
Lemma run_loop_returns (inp : string) (n : nat) :
  forall l, Inv inp l -> state l <> None ->
    returned (run_loop n l) = true -> Failed inp (final (run_loop n l)).
Proof.
  induction n as [|n IH]; intros l H Hs Hr.
  - cbn [run_loop] in Hr. destruct (state l); [discriminate | congruence].
  - cbn [run_loop] in *. destruct (state l) as [f|]; [|congruence].
    pose proof (call_Post inp f (S n) l H) as HP.
    destruct (call f (S n) l) as [[s|] l1|l1]; cbn [bind] in *.
    + apply IH; [exact HP | discriminate | exact Hr].
    + rewrite run_loop_nil by reflexivity. exact HP.
    + discriminate.
Qed.

Lemma halts_only_on_error (inp : string) (n : nat) :
  returned (scan n inp) = true ->
  exists its p msg,
    items (final (scan n inp)) = its ++ [mkItem itemError p msg].
Proof.
  intros Hr. unfold scan, run in *.
  destruct (run_loop_returns inp n (set_state (Some LexJournal) (lex "" inp)))
    as (l0 & msg & _ & E & _); [apply lex_Inv | discriminate | exact Hr |].
  now exists (items l0), (start l0), msg.
Qed.

(** C1 fails on the empty input: with any budget [n] the producer is
    still running, it has sent [n] tokens [itemEOF], and it has not
    closed the channel. *)
Theorem C1_end_of_input_is_emitted_again (n : nat) :
  returned (scan n "") = false /\
  items (final (scan n "")) = repeat (mkItem itemEOF 0 "") n /\
  closed (final (scan n "")) = false.
Proof.
  unfold scan, run.
  destruct (run_loop_eof n (set_state (Some LexJournal) (lex "" ""))
                        ltac:(cbn; lia) eq_refl eq_refl eq_refl)
    as (l' & E1 & E2 & E3).
  rewrite E1. cbn [returned final]. auto.
Qed.

(** At the end of the input, with [expectIndent] unset, the loop of
    [lexPostings] reads [eof], matches no case and starts again: it
    neither returns nor moves nor emits. *)
Lemma lexPostings_spins (n : nat) :
  forall l,
    0 <= pos l -> pos l = len (input l) ->
    exists w, lexPostings_loop n false l = Timeout (set_width w l).
Proof.
  induction n as [|n IH]; intros l H0 Hp.
  - exists (width l). cbn [lexPostings_loop]. f_equal. now destruct l.
  - destruct (rest_at_end l H0 Hp) as [Er Ew].
    cbn [lexPostings_loop]. rewrite next_at by lia.
    rewrite Er, Ew, Z.add_0_r.
    change (isEndOfLine eof) with false.
    change (eof =? rn "*") with false.
    change (eof =? rn "!") with false.
    change (IsLetter eof) with false. cbv iota.
    destruct (IH (at_pos (pos l) 0 l)) as (w & E); [exact H0|exact Hp|].
    exists w. rewrite E. reflexivity.
Qed.

(** One iteration of the loop of [run], on a concrete scanner. *)
Ltac run_step :=
  match goal with
  | |- context [run_loop (S ?n) ?l] =>
      let st := eval vm_compute in (state l) in
      match st with
      | Some ?f =>
          let r := eval vm_compute in (call f (S n) l) in
          match r with
          | Ret ?s ?l1 =>
              let E := fresh "E" in
              assert (E : call f (S n) l = Ret s l1)
                by (vm_compute; reflexivity);
              rewrite (run_loop_step n f s l l1 eq_refl E); clear E
          end
      end
  end.

Lemma scan_tilde_space (k : nat) :
  exists l,
    scan (3 + k) "~ " = Timeout l /\
    items l = [mkItem itemTilde 0 "~"; mkItem itemSpace 1 " "] /\
    pos l = len "~ " /\ closed l = false.
Proof.
  unfold scan, run. cbn [Nat.add].
  run_step. run_step.
  match goal with
  | |- context [run_loop (S k) ?l] => set (l2 := l)
  end.
  destruct (lexPostings_spins (S k) l2) as (w & E);
    [vm_compute; discriminate | reflexivity |].
  cbn [run_loop]. change (state l2) with (Some LexPostings).
  cbn [call]. unfold lexPostings. rewrite E. cbn [bind].
  eexists. split; [reflexivity|]. repeat split.
Qed.

(** C3 fails on the input "~ ": with any budget the producer is still
    running, and with a budget of 3 or more it is in the loop of
    [lexPostings] at the end of the input, having emitted the tilde and
    the space and nothing else; it emits no [itemEOF] and never
    halts. *)
Theorem C3_postings_loop_never_ends (n k : nat) :
  returned (scan n "~ ") = false /\
  exists l,
    scan (3 + k) "~ " = Timeout l /\
    items l = [mkItem itemTilde 0 "~"; mkItem itemSpace 1 " "] /\
    pos l = len "~ " /\ closed l = false.
Proof.
  split; [|apply scan_tilde_space].
  destruct n as [|[|[|n]]];
    [vm_compute; reflexivity | vm_compute; reflexivity
    |vm_compute; reflexivity |].
  destruct (scan_tilde_space n) as (l & E & _).
  cbn [Nat.add] in E. now rewrite E.
Qed.

(** C6 fails on the input "account Account": with any budget of 12 or
    more the scan halts after the keyword, the space and the error
    "bad character" for the second bareword, which runs up to the end
    of the input; neither an account name nor [itemEOF] is emitted. *)
Theorem C6_account_Account (k : nat) :
  returned (scan (12 + k) "account Account") = true /\
  items (final (scan (12 + k) "account Account")) =
  [mkItem itemAccountKeyword 0 "account";
   mkItem itemSpace 7 " ";
   mkItem itemError 8 ("bad character " +++ fmt_U eof)].
Proof. split; vm_compute; reflexivity. Qed.

(** C7 fails on a header without a note that ends with a line feed: the
    string token of "2016/09/09 Payee" followed by a posting line
    contains the line feed, and on "~" followed by a line feed, where
    the line ends at once, a string token is emitted for the line
    feed. *)
Theorem C7_string_token_takes_the_line_feed :
  firstn 3 (tokens (scan 40 ("2016/09/09 Payee" +++ LF +++
                             " Account  - 20.00 CAD"))) =
  [(itemDate, "2016/09/09"); (itemSpace, " ");
   (itemString, "Payee" +++ LF)] /\
  tokens (scan 5 ("~" +++ LF)) = [(itemTilde, "~"); (itemString, LF)].
Proof. split; vm_compute; reflexivity. Qed.

(** ** The error token ends the stream *)

Lemma tiled_no_error (inp : string) (its : list item) (s : Z) :
  tiled inp its s -> Forall (fun it => typ it <> itemError) its.
Proof.
  induction 1 as [|its s t p Ht IH Hp Hne He]; [constructor|].
  apply Forall_app. split; [exact IH|]. repeat constructor. exact Hne.
Qed.

(** [run] is interrupted with the invariant, or has returned after an
    error. *)
Lemma run_loop_shape (inp : string) (n : nat) :
  forall l, Inv inp l -> state l <> None ->
    match run_loop n l with
    | Ret _ l' => Failed inp l' /\ closed l' = true
    | Timeout l' => Inv inp l'
    end.
Proof.
  induction n as [|n IH]; intros l H Hs.
  - cbn [run_loop]. destruct (state l); [exact H | congruence].
  - cbn [run_loop]. destruct (state l) as [f|]; [|congruence].
    pose proof (call_Post inp f (S n) l H) as HP.
    destruct (call f (S n) l) as [[s|] l1|l1]; cbn [bind].
    + apply IH; [exact HP | discriminate].
    + rewrite run_loop_nil by reflexivity. split; [exact HP | reflexivity].
    + exact HP.
Qed.

(** The error token is terminal: an [itemError] is the last token of
    the stream; the producer has returned -- and closed the channel --
    exactly when the stream ends with an [itemError]. *)
Theorem error_token_is_terminal (inp : string) (n : nat) :
  let m := scan n inp in
  (forall pre t post,
      items (final m) = pre ++ t :: post -> typ t = itemError ->
      post = []) /\
  (returned m = true <->
   exists pre p msg, items (final m) = pre ++ [mkItem itemError p msg]) /\
  (returned m = true -> closed (final m) = true).
Proof.
  intros m.
  assert (Hshape : match m with
                   | Ret _ l' => Failed inp l' /\ closed l' = true
                   | Timeout l' => Inv inp l'
                   end).
  { apply run_loop_shape; [apply Inv_set_state, lex_Inv | discriminate]. }
  split; [|split].
  - intros pre t post E Ht.
    now destruct (scan_stream inp n pre post t E) as (_ & Hlast & _); auto.
  - split.
    + intros Hr. destruct m as [a l'|l']; [|discriminate].
      destruct Hshape as [(l0 & msg & _ & E & _) _].
      now exists (items l0), (start l0), msg.
    + intros (pre & p & msg & E).
      destruct m as [a l'|l']; [reflexivity|]. exfalso.
      destruct Hshape as (_ & Ht & _). cbn [final] in E.
      apply tiled_no_error in Ht. rewrite E in Ht.
      apply Forall_app in Ht as [_ Ht]. inversion Ht as [|x xs Hx _]; subst.
      now apply Hx.
  - intros Hr. destruct m as [a l'|l']; [|discriminate]. apply Hshape.
Qed.

(** ** The scanning functions return *)

Lemma advances_refl (l : lexer) :
  0 <= pos l <= len (input l) -> advances l l.
Proof. unfold advances. intros H. split; [reflexivity | lia]. Qed.

Lemma advances_trans (l l1 l2 : lexer) :
  advances l l1 -> advances l1 l2 -> advances l l2.
Proof.
  unfold advances. intros (E1 & H1) (E2 & H2). rewrite E1 in *.
  split; [congruence | lia].
Qed.

Lemma advances_rest (l l' : lexer) :
  0 <= pos l -> advances l l' ->
  0 <= pos l' <= len (input l') /\ len (rest l') <= len (rest l).
Proof.
  intros H0 (E & H). rewrite E.
  unfold rest. rewrite E, !len_slice_from by lia. lia.
Qed.

Lemma Returns_weaken {A : Type} (l l1 : lexer) (m : outcome A) :
  advances l l1 -> Returns l1 m -> Returns l m.
Proof.
  intros H. destruct m as [a l2|l2]; cbn; [|auto].
  now apply advances_trans.
Qed.

Lemma Returns_bind {A B : Type} (l : lexer) (m : outcome A)
      (k : A -> lexer -> outcome B) :
  Returns l m ->
  (forall a l1, advances l l1 -> Returns l1 (k a l1)) ->
  Returns l (bind m k).
Proof.
  destruct m as [a l1|l1]; cbn [bind Returns]; [|contradiction].
  intros H Hk. apply Returns_weaken with (l1 := l1); auto.
Qed.

Lemma advances_next (l : lexer) :
  0 <= pos l <= len (input l) -> advances l (snd (next l)).
Proof.
  intros H. rewrite next_spec by exact H.
  pose proof (head_width_range (rest l)) as Hw.
  rewrite len_rest in Hw by exact H.
  unfold advances; proj. split; [reflexivity | lia].
Qed.

Lemma advances_emit (t : itemType) (l : lexer) :
  0 <= pos l <= len (input l) -> advances l (emit t l).
Proof. intros H. unfold advances; proj. split; [reflexivity | lia]. Qed.

Lemma advances_emitNonEmpty (t : itemType) (l : lexer) :
  0 <= pos l <= len (input l) -> advances l (emitNonEmpty t l).
Proof.
  intros H. unfold emitNonEmpty. destruct (String.eqb _ _).
  - now apply advances_refl.
  - now apply advances_emit.
Qed.

Lemma advances_set_width (w : Z) (l : lexer) :
  0 <= pos l <= len (input l) -> advances l (set_width w l).
Proof. intros H. unfold advances; proj. split; [reflexivity | lia]. Qed.

Lemma advances_at_pos (l : lexer) (k w : Z) :
  0 <= k -> pos l + k <= len (input l) -> advances l (at_pos (pos l + k) w l).
Proof.
  intros H1 H2. unfold advances, at_pos; proj. split; [reflexivity | lia].
Qed.

Lemma not_eof_nonempty (s : string) :
  (head_rune s =? eof) = false -> 1 <= len s /\ 1 <= head_width s.
Proof.
  intros H. pose proof (len_nonneg s).
  assert (1 <= len s).
  { destruct (Z.eq_dec (len s) 0) as [E|E]; [|lia].
    apply head_rune_eof in E. rewrite E in H. discriminate. }
  split; [assumption | now apply head_width_pos].
Qed.

Lemma spaceRun_returns (n : nat) (l : lexer) :
  0 <= pos l <= len (input l) -> len (rest l) < Z.of_nat n ->
  Returns l (spaceRun n l).
Proof.
  intros Hp Hn. rewrite spaceRun_spec by assumption. cbn [Returns].
  pose proof (run_length_range isSpace (rest l)) as Hk.
  rewrite len_rest in Hk by exact Hp. apply advances_at_pos; lia.
Qed.

Lemma scanSpaces_returns (n : nat) (l : lexer) :
  0 <= pos l <= len (input l) -> len (rest l) < Z.of_nat n ->
  Returns l (scanSpaces n l).
Proof.
  intros Hp Hn. unfold scanSpaces.
  apply Returns_bind; [now apply spaceRun_returns|].
  intros _ l1 H1. destruct (advances_rest l l1 ltac:(lia) H1) as [Hp1 _].
  destruct (String.eqb _ _); cbn [Returns].
  - now apply advances_refl.
  - now apply advances_emit.
Qed.

Lemma stringToEOL_returns (n : nat) (l : lexer) :
  0 <= pos l <= len (input l) -> len (rest l) < Z.of_nat n ->
  Returns l (stringToEOL n l).
Proof.
  intros Hp Hn. rewrite stringToEOL_spec by assumption. cbn [Returns].
  pose proof (run_length_range inLine (rest l)) as Hk.
  rewrite len_rest in Hk by exact Hp. apply advances_at_pos; lia.
Qed.

Lemma scanStringToEOL_returns (n : nat) (l : lexer) :
  0 <= pos l <= len (input l) -> len (rest l) < Z.of_nat n ->
  Returns l (scanStringToEOL n l).
Proof.
  intros Hp Hn. unfold scanStringToEOL.
  apply Returns_bind; [now apply stringToEOL_returns|].
  intros _ l1 H1. destruct (advances_rest l l1 ltac:(lia) H1) as [Hp1 _].
  destruct (String.eqb _ _); cbn [Returns].
  - now apply advances_refl.
  - now apply advances_emit.
Qed.

Lemma stringUntil_returns (u : Z) (n : nat) :
  forall l,
    0 <= pos l <= len (input l) -> len (rest l) < Z.of_nat n ->
    Returns l (stringUntil u n l).
Proof.
  induction n as [|n IH]; intros l Hp Hn.
  - pose proof (len_nonneg (rest l)). lia.
  - cbn [stringUntil]. rewrite peek_spec by exact Hp.
    assert (Hstop : Returns l (Ret tt (set_width (head_width (rest l)) l)))
      by (cbn [Returns]; now apply advances_set_width).
    destruct (isEndOfLine _); [exact Hstop|].
    destruct (head_rune (rest l) =? eof) eqn:Ee; [exact Hstop|].
    destruct (_ =? u); [exact Hstop|].
    destruct (not_eof_nonempty _ Ee) as [Hne Hw].
    rewrite next_set_width.
    apply Returns_weaken with (l1 := snd (next l));
      [now apply advances_next|].
    destruct (advances_rest l _ ltac:(lia) (advances_next l Hp)) as [Hp1 _].
    apply IH; [exact Hp1|].
    rewrite next_spec by exact Hp. cbn [snd].
    pose proof (head_width_range (rest l)) as Hr.
    pose proof (len_rest l Hp) as Hl.
    rewrite rest_advance by lia. rewrite len_slice_from by lia. lia.
Qed.

Lemma scanStringUntil_returns (u : Z) (n : nat) (l : lexer) :
  0 <= pos l <= len (input l) -> len (rest l) < Z.of_nat n ->
  Returns l (scanStringUntil u n l).
Proof.
  intros Hp Hn. unfold scanStringUntil.
  apply Returns_bind; [now apply stringUntil_returns|].
  intros _ l1 H1. destruct (advances_rest l l1 ltac:(lia) H1) as [Hp1 _].
  destruct (String.eqb _ _); cbn [Returns].
  - now apply advances_refl.
  - now apply advances_emit.
Qed.

Lemma next_consumes (l : lexer) :
  0 <= pos l <= len (input l) ->
  (head_rune (rest l) =? eof) = false ->
  advances l (snd (next l)) /\
  0 <= pos (snd (next l)) <= len (input (snd (next l))) /\
  len (rest (snd (next l))) < len (rest l).
Proof.
  intros Hp He. destruct (not_eof_nonempty _ He) as [Hne Hw].
  pose proof (advances_next l Hp) as Ha.
  destruct (advances_rest l _ ltac:(lia) Ha) as [Hp1 _].
  split; [exact Ha|]. split; [exact Hp1|].
  rewrite next_spec by exact Hp. cbn [snd].
  pose proof (head_width_range (rest l)) as Hr.
  pose proof (len_rest l Hp) as Hl.
  rewrite rest_advance by lia. rewrite len_slice_from by lia. lia.
Qed.

Lemma next_parts (l : lexer) :
  0 <= pos l <= len (input l) ->
  next l = (head_rune (rest l), snd (next l)).
Proof. intros H. rewrite next_spec by exact H. reflexivity. Qed.

Lemma advances_backup_next (l : lexer) :
  0 <= pos l <= len (input l) -> advances l (backup (snd (next l))).
Proof. intros H. rewrite backup_next. now apply advances_set_width. Qed.

Lemma rest_backup_next (l : lexer) : rest (backup (snd (next l))) = rest l.
Proof. now rewrite backup_next. Qed.

Lemma scanNote_returns (n : nat) :
  forall l,
    0 <= pos l <= len (input l) -> len (rest l) < Z.of_nat n ->
    Returns l (scanNote n l).
Proof.
  induction n as [|n IH]; intros l Hp Hn.
  - pose proof (len_nonneg (rest l)). lia.
  - cbn [scanNote]. rewrite next_parts by exact Hp.
    destruct (isEndOfLine _ || (_ =? eof)) eqn:E.
    + cbn [Returns].
      pose proof (advances_backup_next l Hp) as Ha.
      destruct (advances_rest l _ ltac:(lia) Ha) as [Hp1 _].
      eapply advances_trans; [exact Ha|].
      now apply advances_emitNonEmpty.
    + apply orb_false_iff in E as [_ Ee].
      destruct (next_consumes l Hp Ee) as (Ha & Hp1 & Hl).
      apply Returns_weaken with (l1 := snd (next l)); [exact Ha|].
      apply IH; [exact Hp1 | lia].
Qed.

Lemma scanStringNote_returns (n : nat) :
  forall l,
    0 <= pos l <= len (input l) -> len (rest l) < Z.of_nat n ->
    Returns l (scanStringNote n l).
Proof.
  induction n as [|n IH]; intros l Hp Hn.
  - pose proof (len_nonneg (rest l)). lia.
  - cbn [scanStringNote]. rewrite next_parts by exact Hp.
    pose proof (advances_next l Hp) as Ha.
    destruct (advances_rest l _ ltac:(lia) Ha) as [Hp1 Hl1].
    destruct (_ =? rn ";").
    { pose proof (advances_backup_next l Hp) as Hb.
      destruct (advances_rest l _ ltac:(lia) Hb) as [Hpb Hlb].
      set (l2 := emitNonEmpty itemString (backup (snd (next l)))).
      assert (H2 : advances (backup (snd (next l))) l2)
        by (now apply advances_emitNonEmpty).
      assert (Hl2 : advances l l2) by (eapply advances_trans; eauto).
      destruct (advances_rest l _ ltac:(lia) Hl2) as [Hp2 Hr2].
      pose proof (advances_next l2 Hp2) as H3.
      assert (Hl3 : advances l (snd (next l2)))
        by (eapply advances_trans; eauto).
      destruct (advances_rest l _ ltac:(lia) Hl3) as [Hp3 Hr3].
      apply Returns_weaken with (l1 := snd (next l2)); [exact Hl3|].
      apply scanNote_returns; [exact Hp3 | lia]. }
    destruct (isEndOfLine _).
    { cbn [Returns]. eapply advances_trans; [exact Ha|].
      now apply advances_emitNonEmpty. }
    destruct (_ =? eof) eqn:Ee.
    { cbn [Returns]. eapply advances_trans; [exact Ha|].
      now apply advances_emitNonEmpty. }
    destruct (next_consumes l Hp Ee) as (_ & _ & Hl).
    apply Returns_weaken with (l1 := snd (next l)); [exact Ha|].
    apply IH; [exact Hp1 | lia].
Qed.

Lemma scanAccountName_returns (n : nat) :
  forall l,
    0 <= pos l <= len (input l) -> len (rest l) < Z.of_nat n ->
    Returns l (scanAccountName n l).
Proof.
  induction n as [|n IH]; intros l Hp Hn.
  - pose proof (len_nonneg (rest l)). lia.
  - cbn [scanAccountName]. rewrite peek_spec by exact Hp.
    assert (Hstop : Returns l (Ret tt (emit itemAccountName
                                (set_width (head_width (rest l)) l)))).
    { cbn [Returns]. eapply advances_trans.
      - now apply (advances_set_width (head_width (rest l))).
      - now apply advances_emit. }
    destruct (isEndOfLine _ || (_ =? eof)) eqn:E; [exact Hstop|].
    destruct (_ =? 9); [exact Hstop|].
    destruct (andb _ _); [exact Hstop|].
    apply orb_false_iff in E as [_ Ee].
    rewrite next_set_width.
    destruct (next_consumes l Hp Ee) as (Ha & Hp1 & Hl).
    apply Returns_weaken with (l1 := snd (next l)); [exact Ha|].
    apply IH; [exact Hp1 | lia].
Qed.

Lemma lexIdentifier_returns (n : nat) (l : lexer) :
  0 <= pos l <= len (input l) -> len (rest l) < Z.of_nat n ->
  Returns l (lexIdentifier n l).
Proof.
  intros Hp Hn.
  destruct (lexIdentifier_skip n l Hp Hn) as (m & w & E1 & E2 & E3).
  pose proof (run_length_range isAlphaNumeric (rest l)) as Hk.
  pose proof (len_rest l Hp) as Hl.
  set (k := run_length isAlphaNumeric (rest l)) in *.
  set (lk := at_pos (pos l + k) w l) in E1.
  assert (Hak : advances l lk) by (apply advances_at_pos; lia).
  destruct (advances_rest l lk ltac:(lia) Hak) as [Hpk _].
  assert (Erk : rest lk = slice_from (rest l) k)
    by (apply rest_at_pos; lia).
  rewrite <- Erk in E3.
  rewrite E1, (lexIdentifier_stop m lk Hpk E3).
  apply Returns_weaken with (l1 := lk); [exact Hak|].
  set (l3 := set_width (head_width (rest lk)) lk).
  assert (H3 : advances lk l3) by (now apply advances_set_width).
  assert (Hp3 : 0 <= pos l3 <= len (input l3)) by exact Hpk.
  assert (Hm : len (rest l3) < Z.of_nat (S m)).
  { change (rest l3) with (rest lk). rewrite Erk, len_slice_from; lia. }
  destruct (negb _); [exact H3|].
  destruct (String.eqb _ "include").
  { apply Returns_weaken with (l1 := emit itemInclude l3);
      [eapply advances_trans; [exact H3 | now apply advances_emit]|].
    apply Returns_bind; [now apply scanSpaces_returns|].
    intros _ l4 H4.
    destruct (advances_rest (emit itemInclude l3) l4
                            ltac:(change (0 <= pos l3); lia) H4)
      as [Hp4 Hr4].
    apply Returns_bind;
      [apply scanStringToEOL_returns;
       [exact Hp4 | change (rest (emit itemInclude l3)) with (rest l3) in Hr4;
                    lia]|].
    intros ok l5 H5.
    destruct (advances_rest l4 l5 ltac:(lia) H5) as [Hp5 _].
    destruct (negb ok); cbn [Returns].
    - unfold advances; proj. split; [reflexivity | lia].
    - now apply advances_refl. }
  destruct (String.eqb _ "end").
  { apply Returns_weaken with (l1 := emit itemEnd l3);
      [eapply advances_trans; [exact H3 | now apply advances_emit]|].
    apply Returns_bind; [now apply scanSpaces_returns|].
    intros _ l4 H4.
    destruct (advances_rest (emit itemEnd l3) l4
                            ltac:(change (0 <= pos l3); lia) H4)
      as [Hp4 _].
    cbn [Returns]. now apply advances_refl. }
  destruct (_ >? _); cbn [Returns];
    (eapply advances_trans; [exact H3 | now apply advances_emit]).
Qed.

Lemma Returns_errorf (l l1 : lexer) (msg : string) :
  advances l l1 -> Returns l (Ret (fst (errorf msg l1)) (snd (errorf msg l1))).
Proof. intros H. exact H. Qed.

Lemma lexJournal_returns (n : nat) (l : lexer) :
  0 <= pos l <= len (input l) -> len (rest l) < Z.of_nat n ->
  Returns l (lexJournal n l).
Proof.
  intros Hp Hn. unfold lexJournal. rewrite next_parts by exact Hp.
  pose proof (advances_next l Hp) as Ha.
  destruct (advances_rest l (snd (next l)) ltac:(lia) Ha) as [Hp1 Hl1].
  assert (He : forall t, Returns l (Ret (Some LexJournal)
                                        (emit t (snd (next l))))).
  { intros t. cbn [Returns]. eapply advances_trans; [exact Ha|].
    now apply advances_emit. }
  destruct (isSpace _).
  { apply Returns_weaken with (l1 := snd (next l)); [exact Ha|].
    apply Returns_bind; [apply spaceRun_returns; [exact Hp1 | lia]|].
    intros _ l2 H2.
    destruct (advances_rest (snd (next l)) l2 ltac:(lia) H2) as [Hp2 _].
    cbn [Returns]. now apply advances_emit. }
  destruct (_ =? rn "~"); [apply (He itemTilde)|].
  destruct (_ =? rn "="); [apply (He itemEqual)|].
  destruct (IsDigit _); [exact Ha|].
  destruct (isAlphaNumeric _); [now apply advances_backup_next|].
  destruct (isEndOfLine _); [apply He|].
  destruct (_ =? eof); [apply He|].
  exact Ha.
Qed.

Lemma lexPeriodicXact_returns (n : nat) (l : lexer) :
  0 <= pos l <= len (input l) -> len (rest l) < Z.of_nat n ->
  Returns l (lexPeriodicXact n l).
Proof.
  intros Hp Hn. unfold lexPeriodicXact.
  apply Returns_bind; [now apply scanSpaces_returns|].
  intros _ l1 H1. destruct (advances_rest l l1 ltac:(lia) H1) as [Hp1 Hl1].
  apply Returns_bind; [apply scanStringNote_returns; [exact Hp1 | lia]|].
  intros _ l2 H2. destruct (advances_rest l1 l2 ltac:(lia) H2) as [Hp2 _].
  cbn [Returns]. now apply advances_refl.
Qed.

Lemma lexPlainXactDate_returns (n : nat) (l : lexer) :
  0 <= pos l <= len (input l) -> len (rest l) < Z.of_nat n ->
  Returns l (lexPlainXactDate n l).
Proof.
  intros Hp Hn. unfold lexPlainXactDate. rewrite peek_spec by exact Hp.
  set (l1 := set_width (head_width (rest l)) l).
  assert (H1 : advances l l1) by (now apply advances_set_width).
  assert (Hp1 : 0 <= pos l1 <= len (input l1)) by exact Hp.
  destruct (_ || _).
  { cbn [Returns]. unfold l1. rewrite next_set_width.
    now apply advances_next. }
  destruct (isSpace _).
  { apply Returns_weaken with (l1 := emit itemDate l1);
      [eapply advances_trans; [exact H1 | now apply advances_emit]|].
    apply Returns_bind; [now apply scanSpaces_returns|].
    intros _ l2 H2.
    destruct (advances_rest (emit itemDate l1) l2
                            ltac:(change (0 <= pos l); lia) H2) as [Hp2 _].
    cbn [Returns]. now apply advances_refl. }
  destruct (_ =? eof); [exact H1|].
  destruct (isEndOfLine _); exact H1.
Qed.

Lemma lexPlainXactRest_returns (n : nat) (l : lexer) :
  0 <= pos l <= len (input l) -> len (rest l) < Z.of_nat n ->
  Returns l (lexPlainXactRest n l).
Proof.
  intros Hp Hn. unfold lexPlainXactRest. rewrite next_parts by exact Hp.
  pose proof (advances_next l Hp) as Ha.
  destruct (advances_rest l (snd (next l)) ltac:(lia) Ha) as [Hp1 Hl1].
  assert (Hs : forall t (s : stateFn),
             Returns l (bind (scanSpaces n (emit t (snd (next l))))
                             (fun _ l2 => Ret (Some s) l2))).
  { intros t s.
    apply Returns_weaken with (l1 := emit t (snd (next l)));
      [eapply advances_trans; [exact Ha | now apply advances_emit]|].
    apply Returns_bind; [apply scanSpaces_returns; [exact Hp1 | exact (Z.le_lt_trans _ _ _ Hl1 Hn)]|].
    intros _ l2 H2.
    destruct (advances_rest (emit t (snd (next l))) l2
                            ltac:(change (0 <= pos (snd (next l))); lia) H2)
      as [Hp2 _].
    cbn [Returns]. now apply advances_refl. }
  destruct (_ =? rn "="); [apply Hs|].
  destruct (_ =? rn "*"); [apply Hs|].
  destruct (_ =? rn "!"); [apply Hs|].
  destruct (_ =? rn "(").
  { apply Returns_weaken with (l1 := emit itemLeftParen (snd (next l)));
      [eapply advances_trans; [exact Ha | now apply advances_emit]|].
    apply Returns_bind;
      [apply scanStringUntil_returns;
       [exact Hp1 | exact (Z.le_lt_trans _ _ _ Hl1 Hn)]|].
    intros _ l2 H2.
    destruct (advances_rest (emit itemLeftParen (snd (next l))) l2
                            ltac:(change (0 <= pos (snd (next l))); lia) H2)
      as [Hp2 _].
    cbn [Returns]. now apply advances_refl. }
  destruct (_ =? rn ")").
  { cbn [Returns]. eapply advances_trans; [exact Ha|].
    now apply advances_emit. }
  pose proof (advances_backup_next l Hp) as Hb.
  destruct (advances_rest l (backup (snd (next l))) ltac:(lia) Hb)
    as [Hpb Hlb].
  apply Returns_weaken with (l1 := backup (snd (next l))); [exact Hb|].
  apply Returns_bind; [apply scanStringNote_returns; [exact Hpb | lia]|].
  intros _ l2 H2.
  destruct (advances_rest (backup (snd (next l))) l2 ltac:(lia) H2)
    as [Hp2 _].
  cbn [Returns]. now apply advances_refl.
Qed.

(** Termination.  With a budget above the number of bytes that remain,
    every state function but [lexPostings], and every scanning helper,
    returns, and leaves the cursor within the input and not behind the
    place where it was. *)
Theorem scanning_functions_return (n : nat) (l : lexer) :
  0 <= pos l <= len (input l) -> len (rest l) < Z.of_nat n ->
  (forall f, f <> LexPostings -> Returns l (call f n l)) /\
  Returns l (scanSpaces n l) /\
  Returns l (scanStringToEOL n l) /\
  (forall u, Returns l (scanStringUntil u n l)) /\
  Returns l (scanStringNote n l) /\
  Returns l (scanNote n l).
Proof.
  intros Hp Hn. repeat split.
  - intros f Hf. destruct f; cbn [call].
    + now apply lexJournal_returns.
    + now apply lexIdentifier_returns.
    + now apply lexPeriodicXact_returns.
    + now apply lexPeriodicXact_returns.
    + now apply lexPlainXactDate_returns.
    + now apply lexPlainXactRest_returns.
    + congruence.
    + cbn. now apply advances_refl.
  - now apply scanSpaces_returns.
  - now apply scanStringToEOL_returns.
  - intros u. now apply scanStringUntil_returns.
  - now apply scanStringNote_returns.
  - now apply scanNote_returns.
Qed.

(** ** The cursor: [next], [peek] and [backup] *)

Lemma decode_width_max (s : string) : snd (DecodeRuneInString s) <= 4.
Proof.
  unfold DecodeRuneInString.
  destruct (len s <? 1) eqn:E0; [cbn [snd]; lia|].
  unfold first.
  repeat match goal with
  | |- context [if byte_at s 0 <? ?c then _ else _] =>
      destruct (byte_at s 0 <? c) eqn:?
  | |- context [if byte_at s 0 =? ?c then _ else _] =>
      destruct (byte_at s 0 =? c) eqn:?
  end; cbn -[len byte_at Z.shiftl Z.lor Z.land Z.ltb Z.leb];
  eval_first; cbv iota beta; split_ifs; cbn [fst snd]; lia.
Qed.

Lemma head_width_max (s : string) : head_width s <= 4.
Proof.
  unfold head_width. destruct (len s <? 1); [lia | apply decode_width_max].
Qed.

Lemma head_rune_nonneg (s : string) : 1 <= len s -> 0 <= head_rune s.
Proof.
  intros H. unfold head_rune. destruct (len s <? 1) eqn:E; [lia|].
  now apply decode_bounds.
Qed.

(** The cursor.  On a scanner within its input, [next] returns [eof]
    exactly at the end of the input, and then reads nothing; elsewhere,
    also on a malformed byte, it returns a rune that is not negative and
    moves forward by its width, of one to four bytes, without leaving
    the input.  [backup] after [next] restores the position, [peek] is
    [next] followed by [backup], and the read that follows a [peek]
    returns the same rune and reaches the same position. *)
Theorem next_peek_backup (l : lexer) :
  0 <= pos l <= len (input l) ->
  let r := fst (next l) in
  let l1 := snd (next l) in
  (r = eof <-> pos l = len (input l)) /\
  (r = eof -> width l1 = 0) /\
  (r <> eof -> 0 <= r /\ 1 <= width l1 <= 4) /\
  pos l1 = pos l + width l1 /\
  pos l1 <= len (input l) /\
  pos (backup l1) = pos l /\
  peek l = (r, backup l1) /\
  fst (next (snd (peek l))) = r /\
  pos (snd (next (snd (peek l)))) = pos l1.
Proof.
  intros Hp. cbv zeta.
  pose proof (len_rest l Hp) as Hl.
  pose proof (head_width_range (rest l)) as Hw.
  pose proof (head_width_max (rest l)) as Hm.
  pose proof (head_rune_eof (rest l)) as He.
  assert (Hpk : peek l = (fst (next l), backup (snd (next l)))).
  { unfold peek. now destruct (next l). }
  rewrite Hpk. cbn [fst snd]. rewrite backup_next, next_set_width.
  rewrite next_spec by exact Hp. proj.
  assert (Hne : head_rune (rest l) <> eof -> 1 <= len (rest l)).
  { intros E. destruct (Z.eq_dec (len (rest l)) 0) as [E0|E0];
      [apply He in E0; contradiction | lia]. }
  split; [split; intros E; [apply He in E; lia | apply He; lia]|].
  split; [intros E; apply He in E; lia|].
  split.
  { intros E. pose proof (Hne E) as H1.
    pose proof (head_rune_nonneg (rest l) H1).
    pose proof (head_width_pos (rest l) H1). lia. }
  split; [reflexivity|].
  split; [lia|].
  split; [lia|].
  split; [reflexivity|].
  split; reflexivity.
Qed.

(** ** What the producer writes *)

Lemma extends_refl (l : lexer) : extends l l.
Proof.
  unfold extends. repeat split. exists []. split; [|constructor].
  now rewrite app_nil_r.
Qed.

Lemma extends_trans (a b c : lexer) :
  extends a b -> extends b c -> extends a c.
Proof.
  intros (N1 & I1 & L1 & P1 & C1 & m1 & E1 & F1)
         (N2 & I2 & L2 & P2 & C2 & m2 & E2 & F2).
  unfold extends. repeat split; try congruence.
  exists (m1 ++ m2). split.
  - now rewrite E2, E1, app_assoc.
  - apply Forall_app. now split.
Qed.

Lemma extends_set_width (l0 : lexer) (w : Z) (l : lexer) :
  extends l0 l -> extends l0 (set_width w l).
Proof. intros H; exact H. Qed.

Lemma extends_set_state (l0 : lexer) (s : option stateFn) (l : lexer) :
  extends l0 l -> extends l0 (set_state s l).
Proof. intros H; exact H. Qed.

Lemma extends_next (l0 l : lexer) :
  extends l0 l -> extends l0 (snd (next l)).
Proof.
  intros H. unfold next. destruct (pos l >=? len (input l)); [exact H|].
  destruct (DecodeRuneInString _). exact H.
Qed.

Lemma extends_backup (l0 l : lexer) :
  extends l0 l -> extends l0 (backup l).
Proof. intros H; exact H. Qed.

Lemma extends_peek (l0 l : lexer) :
  extends l0 l -> extends l0 (snd (peek l)).
Proof. intros H. rewrite peek_eq. exact H. Qed.

Lemma extends_send (l0 : lexer) (it : item) (l : lexer) :
  sent_kind (typ it) = true -> extends l0 l -> extends l0 (send it l).
Proof.
  intros Hk (N & I & L & P & C & more & E & F).
  unfold extends; proj. repeat split; try assumption.
  exists (more ++ [it]). split.
  - now rewrite E, app_assoc.
  - apply Forall_app. split; [exact F | constructor; [exact Hk | constructor]].
Qed.

Lemma extends_emit (l0 : lexer) (t : itemType) (l : lexer) :
  sent_kind t = true -> extends l0 l -> extends l0 (emit t l).
Proof. intros Hk H. unfold emit. now apply (extends_send l0 _ l). Qed.

Lemma extends_emitNonEmpty (l0 : lexer) (t : itemType) (l : lexer) :
  sent_kind t = true -> extends l0 l -> extends l0 (emitNonEmpty t l).
Proof.
  intros Hk H. unfold emitNonEmpty.
  destruct (String.eqb _ _); [exact H | now apply extends_emit].
Qed.

Lemma extends_errorf (l0 : lexer) (msg : string) (l : lexer) :
  extends l0 l -> extends l0 (snd (errorf msg l)).
Proof. intros H. unfold errorf. cbn [snd]. now apply extends_send. Qed.

Create HintDb ext.
#[local] Hint Resolve extends_set_width extends_set_state extends_next
  extends_backup extends_peek extends_emit extends_emitNonEmpty
  extends_errorf : ext.
#[local] Hint Extern 1 (sent_kind _ = true) => reflexivity : ext.

Lemma Ext_bind {A B : Type} (l0 : lexer) (m : outcome A)
      (k : A -> lexer -> outcome B) :
  Ext l0 m ->
  (forall a l, extends l0 l -> Ext l0 (k a l)) ->
  Ext l0 (bind m k).
Proof. destruct m; cbn; auto. Qed.

Ltac ext_out := unfold Ext; cbn [final bind].

Lemma spaceRun_ext (l0 : lexer) (n : nat) :
  forall l, extends l0 l -> Ext l0 (spaceRun n l).
Proof.
  induction n as [|n IH]; intros l H; cbn [spaceRun]; [exact H|].
  destruct (peek l) as [r l1] eqn:E.
  assert (E1 : l1 = snd (peek l)) by now rewrite E.
  subst l1. destruct (isSpace r); [apply IH | ext_out]; auto with ext.
Qed.

Lemma stringToEOL_ext (l0 : lexer) (n : nat) :
  forall l, extends l0 l -> Ext l0 (stringToEOL n l).
Proof.
  induction n as [|n IH]; intros l H; cbn [stringToEOL]; [exact H|].
  destruct (peek l) as [r l1] eqn:E.
  assert (E1 : l1 = snd (peek l)) by now rewrite E.
  subst l1.
  destruct (isEndOfLine r); [ext_out; auto with ext|].
  destruct (r =? eof); [ext_out; auto with ext|].
  apply IH; auto with ext.
Qed.

Lemma stringUntil_ext (l0 : lexer) (u : Z) (n : nat) :
  forall l, extends l0 l -> Ext l0 (stringUntil u n l).
Proof.
  induction n as [|n IH]; intros l H; cbn [stringUntil]; [exact H|].
  destruct (peek l) as [r l1] eqn:E.
  assert (E1 : l1 = snd (peek l)) by now rewrite E.
  subst l1.
  destruct (isEndOfLine r); [ext_out; auto with ext|].
  destruct (r =? eof); [ext_out; auto with ext|].
  destruct (r =? u); [ext_out; auto with ext|].
  apply IH; auto with ext.
Qed.

Lemma scanSpaces_ext (l0 : lexer) (n : nat) (l : lexer) :
  extends l0 l -> Ext l0 (scanSpaces n l).
Proof.
  intros H. unfold scanSpaces. apply Ext_bind.
  - now apply spaceRun_ext.
  - intros _ l1 H1. destruct (String.eqb _ _); ext_out; auto with ext.
Qed.

Lemma scanStringToEOL_ext (l0 : lexer) (n : nat) (l : lexer) :
  extends l0 l -> Ext l0 (scanStringToEOL n l).
Proof.
  intros H. unfold scanStringToEOL. apply Ext_bind.
  - now apply stringToEOL_ext.
  - intros _ l1 H1. destruct (String.eqb _ _); ext_out; auto with ext.
Qed.

Lemma scanStringUntil_ext (l0 : lexer) (u : Z) (n : nat) (l : lexer) :
  extends l0 l -> Ext l0 (scanStringUntil u n l).
Proof.
  intros H. unfold scanStringUntil. apply Ext_bind.
  - now apply stringUntil_ext.
  - intros _ l1 H1. destruct (String.eqb _ _); ext_out; auto with ext.
Qed.

Lemma scanNote_ext (l0 : lexer) (n : nat) :
  forall l, extends l0 l -> Ext l0 (scanNote n l).
Proof.
  induction n as [|n IH]; intros l H; cbn [scanNote]; [exact H|].
  destruct (next l) as [r l1] eqn:E.
  assert (E1 : l1 = snd (next l)) by now rewrite E.
  subst l1.
  destruct (isEndOfLine r || (r =? eof)).
  - ext_out. auto with ext.
  - apply IH. auto with ext.
Qed.

Lemma scanStringNote_ext (l0 : lexer) (n : nat) :
  forall l, extends l0 l -> Ext l0 (scanStringNote n l).
Proof.
  induction n as [|n IH]; intros l H; cbn [scanStringNote]; [exact H|].
  destruct (next l) as [r l1] eqn:E.
  assert (E1 : l1 = snd (next l)) by now rewrite E.
  subst l1.
  destruct (r =? rn ";").
  - apply scanNote_ext. auto with ext.
  - destruct (isEndOfLine r); [ext_out; auto with ext|].
    destruct (r =? eof); [ext_out; auto with ext|].
    apply IH. auto with ext.
Qed.

Lemma scanAccountName_ext (l0 : lexer) (n : nat) :
  forall l, extends l0 l -> Ext l0 (scanAccountName n l).
Proof.
  induction n as [|n IH]; intros l H; cbn [scanAccountName]; [exact H|].
  destruct (peek l) as [r l1] eqn:E.
  assert (E1 : l1 = snd (peek l)) by now rewrite E.
  subst l1.
  destruct (isEndOfLine r || (r =? eof)); [ext_out; auto with ext|].
  destruct (r =? 9); [ext_out; auto with ext|].
  destruct (andb _ _); [ext_out; auto with ext|].
  apply IH. auto with ext.
Qed.

#[local] Hint Resolve spaceRun_ext scanSpaces_ext stringToEOL_ext
  scanStringToEOL_ext stringUntil_ext scanStringUntil_ext scanNote_ext
  scanStringNote_ext scanAccountName_ext : ext.

Lemma key_sent (w : string) :
  (iota (key w) >? iota itemKeyword) = true -> sent_kind (key w) = true.
Proof. destruct (key w); cbn; congruence. Qed.

Lemma lexJournal_ext (l0 : lexer) (n : nat) (l : lexer) :
  extends l0 l -> Ext l0 (lexJournal n l).
Proof.
  intros H. unfold lexJournal.
  destruct (next l) as [r l1] eqn:E.
  assert (E1 : l1 = snd (next l)) by now rewrite E.
  subst l1.
  destruct (isSpace r).
  { apply Ext_bind; [auto with ext|]. intros _ l2 H2; ext_out.
    auto with ext. }
  destruct (r =? rn "~"); [ext_out; auto with ext|].
  destruct (r =? rn "="); [ext_out; auto with ext|].
  destruct (IsDigit r); [ext_out; auto with ext|].
  destruct (isAlphaNumeric r); [ext_out; auto with ext|].
  destruct (isEndOfLine r); [ext_out; auto with ext|].
  destruct (r =? eof); [ext_out; auto with ext|].
  apply (extends_errorf l0 _ (snd (next l))). auto with ext.
Qed.

Lemma lexIdentifier_ext (l0 : lexer) (n : nat) :
  forall l, extends l0 l -> Ext l0 (lexIdentifier n l).
Proof.
  induction n as [|n IH]; intros l H; cbn [lexIdentifier]; [exact H|].
  destruct (next l) as [r l1] eqn:E.
  assert (E1 : l1 = snd (next l)) by now rewrite E.
  subst l1.
  destruct (isAlphaNumeric r); [apply IH; auto with ext|].
  unfold atTerminator.
  destruct (peek (backup (snd (next l)))) as [r2 l3] eqn:E3.
  assert (H3 : extends l0 l3).
  { replace l3 with (snd (peek (backup (snd (next l))))) by now rewrite E3.
    auto with ext. }
  destruct (negb _); [apply (extends_errorf l0 _ l3 H3)|].
  destruct (String.eqb _ "include").
  { apply Ext_bind; [auto with ext|]. intros _ l4 H4.
    apply Ext_bind; [auto with ext|]. intros ok l5 H5.
    destruct (negb ok); ext_out; auto with ext. }
  destruct (String.eqb _ "end").
  { apply Ext_bind; [auto with ext|]. intros _ l4 H4. exact H4. }
  destruct (iota (key _) >? iota itemKeyword) eqn:Ek.
  - ext_out. apply extends_emit; [now apply key_sent | exact H3].
  - ext_out. auto with ext.
Qed.

Lemma lexPeriodicXact_ext (l0 : lexer) (n : nat) (l : lexer) :
  extends l0 l -> Ext l0 (lexPeriodicXact n l).
Proof.
  intros H. unfold lexPeriodicXact.
  apply Ext_bind; [auto with ext|]. intros _ l1 H1.
  apply Ext_bind; [auto with ext|]. intros _ l2 H2. exact H2.
Qed.

Lemma lexPlainXactDate_ext (l0 : lexer) (n : nat) (l : lexer) :
  extends l0 l -> Ext l0 (lexPlainXactDate n l).
Proof.
  intros H. unfold lexPlainXactDate.
  destruct (peek l) as [r l1] eqn:E.
  assert (E1 : l1 = snd (peek l)) by now rewrite E.
  subst l1.
  destruct (_ || _); [ext_out; auto with ext|].
  destruct (isSpace r).
  { apply Ext_bind; [auto with ext|]. intros _ l2 H2. exact H2. }
  destruct (r =? eof); [ext_out; auto with ext|].
  destruct (isEndOfLine r); ext_out; auto with ext.
Qed.

Lemma lexPlainXactRest_ext (l0 : lexer) (n : nat) (l : lexer) :
  extends l0 l -> Ext l0 (lexPlainXactRest n l).
Proof.
  intros H. unfold lexPlainXactRest.
  destruct (next l) as [r l1] eqn:E.
  assert (E1 : l1 = snd (next l)) by now rewrite E.
  subst l1.
  repeat match goal with
  | |- Ext _ (if ?c then _ else _) => destruct c
  end;
  try (apply Ext_bind; [auto with ext | intros ? l2 H2; exact H2]).
  ext_out. auto with ext.
Qed.

Lemma lexPostings_loop_ext (l0 : lexer) (n : nat) :
  forall b l, extends l0 l -> Ext l0 (lexPostings_loop n b l).
Proof.
  induction n as [|n IH]; intros b l H; cbn [lexPostings_loop]; [exact H|].
  destruct (next l) as [r l1] eqn:E.
  assert (E1 : l1 = snd (next l)) by now rewrite E.
  subst l1.
  destruct (isEndOfLine r); [apply IH; auto with ext|].
  destruct b.
  { destruct (isSpace r).
    - apply Ext_bind; [auto with ext|]. intros _ l2 H2. exact H2.
    - ext_out. auto with ext. }
  destruct (r =? rn "*").
  { apply Ext_bind; [auto with ext|]. intros _ l2 H2. now apply IH. }
  destruct (r =? rn "!").
  { apply Ext_bind; [auto with ext|]. intros _ l2 H2. now apply IH. }
  destruct (IsLetter r).
  { apply Ext_bind; [auto with ext|]. intros _ l2 H2. exact H2. }
  apply IH. auto with ext.
Qed.

Lemma call_ext (l0 : lexer) (f : stateFn) (n : nat) (l : lexer) :
  extends l0 l -> Ext l0 (call f n l).
Proof.
  intros H. destruct f; cbn [call].
  - now apply lexJournal_ext.
  - now apply lexIdentifier_ext.
  - now apply lexPeriodicXact_ext.
  - now apply lexPeriodicXact_ext.
  - now apply lexPlainXactDate_ext.
  - now apply lexPlainXactRest_ext.
  - now apply lexPostings_loop_ext.
  - exact H.
Qed.

(** [run] adds to the work of the state functions the [close] that
    follows its loop. *)
Lemma run_loop_ext (l0 : lexer) (n : nat) :
  forall l, extends l0 l ->
    exists l1, extends l0 l1 /\
      match run_loop n l with
      | Ret _ l' => l' = close l1
      | Timeout l' => l' = l1
      end.
Proof.
  induction n as [|n IH]; intros l H.
  - cbn [run_loop]. destruct (state l); exists l; now split.
  - cbn [run_loop]. destruct (state l) as [f|]; [|exists l; now split].
    pose proof (call_ext l0 f (S n) l H) as HP.
    destruct (call f (S n) l) as [s l1|l1]; cbn [bind].
    + apply IH. apply extends_set_state. exact HP.
    + exists l1. now split.
Qed.

Lemma run_ext (n : nat) (nm inp : string) :
  exists l1, extends (lex nm inp) l1 /\
    match run n (lex nm inp) with
    | Ret _ l' => l' = close l1
    | Timeout l' => l' = l1
    end.
Proof.
  unfold run. apply run_loop_ext. apply extends_set_state, extends_refl.
Qed.

(** The kinds of the items.  Whatever the input, the producer sends
    items of twenty kinds only: no item of a scan is a Quantity, a
    Commodity, a Negation or a Dot, nor one of the other nine kinds of
    [itemType] for which the state functions have no [emit], nor the
    marker [itemKeyword]. *)
Theorem scan_never_sends (inp : string) (n : nat) (t : item) :
  In t (items (final (scan n inp))) ->
  typ t <> itemJournal /\ typ t <> itemJournalItem /\ typ t <> itemText /\
  typ t <> itemSemicolon /\ typ t <> itemCommodity /\ typ t <> itemNeg /\
  typ t <> itemQuantity /\ typ t <> itemPeriodExpr /\ typ t <> itemDot /\
  typ t <> itemStatus /\ typ t <> itemAccount /\
  typ t <> itemBeginAutomatedXact /\ typ t <> itemBeginPeriodicXact /\
  typ t <> itemBeginXact /\ typ t <> itemKeyword.
Proof.
  intros Hin.
  assert (Hk : sent_kind (typ t) = true).
  { destruct (run_ext n "" inp) as (l1 & (_ & _ & _ & _ & _ & more & E & F) & R).
    assert (Ei : items (final (scan n inp)) = more).
    { unfold scan. destruct (run n (lex "" inp)); cbn [final]; subst;
        exact E. }
    rewrite Ei in Hin. rewrite Forall_forall in F. now apply F. }
  destruct (typ t); cbn in Hk; repeat split; congruence.
Qed.

(** The fields that the state functions leave alone.  A run of the
    scanner never writes [name], [input] or [parenDepth]: the nesting
    depth stays 0 whatever parentheses the input contains.  The channel
    is closed exactly when [run] has returned.  Nothing is said of
    [lastPos], which [nextItem] writes on the side of the parser while
    the run is going. *)
Theorem run_leaves_the_other_fields (n : nat) (nm inp : string) :
  let m := run n (lex nm inp) in
  name (final m) = nm /\ input (final m) = inp /\
  parenDepth (final m) = 0 /\
  closed (final m) = returned m.
Proof.
  cbv zeta.
  destruct (run_ext n nm inp) as (l1 & (N & I & _ & P & C & _) & R).
  destruct (run n (lex nm inp)); cbn [final returned]; subst;
    repeat split; assumption.
Qed.

(** ** The line number *)

Lemma Count_nonneg (s : string) (c : ascii) : 0 <= Count s c.
Proof.
  induction s as [|a s IH]; cbn [Count]; [lia|].
  destruct (Ascii.eqb a c); lia.
Qed.

Lemma Count_app (a b : string) (c : ascii) :
  Count (a +++ b) c = Count a c + Count b c.
Proof.
  induction a as [|x a IH]; cbn [append Count]; [lia | rewrite IH; lia].
Qed.

Lemma firstn_split_at {A : Type} (k : nat) (its : list A) (t : A) :
  nth_error its k = Some t ->
  its = firstn k its ++ t :: skipn (S k) its.
Proof.
  revert its. induction k as [|k IH]; intros [|x its] H; cbn in H;
    try discriminate.
  - injection H as ->. reflexivity.
  - cbn [firstn skipn app]. f_equal. now apply IH.
Qed.

Lemma firstn_prefix {A : Type} (j k : nat) (its : list A) :
  (j <= k)%nat -> exists more, firstn k its = firstn j its ++ more.
Proof.
  revert k its. induction j as [|j IH]; intros k its H.
  - exists (firstn k its). reflexivity.
  - destruct k as [|k]; [lia|]. destruct its as [|x its].
    + exists []. reflexivity.
    + destruct (IH k its ltac:(lia)) as (more & E).
      exists more. cbn [firstn app]. now rewrite E.
Qed.

(** The line number that the parser reads after a call of [nextItem].
    After the [k]-th item of a scan has been received, [lineNumber] is
    one more than the number of line feeds in the texts of the items
    received before it, whatever the kind of the item; it is at least 1
    and never decreases from one call to a later one. *)
Theorem lineNumber_counts_the_lines_before
        (inp : string) (n k : nat) (t : item) (l' : lexer) :
  nextItem k (final (scan n inp)) = Some (t, l') ->
  lineNumber l' =
    1 + Count (texts (firstn k (items (final (scan n inp))))) "010" /\
  1 <= lineNumber l' /\
  forall j u l'',
    (j <= k)%nat ->
    nextItem j (final (scan n inp)) = Some (u, l'') ->
    lineNumber l'' <= lineNumber l'.
Proof.
  assert (H1 : forall k t l',
             nextItem k (final (scan n inp)) = Some (t, l') ->
             lineNumber l' =
             1 + Count (texts (firstn k (items (final (scan n inp)))))
                       "010").
  { clear. intros k t l' H. unfold nextItem in H.
    destruct (nth_error _ k) as [it|] eqn:E; [|discriminate].
    injection H as <- <-.
    apply firstn_split_at in E.
    destruct (scan_stream inp n _ _ _ E) as (Ht & _).
    apply tiled_texts in Ht.
    assert (Hi : input (final (scan n inp)) = inp).
    { destruct (scan_Inv inp n) as [(Hi & _)|(l0 & msg & (Hi & _) & _)];
        [exact Hi|].
      unfold scan.
      destruct (run_ext n "" inp) as (l1 & (_ & I & _) & R).
      destruct (run n (lex "" inp)); cbn [final]; subst; exact I. }
    unfold lineNumber. proj. rewrite Hi, Ht. reflexivity. }
  intros H. split; [now apply (H1 k t l')|]. split.
  - rewrite (H1 k t l' H).
    pose proof (Count_nonneg (texts (firstn k (items (final (scan n inp)))))
                             "010"). lia.
  - intros j u l'' Hj Hu.
    rewrite (H1 k t l' H), (H1 j u l'' Hu).
    destruct (firstn_prefix j k (items (final (scan n inp))) Hj) as (more & E).
    rewrite E, texts_app, Count_app.
    pose proof (Count_nonneg (texts more) "010"). lia.
Qed.

(** ** What the loops of the notes and of the delimited strings compute *)

Lemma before_nonempty (u : rune) (s : string) :
  before u (head_rune s) = true -> 1 <= len s.
Proof.
  intros H. apply inLine_nonempty. unfold before in H.
  now apply andb_prop in H as [H _].
Qed.

(** The loop of [scanStringUntil] stops at the end of the line or at
    the delimiter. *)
Lemma stringUntil_spec (u : rune) (n : nat) :
  forall l,
    0 <= pos l <= len (input l) ->
    len (rest l) < Z.of_nat n ->
    stringUntil u n l =
    Ret tt (at_pos (pos l + run_length (before u) (rest l))
                   (head_width (slice_from (rest l)
                                           (run_length (before u) (rest l))))
                   l).
Proof.
  induction n as [|n IH]; intros l Hp Hn.
  - pose proof (len_nonneg (rest l)). lia.
  - cbn [stringUntil]. rewrite peek_spec by exact Hp.
    pose proof (head_width_range (rest l)) as Hw.
    pose proof (len_rest l Hp) as Hl.
    destruct (before u (head_rune (rest l))) eqn:E.
    + pose proof (before_nonempty _ _ E) as Hne.
      pose proof (head_width_pos _ Hne) as Hw1.
      pose proof E as E'.
      unfold before, inLine in E'.
      apply andb_prop in E' as [E' E3]. apply andb_prop in E' as [E1 E2].
      apply negb_true_iff in E1, E2, E3. rewrite E1, E2, E3.
      rewrite next_set_width, next_spec by exact Hp. cbn [snd].
      set (l' := set_pos _ _).
      assert (Er : rest l' = slice_from (rest l) (head_width (rest l)))
        by (apply rest_advance; lia).
      assert (Ep : pos l' = pos l + head_width (rest l)) by reflexivity.
      assert (Ei : input l' = input l) by reflexivity.
      rewrite IH; [|rewrite Ei, Ep; lia|rewrite Er, len_slice_from; lia].
      rewrite (run_length_unfold (before u) (rest l)) by exact Hne.
      rewrite E, Er.
      pose proof (run_length_range (before u)
                    (slice_from (rest l) (head_width (rest l)))) as Hk.
      rewrite len_slice_from in Hk by lia.
      rewrite slice_from_slice_from by lia.
      f_equal. subst l'. lexer_eq l.
    + rewrite run_length_stop by exact E.
      rewrite slice_from_0.
      assert (R : Ret tt (set_width (head_width (rest l)) l) =
                  Ret tt (at_pos (pos l + 0) (head_width (rest l)) l))
        by (f_equal; lexer_eq l).
      unfold before, inLine in E.
      destruct (isEndOfLine (head_rune (rest l))); [exact R|].
      destruct (head_rune (rest l) =? eof); [exact R|].
      destruct (head_rune (rest l) =? u); [exact R | discriminate].
Qed.

(** The loop of [scanNote] stops at the end of the line. *)
Lemma scanNote_spec (n : nat) :
  forall l,
    0 <= pos l <= len (input l) ->
    len (rest l) < Z.of_nat n ->
    scanNote n l =
    Ret tt (emitNonEmpty itemNote
              (at_pos (pos l + run_length inLine (rest l))
                      (head_width (slice_from (rest l)
                                              (run_length inLine (rest l))))
                      l)).
Proof.
  induction n as [|n IH]; intros l Hp Hn.
  - pose proof (len_nonneg (rest l)). lia.
  - cbn [scanNote]. rewrite next_spec by exact Hp.
    pose proof (head_width_range (rest l)) as Hw.
    pose proof (len_rest l Hp) as Hl.
    destruct (inLine (head_rune (rest l))) eqn:E.
    + pose proof (inLine_nonempty _ E) as Hne.
      pose proof (head_width_pos _ Hne) as Hw1.
      pose proof E as E'. unfold inLine in E'.
      apply andb_prop in E' as [E1 E2].
      apply negb_true_iff in E1, E2. rewrite E1, E2. cbn [orb].
      set (l' := set_pos _ _).
      assert (Er : rest l' = slice_from (rest l) (head_width (rest l)))
        by (apply rest_advance; lia).
      assert (Ep : pos l' = pos l + head_width (rest l)) by reflexivity.
      assert (Ei : input l' = input l) by reflexivity.
      rewrite IH; [|rewrite Ei, Ep; lia|rewrite Er, len_slice_from; lia].
      rewrite (run_length_unfold inLine (rest l)) by exact Hne.
      rewrite E, Er.
      pose proof (run_length_range inLine
                    (slice_from (rest l) (head_width (rest l)))) as Hk.
      rewrite len_slice_from in Hk by lia.
      rewrite slice_from_slice_from by lia.
      do 2 f_equal. subst l'. lexer_eq l.
    + rewrite run_length_stop by exact E.
      rewrite slice_from_0.
      assert (Ec : isEndOfLine (head_rune (rest l))
                   || (head_rune (rest l) =? eof) = true).
      { unfold inLine in E.
        destruct (isEndOfLine _); [reflexivity|].
        destruct (_ =? eof); [reflexivity | discriminate]. }
      rewrite Ec. do 2 f_equal. lexer_eq l.
Qed.

(** The loop of [scanStringNote] passes over the runes of the line that
    are not [';']. *)
Lemma scanStringNote_skip (n : nat) :
  forall l,
    0 <= pos l <= len (input l) ->
    len (rest l) < Z.of_nat n ->
    exists m w,
      scanStringNote n l =
      scanStringNote (S m)
        (at_pos (pos l + run_length (before (rn ";")) (rest l)) w l) /\
      len (rest l) - run_length (before (rn ";")) (rest l) <= Z.of_nat m /\
      before (rn ";")
        (head_rune (slice_from (rest l)
                               (run_length (before (rn ";")) (rest l))))
      = false.
Proof.
  induction n as [|n IH]; intros l Hp Hn.
  - pose proof (len_nonneg (rest l)). lia.
  - pose proof (head_width_range (rest l)) as Hw.
    pose proof (len_rest l Hp) as Hl.
    destruct (before (rn ";") (head_rune (rest l))) eqn:E.
    + pose proof (before_nonempty _ _ E) as Hne.
      pose proof (head_width_pos _ Hne) as Hw1.
      pose proof E as E'. unfold before, inLine in E'.
      apply andb_prop in E' as [E' E3]. apply andb_prop in E' as [E1 E2].
      apply negb_true_iff in E1, E2, E3.
      cbn [scanStringNote]. rewrite next_spec by exact Hp.
      rewrite E1, E2, E3.
      set (l' := set_pos _ _).
      assert (Er : rest l' = slice_from (rest l) (head_width (rest l)))
        by (apply rest_advance; lia).
      assert (Ep : pos l' = pos l + head_width (rest l)) by reflexivity.
      assert (Ei : input l' = input l) by reflexivity.
      destruct (IH l') as (m & w & F1 & F2 & F3);
        [rewrite Ei, Ep; lia|rewrite Er, len_slice_from; lia|].
      exists m, w.
      rewrite (run_length_unfold (before (rn ";")) (rest l)) by exact Hne.
      rewrite E. rewrite Er in *.
      pose proof (run_length_range (before (rn ";"))
                    (slice_from (rest l) (head_width (rest l)))) as Hk.
      rewrite len_slice_from in Hk, F2 by lia.
      rewrite slice_from_slice_from in F3 by lia.
      split; [|split; [lia | exact F3]].
      rewrite F1. apply (f_equal (scanStringNote (S m))).
      subst l'. lexer_eq l.
    + exists n, (width l).
      rewrite run_length_stop by exact E. rewrite slice_from_0.
      split; [|split; [lia | exact E]].
      apply (f_equal (scanStringNote (S n))). lexer_eq l.
Qed.

Lemma emitNonEmpty_spec (t : itemType) (l : lexer) :
  0 <= start l <= pos l -> pos l <= len (input l) ->
  emitNonEmpty t l = if start l =? pos l then l else emit t l.
Proof.
  intros H1 H2. unfold emitNonEmpty, current.
  now rewrite slice_eqb_empty by lia.
Qed.

(** A run is maximal: the rune after it is not one of the run. *)
Lemma run_length_maximal (P : rune -> bool) (s : string) :
  P eof = false ->
  P (head_rune (slice_from s (run_length P s))) = false.
Proof.
  intros He.
  assert (H : forall (n : nat) s, len s <= Z.of_nat n ->
                P (head_rune (slice_from s (run_length P s))) = false).
  { clear s. induction n as [|n IH]; intros s Hn.
    - pose proof (len_nonneg s).
      rewrite run_length_empty by lia. rewrite slice_from_0.
      assert (E : head_rune s = eof) by (apply head_rune_eof; lia).
      now rewrite E.
    - destruct (Z.eq_dec (len s) 0) as [E0|E0].
      + rewrite run_length_empty by lia. rewrite slice_from_0.
        assert (E : head_rune s = eof) by (now apply head_rune_eof).
        now rewrite E.
      + pose proof (len_nonneg s).
        assert (Hne : 1 <= len s) by lia.
        rewrite run_length_unfold by exact Hne.
        destruct (P (head_rune s)) eqn:E.
        * pose proof (head_width_pos s Hne).
          pose proof (head_width_range s).
          pose proof (run_length_range P (slice_from s (head_width s))) as Hk.
          rewrite len_slice_from in Hk by lia.
          rewrite <- slice_from_slice_from by lia.
          apply IH. rewrite len_slice_from by lia. lia.
        * now rewrite slice_from_0. }
  apply (H (String.length s)). unfold len. lia.
Qed.

Lemma backup_at (l : lexer) (w : Z) :
  backup (set_pos (pos l + w) (set_width w l)) = set_width w l.
Proof. destruct l. unfold backup; fields. f_equal. lia. Qed.

(** The text and the note of a line.  [scanStringNote] passes over the
    runes of the line up to the first [';'], and returns with no text
    left pending.  If it stops on a [';'], the pending text before it
    is sent as an [itemString] unless it is empty, and the rest of the
    line, the [';'] included, is sent as an [itemNote]; the end of the
    line is left in the input.  If it stops on an end-of-line
    character, that character is read and sent at the end of the
    [itemString].  If it stops at the end of the input, the pending
    text is sent as an [itemString] unless it is empty. *)
Theorem scanStringNote_text_and_note (n : nat) (l : lexer) :
  0 <= start l <= pos l -> pos l <= len (input l) ->
  len (rest l) < Z.of_nat n ->
  let k := run_length (before (rn ";")) (rest l) in
  let s := slice_from (rest l) k in
  let p := pos l + k in
  let str := if start l =? p then []
             else [mkItem itemString (start l)
                          (slice (input l) (start l) p)] in
  exists l',
    scanStringNote n l = Ret tt l' /\ start l' = pos l' /\
    ((head_rune s = rn ";" /\
      items l' =
        items l ++ str ++
        [mkItem itemNote p (slice (input l) p (p + run_length inLine s))] /\
      pos l' = p + run_length inLine s /\
      1 <= run_length inLine s /\
      inLine (head_rune (rest l')) = false)
     \/
     (isEndOfLine (head_rune s) = true /\
      items l' =
        items l ++
        [mkItem itemString (start l)
                (slice (input l) (start l) (p + head_width s))] /\
      pos l' = p + head_width s /\ 1 <= head_width s)
     \/
     (head_rune s = eof /\ items l' = items l ++ str /\
      pos l' = len (input l))).
Proof.
  intros Hs Hp Hn k s p str.
  destruct (scanStringNote_skip n l) as (m & w & E1 & E2 & E3); [lia|exact Hn|].
  fold k in E1, E2, E3. fold s in E3. fold p in E1.
  pose proof (run_length_range (before (rn ";")) (rest l)) as Hk.
  fold k in Hk. rewrite len_rest in Hk, E2 by lia.
  set (l0 := at_pos p w l) in *.
  assert (Er : rest l0 = s) by (apply rest_at_pos; lia).
  assert (Hls : len s = len (input l) - p).
  { unfold s. rewrite len_slice_from; [|rewrite len_rest; lia].
    rewrite len_rest by lia. lia. }
  pose proof (head_width_range s) as Hw.
  rewrite E1. cbn [scanStringNote].
  rewrite (next_spec l0) by (unfold l0, at_pos; proj; lia).
  rewrite Er. rewrite (backup_at l0 (head_width s)).
  change (pos l0) with p.
  destruct (head_rune s =? rn ";") eqn:Es.
  - apply Z.eqb_eq in Es.
    assert (Hne : 1 <= len s).
    { pose proof (len_nonneg s).
      destruct (Z.eq_dec (len s) 0) as [E0|E0]; [|lia].
      apply head_rune_eof in E0. rewrite E0 in Es. discriminate. }
    pose proof (head_width_pos s Hne) as Hw1.
    assert (Hj : run_length inLine s =
                 head_width s + run_length inLine (slice_from s (head_width s))).
    { rewrite run_length_unfold by exact Hne. now rewrite Es. }
    pose proof (run_length_range inLine (slice_from s (head_width s))) as Hk2.
    rewrite len_slice_from in Hk2 by lia.
    rewrite emitNonEmpty_spec by (unfold l0, at_pos; proj; lia).
    change (start (set_width (head_width s) l0)) with (start l).
    change (pos (set_width (head_width s) l0)) with p.
    set (l2 := if start l =? p then _ else _).
    assert (F2 : input l2 = input l /\ pos l2 = p /\ start l2 = p /\
                 items l2 = items l ++ str).
    { unfold l2, str. destruct (start l =? p) eqn:Ee.
      - apply Z.eqb_eq in Ee. unfold l0, at_pos; proj.
        rewrite app_nil_r. repeat split. exact Ee.
      - unfold l0, at_pos; proj. repeat split. }
    clearbody l2. destruct F2 as (Fi & Fp & Fs & Fit).
    assert (Er2 : rest l2 = s).
    { unfold rest. rewrite Fi, Fp. rewrite <- Er. reflexivity. }
    rewrite (next_spec l2) by (rewrite Fi, Fp; lia).
    cbn [snd]. rewrite Er2, Fp.
    set (l3 := set_pos _ _).
    assert (Er3 : rest l3 = slice_from s (head_width s)).
    { unfold l3. rewrite <- Fp.
      rewrite rest_advance by (rewrite ?Fi, ?Fp; lia).
      now rewrite Er2. }
    rewrite scanNote_spec;
      [|unfold l3; proj; rewrite Fi; lia
       |rewrite Er3, len_slice_from by lia; lia].
    rewrite Er3.
    change (pos l3) with (p + head_width s).
    rewrite slice_from_slice_from by lia.
    replace (p + head_width s +
             run_length inLine (slice_from s (head_width s)))
      with (p + run_length inLine s) by lia.
    rewrite <- Hj.
    set (j := run_length inLine s) in *.
    assert (Hrs : slice_from s j = slice_from (input l) (p + j)).
    { unfold s, rest.
      rewrite (slice_from_slice_from (input l) (pos l) k) by lia.
      fold p. rewrite slice_from_slice_from by lia. reflexivity. }
    rewrite emitNonEmpty_spec by (unfold l3, at_pos; proj; rewrite ?Fi; lia).
    unfold at_pos at 1 2. proj.
    replace (start l3 =? p + j) with false
      by (symmetry; apply Z.eqb_neq; change (start l3) with (start l2); lia).
    eexists. split; [reflexivity|]. unfold at_pos, l3; proj.
    split; [reflexivity|]. left.
    split; [exact Es|]. split.
    { rewrite Fit, Fs, Fi, <- app_assoc. reflexivity. }
    split; [reflexivity|]. split; [lia|].
    unfold rest; proj. rewrite Fi, <- Hrs.
    apply run_length_maximal. reflexivity.
  - destruct (isEndOfLine (head_rune s)) eqn:El.
    + assert (Hne : 1 <= len s).
      { pose proof (len_nonneg s).
        destruct (Z.eq_dec (len s) 0) as [E0|E0]; [|lia].
        apply head_rune_eof in E0. rewrite E0 in El. discriminate. }
      pose proof (head_width_pos s Hne) as Hw1.
      rewrite emitNonEmpty_spec by (unfold l0, at_pos; proj; lia).
      unfold l0, at_pos; proj.
      replace (start l =? p + head_width s) with false
        by (symmetry; apply Z.eqb_neq; lia).
      eexists. split; [reflexivity|]. proj.
      split; [reflexivity|]. right; left.
      repeat split; lia.
    + destruct (head_rune s =? eof) eqn:Ee.
      * apply Z.eqb_eq in Ee.
        assert (E0 : len s = 0) by (now apply head_rune_eof).
        assert (Hw0 : head_width s = 0) by lia.
        rewrite Hw0, Z.add_0_r.
        rewrite emitNonEmpty_spec by (unfold l0, at_pos; proj; lia).
        unfold l0, at_pos, str; proj.
        destruct (start l =? p) eqn:Esp.
        -- apply Z.eqb_eq in Esp.
           eexists. split; [reflexivity|]. proj.
           split; [exact Esp|]. right; right.
           rewrite app_nil_r. repeat split; [exact Ee | lia].
        -- eexists. split; [reflexivity|]. proj.
           split; [reflexivity|]. right; right.
           repeat split; [exact Ee | lia].
      * unfold before, inLine in E3. rewrite El, Ee, Es in E3.
        discriminate.
Qed.

(** ** Runes below [0x80] *)

Lemma lor_ge (a b c : Z) : 0 <= a -> 0 <= b -> 0 < c -> 2 ^ c <= a ->
  2 ^ c <= Z.lor a b.
Proof.
  intros Ha Hb Hc H.
  assert (Hp : 0 < 2 ^ c) by (apply Z.pow_pos_nonneg; lia).
  assert (Hl : 0 <= Z.lor a b) by (apply Z.lor_nonneg; now split).
  destruct (Z_lt_le_dec (Z.lor a b) (2 ^ c)) as [Hlt|Hge]; [|exact Hge].
  exfalso.
  assert (H0 : 0 < Z.lor a b).
  { destruct (Z.eq_dec (Z.lor a b) 0) as [E|E]; [|lia].
    apply Z.lor_eq_0_l in E. lia. }
  apply Z.log2_lt_pow2 in Hlt; [|exact H0].
  rewrite Z.log2_lor in Hlt by assumption.
  assert (c <= Z.log2 a) by (apply Z.log2_le_pow2; lia).
  lia.
Qed.

Lemma lor_ge128 (a b : Z) : 0 <= a -> 0 <= b -> 128 <= a -> 128 <= Z.lor a b.
Proof. intros. apply (lor_ge a b 7); auto; lia. Qed.

Lemma land_mask (x : Z) :
  Z.land x 63 = x mod 64 /\ Z.land x 31 = x mod 32 /\
  Z.land x 15 = x mod 16 /\ Z.land x 7 = x mod 8.
Proof.
  repeat split;
    [apply (Z.land_ones x 6) | apply (Z.land_ones x 5)
     | apply (Z.land_ones x 4) | apply (Z.land_ones x 3)]; lia.
Qed.

Lemma mod_eq (x m : Z) :
  0 < m -> exists q, x = m * q + x mod m /\ 0 <= x mod m < m.
Proof.
  intros H. exists (x / m). split.
  - apply Z.div_mod. lia.
  - apply Z.mod_pos_bound. exact H.
Qed.

Ltac big :=
  match goal with
  | |- 128 <= Z.lor ?a ?b =>
      first
        [ apply (lor_ge128 a b); [bits_nonneg | bits_nonneg | big]
        | rewrite (Z.lor_comm a b);
          apply (lor_ge128 b a); [bits_nonneg | bits_nonneg | big] ]
  | |- 128 <= Z.shiftl (Z.land ?x ?m) ?k =>
      rewrite Z.shiftl_mul_pow2 by lia;
      let v := eval vm_compute in (2 ^ k) in
      change (2 ^ k) with v;
      let E1 := fresh "E" in let E2 := fresh "E" in
      let E3 := fresh "E" in let E4 := fresh "E" in
      destruct (land_mask x) as (E1 & E2 & E3 & E4);
      rewrite ?E1, ?E2, ?E3, ?E4; clear E1 E2 E3 E4;
      match goal with
      | |- context [x mod ?d] =>
          let q := fresh "q" in let Eq := fresh "Eq" in
          let Hr := fresh "Hr" in
          destruct (mod_eq x d ltac:(lia)) as (q & Eq & Hr); lia
      end
  end.

(** A rune below [0x80] is decoded from one byte, which is its code. *)
Lemma decode_low (s : string) :
  1 <= len s -> fst (DecodeRuneInString s) < 128 ->
  byte_at s 0 = fst (DecodeRuneInString s) /\
  snd (DecodeRuneInString s) = 1.
Proof using.
  intros H. unfold DecodeRuneInString.
  destruct (len s <? 1) eqn:E0; [lia|].
  pose proof (byte_at_range s 0) as H0.
  pose proof (byte_at_range s 1) as H1.
  pose proof (byte_at_range s 2) as H2.
  pose proof (byte_at_range s 3) as H3.
  unfold first.
  repeat match goal with
  | |- context [if byte_at s 0 <? ?c then _ else _] =>
      destruct (byte_at s 0 <? c) eqn:?
  | |- context [if byte_at s 0 =? ?c then _ else _] =>
      destruct (byte_at s 0 =? c) eqn:?
  end; cbn -[len byte_at Z.shiftl Z.lor Z.land Z.ltb Z.leb];
  eval_first; cbv iota beta; split_ifs; cbn [fst snd];
  try (intros _; split; [reflexivity | reflexivity]);
  try (unfold RuneError; intros; lia).
  all: intros Hlt; exfalso; revert Hlt; apply Z.le_ngt.
  all: big.
Qed.

Lemma head_low (s : string) (r : Z) :
  head_rune s = r -> 0 <= r < 128 ->
  exists c s', s = String c s' /\ byte_val c = r /\ head_width s = 1.
Proof.
  intros E Hr. destruct s as [|c s'].
  - cbn in E. unfold eof in E. lia.
  - exists c, s'. pose proof (len_nonneg s').
    unfold head_rune, head_width in *. rewrite len_String in *.
    destruct (1 + len s' <? 1) eqn:E1; [lia|].
    destruct (decode_low (String c s')) as (D1 & D2);
      [rewrite len_String; lia | lia |].
    change (byte_at (String c s') 0) with (byte_val c) in D1.
    repeat split; [congruence | exact D2].
Qed.

Lemma byte_val_inj (a b : ascii) : byte_val a = byte_val b -> a = b.
Proof.
  unfold byte_val. intros H. apply N2Z.inj in H.
  rewrite <- (ascii_N_embedding a), <- (ascii_N_embedding b).
  now rewrite H.
Qed.

(** The text of a rune below [0x80] read by [next] is its character. *)
Lemma head_char (l : lexer) (c : ascii) :
  0 <= pos l <= len (input l) ->
  head_rune (rest l) = rn c -> byte_val c < 128 ->
  head_width (rest l) = 1 /\ pos l + 1 <= len (input l) /\
  slice (input l) (pos l) (pos l + 1) = String c "".
Proof.
  intros Hp E Hc. pose proof (byte_val_range c).
  destruct (head_low (rest l) (rn c) E) as (c' & s' & Es & Ec & Ew);
    [unfold rn; lia|].
  apply byte_val_inj in Ec. subst c'.
  pose proof (len_rest l Hp) as Hl. rewrite Es, len_String in Hl.
  pose proof (len_nonneg s').
  split; [exact Ew|]. split; [lia|].
  replace (pos l) with (pos l + 0) at 1 by lia.
  rewrite slice_rest by lia. rewrite Es.
  unfold slice. cbn. now destruct s'.
Qed.

(** ** The scanners of runs *)

Lemma sends_run_intro (t : itemType) (P : rune -> bool) (l : lexer)
      (m : outcome bool) :
  P eof = false ->
  0 <= start l <= pos l -> pos l <= len (input l) ->
  (let k := run_length P (rest l) in
   let l1 := at_pos (pos l + k) (head_width (slice_from (rest l) k)) l in
   m = if start l =? pos l + k then Ret false l1
       else Ret true (emit t l1)) ->
  sends_run t P l m.
Proof.
  intros He Hs Hp E. cbv zeta in E. unfold sends_run. cbv zeta.
  pose proof (run_length_range P (rest l)) as Hk.
  rewrite len_rest in Hk by lia.
  set (k := run_length P (rest l)) in *.
  remember (at_pos (pos l + k) (head_width (slice_from (rest l) k)) l)
    as l1 eqn:El1.
  assert (Hr : rest l1 = slice_from (rest l) k)
    by (subst l1; apply rest_at_pos; lia).
  assert (Fi : input l1 = input l) by now subst l1.
  assert (Fp : pos l1 = pos l + k) by now subst l1.
  assert (Fs : start l1 = start l) by now subst l1.
  assert (Ft : items l1 = items l) by now subst l1.
  pose proof (run_length_maximal P (rest l) He) as Hm. fold k in Hm.
  rewrite E. destruct (start l =? pos l + k) eqn:Ek.
  - apply Z.eqb_eq in Ek. exists l1. rewrite Hr, app_nil_r.
    repeat split; auto; congruence.
  - exists (emit t l1). change (rest (emit t l1)) with (rest l1). proj.
    rewrite Hr, Fi, Fp, Fs, Ft. repeat split; auto.
Qed.

(** The scanners of runs.  With enough budget, [scanSpaces] sends the
    pending text and the longest run of spaces and tabs that follows as
    one [itemSpace], [scanStringToEOL] does so with the rest of the line
    and an [itemString], and [scanStringUntil] with the runes of the
    line before the delimiter; the rune on which they stop is not
    consumed, nothing is sent when there is no text, and the result
    tells whether an item was sent. *)
Theorem scanners_send_the_longest_run (n : nat) (l : lexer) :
  0 <= start l <= pos l -> pos l <= len (input l) ->
  len (rest l) < Z.of_nat n ->
  sends_run itemSpace isSpace l (scanSpaces n l) /\
  sends_run itemString inLine l (scanStringToEOL n l) /\
  forall until,
    sends_run itemString (before until) l (scanStringUntil until n l).
Proof.
  intros Hs Hp Hn. split; [|split; [|intros u]].
  - apply sends_run_intro; auto. now apply scanSpaces_spec.
  - apply sends_run_intro; auto. now apply scanStringToEOL_spec.
  - apply sends_run_intro; auto. cbv zeta. unfold scanStringUntil.
    rewrite stringUntil_spec by (auto; lia). cbn [bind].
    pose proof (run_length_range (before u) (rest l)) as Hk.
    rewrite len_rest in Hk by lia.
    rewrite current_at_pos, slice_eqb_empty by lia.
    reflexivity.
Qed.

(** ** The shapes of the items *)

Lemma Shaped_same (inp : string) (l l' : lexer) :
  items l' = items l -> Shaped inp l -> Shaped inp l'.
Proof. unfold Shaped. now intros ->. Qed.

Lemma Shaped_next (inp : string) (l : lexer) :
  Shaped inp l -> Shaped inp (snd (next l)).
Proof. apply Shaped_same. apply next_fields. Qed.

Lemma Shaped_send (inp : string) (it : item) (l : lexer) :
  Shaped inp l -> shaped inp it -> Shaped inp (send it l).
Proof.
  intros H Hi. unfold Shaped; proj. apply Forall_app. split; [exact H|].
  constructor; [exact Hi | constructor].
Qed.

Lemma Shaped_emit (inp : string) (t : itemType) (l : lexer) :
  Shaped inp l ->
  shaped inp (mkItem t (start l) (slice (input l) (start l) (pos l))) ->
  Shaped inp (emit t l).
Proof. intros H Hi. unfold emit. now apply (Shaped_send inp _ l). Qed.

Lemma Shaped_errorf (inp msg : string) (l : lexer) :
  Shaped inp l -> Shaped inp (snd (errorf msg l)).
Proof. intros H. unfold errorf; cbn [snd]. now apply Shaped_send. Qed.

Lemma emitNonEmpty_tidy (inp : string) (t : itemType) (l : lexer) :
  Inv inp l -> Shaped inp l ->
  (start l < pos l ->
   shaped inp (mkItem t (start l) (slice (input l) (start l) (pos l)))) ->
  Shaped inp (emitNonEmpty t l) /\
  start (emitNonEmpty t l) = pos (emitNonEmpty t l).
Proof.
  intros HI HS Hi. pose proof (Inv_range _ _ HI) as Hr.
  rewrite emitNonEmpty_spec by lia.
  destruct (start l =? pos l) eqn:E.
  - apply Z.eqb_eq in E. now split.
  - apply Z.eqb_neq in E. split; [|reflexivity].
    apply Shaped_emit; [exact HS | apply Hi; lia].
Qed.

Lemma emitNonEmpty_fields (t : itemType) (l : lexer) :
  pos (emitNonEmpty t l) = pos l /\ input (emitNonEmpty t l) = input l.
Proof. unfold emitNonEmpty. destruct (String.eqb _ _); now split. Qed.

Lemma spaceRun_same (n : nat) :
  forall l, items (final (spaceRun n l)) = items l /\
            start (final (spaceRun n l)) = start l.
Proof.
  induction n as [|n IH]; intros l; cbn [spaceRun]; [now split|].
  rewrite peek_eq. destruct (isSpace _); [|now split].
  cbn [snd]. rewrite next_set_width.
  destruct (IH (snd (next l))) as (E1 & E2). rewrite E1, E2.
  split; apply next_fields.
Qed.

Lemma stringToEOL_same (n : nat) :
  forall l, items (final (stringToEOL n l)) = items l /\
            start (final (stringToEOL n l)) = start l.
Proof.
  induction n as [|n IH]; intros l; cbn [stringToEOL]; [now split|].
  rewrite peek_eq. destruct (isEndOfLine _); [now split|].
  destruct (_ =? eof); [now split|].
  cbn [snd]. rewrite next_set_width.
  destruct (IH (snd (next l))) as (E1 & E2). rewrite E1, E2.
  split; apply next_fields.
Qed.

Lemma stringUntil_same (u : Z) (n : nat) :
  forall l, items (final (stringUntil u n l)) = items l /\
            start (final (stringUntil u n l)) = start l.
Proof.
  induction n as [|n IH]; intros l; cbn [stringUntil]; [now split|].
  rewrite peek_eq. destruct (isEndOfLine _); [now split|].
  destruct (_ =? eof); [now split|].
  destruct (_ =? u); [now split|].
  cbn [snd]. rewrite next_set_width.
  destruct (IH (snd (next l))) as (E1 & E2). rewrite E1, E2.
  split; apply next_fields.
Qed.

(** The end of a scanner of runs: the pending text is sent, as an item
    of a kind whose text is free, unless it is empty. *)
Lemma send_pending_tidy (inp : string) (t : itemType) (l1 : lexer) :
  Inv inp l1 -> Shaped inp l1 ->
  (forall it, typ it = t -> shaped inp it) ->
  Tidy inp (if String.eqb (current l1) "" then Ret false l1
            else Ret true (emit t l1)).
Proof.
  intros HI HS Hf. pose proof (Inv_range _ _ HI) as Hr.
  unfold current. rewrite slice_eqb_empty by lia.
  destruct (start l1 =? pos l1) eqn:E; unfold Tidy; cbn [final returned].
  - apply Z.eqb_eq in E. now split.
  - split; [|reflexivity]. apply Shaped_emit; [exact HS|].
    now apply Hf.
Qed.

Ltac free_kind :=
  let it := fresh "it" in let E := fresh "E" in
  intros it E; unfold shaped; rewrite E; exact I.

Lemma Tidy_timeout {A : Type} (inp : string) (l : lexer) :
  Shaped inp l -> Tidy inp (@Timeout A l).
Proof. intros H. split; [exact H | discriminate]. Qed.

Lemma scanSpaces_tidy (inp : string) (n : nat) (l : lexer) :
  Inv inp l -> Shaped inp l -> Tidy inp (scanSpaces n l).
Proof.
  intros HI HS. unfold scanSpaces.
  pose proof (spaceRun_keeps inp n l HI) as HK.
  destruct (spaceRun_same n l) as (E1 & _).
  destruct (spaceRun n l) as [[] l1|l1]; cbn [bind final] in *.
  - apply send_pending_tidy; [exact HK | now apply (Shaped_same inp l)|].
    free_kind.
  - apply Tidy_timeout. now apply (Shaped_same inp l).
Qed.

Lemma scanStringToEOL_tidy (inp : string) (n : nat) (l : lexer) :
  Inv inp l -> Shaped inp l -> Tidy inp (scanStringToEOL n l).
Proof.
  intros HI HS. unfold scanStringToEOL.
  pose proof (stringToEOL_keeps inp n l HI) as HK.
  destruct (stringToEOL_same n l) as (E1 & _).
  destruct (stringToEOL n l) as [[] l1|l1]; cbn [bind final] in *.
  - apply send_pending_tidy; [exact HK | now apply (Shaped_same inp l)|].
    free_kind.
  - apply Tidy_timeout. now apply (Shaped_same inp l).
Qed.

Lemma scanStringUntil_tidy (inp : string) (u : Z) (n : nat) (l : lexer) :
  Inv inp l -> Shaped inp l -> Tidy inp (scanStringUntil u n l).
Proof.
  intros HI HS. unfold scanStringUntil.
  pose proof (stringUntil_keeps inp u n l HI) as HK.
  destruct (stringUntil_same u n l) as (E1 & _).
  destruct (stringUntil u n l) as [[] l1|l1]; cbn [bind final] in *.
  - apply send_pending_tidy; [exact HK | now apply (Shaped_same inp l)|].
    free_kind.
  - apply Tidy_timeout. now apply (Shaped_same inp l).
Qed.

Lemma scanAccountName_tidy (inp : string) (n : nat) :
  forall l, Inv inp l -> Shaped inp l -> Tidy inp (scanAccountName n l).
Proof.
  induction n as [|n IH]; intros l HI HS; cbn [scanAccountName];
    [now apply Tidy_timeout|].
  rewrite peek_eq.
  assert (Hd : Tidy inp (Ret tt (emit itemAccountName
                 (set_width (width (snd (next l))) l)))).
  { split; [|reflexivity]. cbn [final]. apply Shaped_emit; [exact HS|].
    exact I. }
  destruct (isEndOfLine _ || _); [exact Hd|].
  destruct (_ =? 9); [exact Hd|].
  destruct (andb _ _); [exact Hd|].
  cbn [snd]. rewrite next_set_width.
  apply IH; [auto with inv | now apply Shaped_next].
Qed.

(** The pending text of a note begins with its [';']. *)
Lemma scanNote_tidy (inp : string) (n : nat) :
  forall l, Inv inp l -> Shaped inp l ->
    (exists s, slice inp (start l) (pos l) = String ";" s) ->
    Tidy inp (scanNote n l).
Proof.
  induction n as [|n IH]; intros l HI HS (s & Hs); cbn [scanNote];
    [now apply Tidy_timeout|].
  destruct (next l) as [r l1] eqn:E.
  assert (E1 : l1 = snd (next l)) by now rewrite E.
  subst l1.
  pose proof (Inv_range _ _ HI) as Hr.
  assert (Hi : input l = inp) by apply HI.
  destruct (isEndOfLine r || (r =? eof)).
  - rewrite backup_next.
    destruct (emitNonEmpty_tidy inp itemNote
                (set_width (width (snd (next l))) l)) as (H1 & H2);
      [exact HI | exact HS | | now split].
    intros _. unfold shaped; proj. exists s. now rewrite Hi.
  - apply IH; [auto with inv | now apply Shaped_next|].
    destruct (next_fields l) as (_ & _ & F3 & _).
    destruct (advances_next l ltac:(lia)) as (_ & Ha).
    rewrite F3. rewrite Hi in Ha.
    rewrite <- (slice_app inp (start l) (pos l) (pos (snd (next l))))
      by lia.
    rewrite Hs. eexists. reflexivity.
Qed.

Lemma next_rune (l : lexer) :
  0 <= pos l <= len (input l) -> fst (next l) = head_rune (rest l).
Proof. intros H. now rewrite next_spec. Qed.

Lemma next_char (inp : string) (l : lexer) (c : ascii) :
  Inv inp l -> start l = pos l ->
  fst (next l) = rn c -> byte_val c < 128 ->
  slice (input (snd (next l))) (start (snd (next l))) (pos (snd (next l)))
  = String c "".
Proof.
  intros HI Hs E Hc. pose proof (Inv_range _ _ HI) as Hr.
  rewrite next_rune in E by lia.
  destruct (head_char l c ltac:(lia) E Hc) as (Hw & _ & Ht).
  rewrite next_spec by lia. proj. now rewrite Hs, Hw.
Qed.

Lemma scanStringNote_tidy (inp : string) (n : nat) :
  forall l, Inv inp l -> Shaped inp l -> Tidy inp (scanStringNote n l).
Proof.
  induction n as [|n IH]; intros l HI HS; cbn [scanStringNote];
    [now apply Tidy_timeout|].
  destruct (next l) as [r l1] eqn:E.
  assert (E1 : l1 = snd (next l)) by now rewrite E.
  assert (Er : r = fst (next l)) by now rewrite E.
  subst l1.
  pose proof (Inv_range _ _ HI) as Hr.
  assert (Hi : input l = inp) by apply HI.
  assert (Hfree : forall l', Inv inp l' -> Shaped inp l' ->
             Tidy inp (Ret tt (emitNonEmpty itemString l'))).
  { intros l' HI' HS'.
    destruct (emitNonEmpty_tidy inp itemString l' HI' HS') as (H1 & H2);
      [intros _; exact I | now split]. }
  destruct (r =? rn ";") eqn:Es.
  - apply Z.eqb_eq in Es. rewrite backup_next.
    set (l0 := set_width (width (snd (next l))) l).
    assert (HI0 : Inv inp l0) by exact HI.
    destruct (emitNonEmpty_tidy inp itemString l0 HI0 HS) as (H1 & H2);
      [intros _; exact I|].
    destruct (emitNonEmpty_fields itemString l0) as (Fp & Fi).
    set (l2 := emitNonEmpty itemString l0) in *.
    assert (HI2 : Inv inp l2) by (apply Inv_emitNonEmpty; auto with inv).
    assert (Hr2 : 0 <= pos l2 <= len (input l2)).
    { rewrite Fi, Fp. change (pos l0) with (pos l).
      change (input l0) with (input l). lia. }
    apply scanNote_tidy; [auto with inv | now apply Shaped_next|].
    exists "".
    assert (Ec : fst (next l2) = rn ";").
    { rewrite next_rune by exact Hr2.
      unfold rest. rewrite Fi, Fp.
      change (slice_from (input l0) (pos l0)) with (rest l).
      rewrite <- next_rune by lia. congruence. }
    rewrite <- (next_char inp l2 ";"%char HI2 H2 Ec ltac:(vm_compute; reflexivity)).
    destruct (next_fields l2) as (F1 & _). rewrite F1, Fi.
    change (input l0) with (input l). now rewrite Hi.
  - destruct (isEndOfLine r); [apply Hfree; auto with inv; now apply Shaped_next|].
    destruct (r =? eof); [apply Hfree; auto with inv; now apply Shaped_next|].
    apply IH; [auto with inv | now apply Shaped_next].
Qed.

Lemma TidyS_bind {A : Type} (inp : string) (m : outcome A)
      (k : A -> lexer -> outcome (option stateFn)) :
  Keeps inp m -> Tidy inp m ->
  (forall a l, Inv inp l -> Shaped inp l -> start l = pos l ->
               TidyS inp (k a l)) ->
  TidyS inp (bind m k).
Proof.
  intros HK (HS & Hc) H. destruct m as [a l|l]; cbn [bind final] in *.
  - apply H; auto.
  - now split.
Qed.

Lemma TidyS_ret (inp : string) (s : stateFn) (l : lexer) :
  Shaped inp l -> start l = pos l -> TidyS inp (Ret (Some s) l).
Proof. intros H E. split; [exact H | now intros _]. Qed.

Lemma TidyS_error (inp msg : string) (l : lexer) :
  Shaped inp l -> TidyS inp (Ret None (snd (errorf msg l))).
Proof. intros H. split; [now apply Shaped_errorf | exact I]. Qed.

Lemma lexJournal_tidy (inp : string) (n : nat) (l : lexer) :
  Inv inp l -> Shaped inp l -> start l = pos l ->
  TidyS inp (lexJournal n l).
Proof.
  intros HI HS Hs. unfold lexJournal.
  destruct (next l) as [r l1] eqn:E.
  assert (E1 : l1 = snd (next l)) by now rewrite E.
  assert (Er : fst (next l) = r) by now rewrite E.
  pose proof (Inv_range _ _ HI) as Hr.
  assert (Hi : input l = inp) by apply HI.
  assert (H1 : Inv inp l1) by (subst l1; auto with inv).
  assert (S1 : Shaped inp l1) by (subst l1; now apply Shaped_next).
  assert (Hc : forall (c : ascii) t s,
             r = rn c -> byte_val c < 128 ->
             shaped inp (mkItem t (start l1) (String c "")) ->
             TidyS inp (Ret (Some s) (emit t l1))).
  { intros c t s Ec Hc Hsh. apply TidyS_ret; [|reflexivity].
    apply Shaped_emit; [exact S1|]. subst l1.
    now rewrite (next_char inp l c HI Hs) by congruence. }
  destruct (isSpace r).
  { pose proof (spaceRun_keeps inp n l1 H1) as HK.
    destruct (spaceRun_same n l1) as (F1 & _).
    destruct (spaceRun n l1) as [[] l2|l2]; cbn [bind final] in *.
    - apply TidyS_ret; [|reflexivity].
      apply Shaped_emit; [now apply (Shaped_same inp l1) | exact I].
    - split; [now apply (Shaped_same inp l1) | exact I]. }
  destruct (r =? rn "~") eqn:E2.
  { apply Z.eqb_eq in E2.
    apply (Hc "~"%char); [exact E2 | vm_compute; reflexivity | reflexivity]. }
  destruct (r =? rn "=") eqn:E3.
  { apply Z.eqb_eq in E3.
    apply (Hc "="%char); [exact E3 | vm_compute; reflexivity | reflexivity]. }
  destruct (IsDigit r); [split; [exact S1 | intros F; now contradiction F]|].
  destruct (isAlphaNumeric r).
  { subst l1. rewrite backup_next. now apply TidyS_ret. }
  destruct (isEndOfLine r).
  { apply TidyS_ret; [|reflexivity]. apply Shaped_emit; [exact S1 | exact I]. }
  destruct (r =? eof) eqn:E4.
  { apply Z.eqb_eq in E4. apply TidyS_ret; [|reflexivity].
    apply Shaped_emit; [exact S1|].
    assert (Ep : pos l1 = len (input l)).
    { subst l1. apply next_eof_end; [lia | congruence]. }
    assert (Ep0 : pos l = len (input l)).
    { destruct (next_advance l) as [(_ & Hx & _)|Hx]; [lia| |].
      - apply Hx. congruence.
      - rewrite next_rune in Hx by lia.
        apply head_rune_eof in Hx. rewrite len_rest in Hx by lia. lia. }
    assert (Es1 : start l1 = start l) by (subst l1; apply next_fields).
    assert (Ei1 : input l1 = input l) by (subst l1; apply next_fields).
    unfold shaped; proj. rewrite Es1, Ep, Hs, Ep0, slice_empty, <- Hi.
    now split. }
  apply (TidyS_error inp _ l1 S1).
Qed.

Lemma lexIdentifier_tidy (inp : string) (n : nat) :
  forall l, Inv inp l -> Shaped inp l -> TidyS inp (lexIdentifier n l).
Proof.
  induction n as [|n IH]; intros l HI HS; cbn [lexIdentifier];
    [now split|].
  destruct (next l) as [r l1] eqn:E.
  assert (E1 : l1 = snd (next l)) by now rewrite E.
  subst l1.
  destruct (isAlphaNumeric r);
    [apply IH; [auto with inv | now apply Shaped_next]|].
  unfold atTerminator. rewrite peek_eq, backup_next. cbn [fst snd].
  rewrite next_set_width.
  set (l3 := set_width _ (set_width _ l)).
  assert (HI3 : Inv inp l3) by exact HI.
  assert (HS3 : Shaped inp l3) by exact HS.
  change (slice (input (set_width (width (snd (next l))) l))
                (start (set_width (width (snd (next l))) l))
                (pos (set_width (width (snd (next l))) l)))
    with (slice (input l3) (start l3) (pos l3)).
  destruct (negb _); [apply (TidyS_error inp _ l3 HS3)|].
  destruct (String.eqb _ "include") eqn:Einc.
  { apply String.eqb_eq in Einc.
    assert (S4 : Shaped inp (emit itemInclude l3)).
    { apply Shaped_emit; [exact HS3|]. unfold shaped; proj.
      now rewrite Einc. }
    assert (I4 : Inv inp (emit itemInclude l3)) by auto with inv.
    apply TidyS_bind;
      [now apply scanSpaces_keeps | now apply scanSpaces_tidy|].
    intros _ l4 HI4 HS4 _.
    apply TidyS_bind;
      [now apply scanStringToEOL_keeps | now apply scanStringToEOL_tidy|].
    intros ok l5 HI5 HS5 Hc5.
    destruct (negb ok); [now apply TidyS_error | now apply TidyS_ret]. }
  destruct (String.eqb _ "end") eqn:Eend.
  { apply String.eqb_eq in Eend.
    assert (S4 : Shaped inp (emit itemEnd l3)).
    { apply Shaped_emit; [exact HS3|]. unfold shaped; proj.
      now rewrite Eend. }
    assert (I4 : Inv inp (emit itemEnd l3)) by auto with inv.
    apply TidyS_bind;
      [now apply scanSpaces_keeps | now apply scanSpaces_tidy|].
    intros _ l4 HI4 HS4 Hc4. now apply TidyS_ret. }
  destruct (iota (key _) >? iota itemKeyword) eqn:Ek.
  - apply TidyS_ret; [|reflexivity]. apply Shaped_emit; [exact HS3|].
    unfold shaped; proj.
    destruct (key (slice (input l3) (start l3) (pos l3))) eqn:Ekey;
      cbn in Ek; try discriminate; exact Ekey.
  - apply TidyS_ret; [|reflexivity]. apply Shaped_emit; [exact HS3|].
    unfold shaped; proj. exact Ek.
Qed.

Lemma lexPeriodicXact_tidy (inp : string) (n : nat) (l : lexer) :
  Inv inp l -> Shaped inp l -> TidyS inp (lexPeriodicXact n l).
Proof.
  intros HI HS. unfold lexPeriodicXact.
  apply TidyS_bind; [now apply scanSpaces_keeps | now apply scanSpaces_tidy|].
  intros _ l1 HI1 HS1 _.
  apply TidyS_bind;
    [now apply scanStringNote_keeps | now apply scanStringNote_tidy|].
  intros _ l2 HI2 HS2 Hc2. now apply TidyS_ret.
Qed.

Lemma lexPlainXactDate_tidy (inp : string) (n : nat) (l : lexer) :
  Inv inp l -> Shaped inp l -> TidyS inp (lexPlainXactDate n l).
Proof.
  intros HI HS. unfold lexPlainXactDate. rewrite peek_eq.
  set (l1 := set_width _ l).
  assert (HI1 : Inv inp l1) by exact HI.
  assert (HS1 : Shaped inp l1) by exact HS.
  destruct (_ || _).
  { split; [now apply Shaped_next | intros F; now contradiction F]. }
  destruct (isSpace _).
  { assert (S2 : Shaped inp (emit itemDate l1))
      by (apply Shaped_emit; [exact HS1 | exact I]).
    assert (I2 : Inv inp (emit itemDate l1)) by auto with inv.
    apply TidyS_bind;
      [now apply scanSpaces_keeps | now apply scanSpaces_tidy|].
    intros _ l2 HI2 HS2 Hc2. now apply TidyS_ret. }
  destruct (_ =? eof); [now apply TidyS_error|].
  destruct (isEndOfLine _); now apply TidyS_error.
Qed.

Lemma lexPlainXactRest_tidy (inp : string) (n : nat) (l : lexer) :
  Inv inp l -> Shaped inp l -> start l = pos l ->
  TidyS inp (lexPlainXactRest n l).
Proof.
  intros HI HS Hs. unfold lexPlainXactRest.
  destruct (next l) as [r l1] eqn:E.
  assert (E1 : l1 = snd (next l)) by now rewrite E.
  assert (Er : fst (next l) = r) by now rewrite E.
  assert (H1 : Inv inp l1) by (subst l1; auto with inv).
  assert (S1 : Shaped inp l1) by (subst l1; now apply Shaped_next).
  assert (Hc : forall (c : ascii) t,
             r = rn c -> byte_val c < 128 ->
             shaped inp (mkItem t (start l1) (String c "")) ->
             Shaped inp (emit t l1)).
  { intros c t Ec Hc Hsh. apply Shaped_emit; [exact S1|]. subst l1.
    now rewrite (next_char inp l c HI Hs) by congruence. }
  assert (Hsp : forall t s, Shaped inp (emit t l1) -> t <> itemError ->
             t <> itemEOF ->
             TidyS inp (bind (scanSpaces n (emit t l1))
                             (fun _ l2 => Ret (Some s) l2))).
  { intros t s St N1 N2.
    assert (I2 : Inv inp (emit t l1)) by auto with inv.
    apply TidyS_bind;
      [now apply scanSpaces_keeps | now apply scanSpaces_tidy|].
    intros _ l2 HI2 HS2 Hc2. now apply TidyS_ret. }
  destruct (r =? rn "=") eqn:E2.
  { apply Z.eqb_eq in E2. apply Hsp; try discriminate.
    apply (Hc "="%char); [exact E2 | vm_compute; reflexivity | reflexivity]. }
  destruct (r =? rn "*"); [apply Hsp; try discriminate;
                           apply Shaped_emit; [exact S1 | exact I]|].
  destruct (r =? rn "!"); [apply Hsp; try discriminate;
                           apply Shaped_emit; [exact S1 | exact I]|].
  destruct (r =? rn "(") eqn:E5.
  { apply Z.eqb_eq in E5.
    assert (S2 : Shaped inp (emit itemLeftParen l1)).
    { apply (Hc "("%char);
        [exact E5 | vm_compute; reflexivity | reflexivity]. }
    assert (I2 : Inv inp (emit itemLeftParen l1)) by auto with inv.
    apply TidyS_bind;
      [now apply scanStringUntil_keeps | now apply scanStringUntil_tidy|].
    intros _ l2 HI2 HS2 Hc2. now apply TidyS_ret. }
  destruct (r =? rn ")") eqn:E6.
  { apply Z.eqb_eq in E6. apply TidyS_ret; [|reflexivity].
    apply (Hc ")"%char); [exact E6 | vm_compute; reflexivity | reflexivity]. }
  subst l1. rewrite backup_next.
  apply TidyS_bind;
    [apply scanStringNote_keeps; exact HI
    | apply scanStringNote_tidy; [exact HI | exact HS]|].
  intros _ l2 HI2 HS2 Hc2. now apply TidyS_ret.
Qed.

Lemma lexPostings_loop_tidy (inp : string) (n : nat) :
  forall b l, Inv inp l -> Shaped inp l ->
    (b = true -> start l = pos l) ->
    TidyS inp (lexPostings_loop n b l).
Proof.
  induction n as [|n IH]; intros b l HI HS Hb; cbn [lexPostings_loop];
    [now split|].
  destruct (next l) as [r l1] eqn:E.
  assert (E1 : l1 = snd (next l)) by now rewrite E.
  assert (H1 : Inv inp l1) by (subst l1; auto with inv).
  assert (S1 : Shaped inp l1) by (subst l1; now apply Shaped_next).
  assert (Hm : forall t m, t <> itemError -> t <> itemEOF ->
             (forall it, typ it = t -> shaped inp it) ->
             TidyS inp (bind (scanSpaces m (emit t l1))
                             (fun _ l2 => lexPostings_loop n false l2))).
  { intros t m N1 N2 Hf.
    assert (S2 : Shaped inp (emit t l1))
      by (apply Shaped_emit; [exact S1 | now apply Hf]).
    assert (I2 : Inv inp (emit t l1)) by auto with inv.
    apply TidyS_bind;
      [now apply scanSpaces_keeps | now apply scanSpaces_tidy|].
    intros _ l2 HI2 HS2 Hc2. apply IH; auto; discriminate. }
  destruct (isEndOfLine r).
  { apply IH; [auto with inv | apply Shaped_emit; [exact S1 | exact I]|].
    reflexivity. }
  destruct b.
  { destruct (isSpace r).
    - apply TidyS_bind;
        [now apply scanSpaces_keeps | now apply scanSpaces_tidy|].
      intros _ l2 HI2 HS2 Hc2. now apply TidyS_ret.
    - subst l1. rewrite backup_next. apply TidyS_ret; [exact HS|].
      now apply Hb. }
  destruct (r =? rn "*"); [apply Hm; try discriminate; free_kind|].
  destruct (r =? rn "!"); [apply Hm; try discriminate; free_kind|].
  destruct (IsLetter r).
  { apply TidyS_bind;
      [now apply scanAccountName_keeps | now apply scanAccountName_tidy|].
    intros _ l2 HI2 HS2 Hc2. now apply TidyS_ret. }
  apply IH; auto; discriminate.
Qed.

Lemma call_tidy (inp : string) (f : stateFn) (n : nat) (l : lexer) :
  Inv inp l -> Shaped inp l ->
  (f <> LexPlainXactDate -> start l = pos l) ->
  TidyS inp (call f n l).
Proof.
  intros HI HS Hc. destruct f; cbn [call].
  - apply lexJournal_tidy; auto. apply Hc. discriminate.
  - now apply lexIdentifier_tidy.
  - now apply lexPeriodicXact_tidy.
  - now apply lexPeriodicXact_tidy.
  - now apply lexPlainXactDate_tidy.
  - apply lexPlainXactRest_tidy; auto. apply Hc. discriminate.
  - apply lexPostings_loop_tidy; auto. discriminate.
  - apply TidyS_ret; [exact HS|]. apply Hc. discriminate.
Qed.

Lemma run_loop_tidy (inp : string) (n : nat) :
  forall l, Inv inp l -> Shaped inp l ->
    (forall f, state l = Some f -> f <> LexPlainXactDate ->
               start l = pos l) ->
    Shaped inp (final (run_loop n l)).
Proof.
  induction n as [|n IH]; intros l HI HS Hc.
  - cbn [run_loop]. destruct (state l); exact HS.
  - cbn [run_loop]. destruct (state l) as [f|] eqn:Ef; [|exact HS].
    pose proof (call_Post inp f (S n) l HI) as HP.
    pose proof (call_tidy inp f (S n) l HI HS (Hc f eq_refl)) as (HT & Hn).
    destruct (call f (S n) l) as [[s|] l1|l1]; cbn [bind final] in *.
    + apply IH; [now apply Inv_set_state | exact HT|].
      intros g Eg. cbn in Eg. injection Eg as <-. exact Hn.
    + rewrite run_loop_nil by reflexivity. exact HT.
    + exact HT.
Qed.

(** The shapes of the items.  In the stream of any scan, an [itemEOF]
    has the empty text and sits at the end of the input; the items
    [itemTilde], [itemEqual], [itemLeftParen] and [itemRightParen] carry
    their one character; the text of an [itemNote] begins with [';'];
    the kind of a keyword item is the entry of its text in the table
    [key], and the text of an [itemIdentifier] has no entry above
    [itemKeyword]. *)
Theorem items_have_their_shape (inp : string) (n : nat) (t : item) :
  In t (items (final (scan n inp))) ->
  (typ t = itemEOF -> val t = "" /\ ipos t = len inp) /\
  (typ t = itemTilde -> val t = "~") /\
  (typ t = itemEqual -> val t = "=") /\
  (typ t = itemLeftParen -> val t = "(") /\
  (typ t = itemRightParen -> val t = ")") /\
  (typ t = itemNote -> exists s, val t = String ";" s) /\
  ((iota (typ t) >? iota itemKeyword) = true -> key (val t) = typ t) /\
  (typ t = itemIdentifier ->
   (iota (key (val t)) >? iota itemKeyword) = false).
Proof.
  intros Hin.
  assert (HS : Shaped inp (final (scan n inp))).
  { unfold scan, run. apply run_loop_tidy.
    - apply Inv_set_state, lex_Inv.
    - constructor.
    - reflexivity. }
  unfold Shaped in HS. rewrite Forall_forall in HS.
  specialize (HS t Hin). unfold shaped in HS.
  destruct (typ t) eqn:Et; cbn;
    repeat split; intros; try discriminate; try exact HS;
    try (destruct HS; assumption).
Qed.

(** ** The date of a transaction, from the top level *)

Lemma dateRune_nonempty (s : string) :
  dateRune (head_rune s) = true -> 1 <= len s.
Proof.
  intros H. pose proof (len_nonneg s).
  destruct (Z.eq_dec (len s) 0) as [E|E]; [|lia].
  apply head_rune_eof in E. rewrite E in H. vm_compute in H. discriminate.
Qed.

Lemma digit_at_top (r : Z) :
  IsDigit r = true ->
  isSpace r = false /\ (r =? rn "~") = false /\ (r =? rn "=") = false /\
  dateRune r = true.
Proof.
  intros H. unfold dateRune. rewrite H. cbn [orb].
  unfold IsDigit, isExcludingLatin, MaxLatin1, isSpace, rn in *.
  change (byte_val "0") with 48 in H. change (byte_val "9") with 57 in H.
  change (byte_val " ") with 32. change (byte_val "~") with 126.
  change (byte_val "=") with 61.
  destruct (r <=? 255) eqn:E.
  - apply andb_prop in H as [H1 H2]. repeat split; lia.
  - repeat split; lia.
Qed.

(** One call of [lexPlainXactDate] on a rune of the date. *)
Lemma lexPlainXactDate_absorbs (n : nat) (l : lexer) :
  0 <= pos l <= len (input l) ->
  dateRune (head_rune (rest l)) = true ->
  lexPlainXactDate n l =
  Ret (Some LexPlainXactDate)
      (at_pos (pos l + head_width (rest l)) (head_width (rest l)) l).
Proof.
  intros Hp H. unfold lexPlainXactDate. rewrite peek_spec by exact Hp.
  unfold dateRune in H. rewrite H.
  rewrite next_set_width, next_at by exact Hp. reflexivity.
Qed.

(** The call of [lexPlainXactDate] on the space that ends the date. *)
Lemma lexPlainXactDate_ends (n : nat) (l : lexer) :
  0 <= start l <= pos l -> pos l <= len (input l) ->
  len (rest l) < Z.of_nat n ->
  isSpace (head_rune (rest l)) = true ->
  let j := run_length isSpace (rest l) in
  1 <= j /\
  lexPlainXactDate n l =
  Ret (Some LexPlainXactRest)
      (emit itemSpace
         (at_pos (pos l + j) (head_width (slice_from (rest l) j))
                 (emit itemDate (set_width (head_width (rest l)) l)))).
Proof.
  intros Hs Hp Hn Hsp j.
  pose proof (isSpace_nonempty _ Hsp) as Hne.
  pose proof (head_width_pos _ Hne) as Hw1.
  pose proof (run_length_range isSpace (rest l)) as Hj. fold j in Hj.
  rewrite len_rest in Hj by lia.
  assert (Hj1 : 1 <= j).
  { unfold j. rewrite run_length_unfold by exact Hne. rewrite Hsp.
    pose proof (run_length_range isSpace
                  (slice_from (rest l) (head_width (rest l)))). lia. }
  split; [exact Hj1|].
  unfold lexPlainXactDate. rewrite peek_spec by lia.
  destruct (space_not_date _ Hsp) as (Hd & _). rewrite Hd, Hsp.
  set (l1 := emit itemDate (set_width (head_width (rest l)) l)).
  assert (Er : rest l1 = rest l) by reflexivity.
  rewrite (scanSpaces_spec n l1);
    [|unfold l1; proj; lia | unfold l1; proj; lia | now rewrite Er].
  cbv zeta. rewrite Er. fold j.
  change (start l1) with (pos l). change (pos l1) with (pos l).
  replace (pos l =? pos l + j) with false by (symmetry; apply Z.eqb_neq; lia).
  reflexivity.
Qed.

Lemma run_loop_more (m : nat) (n : nat) (f : stateFn) (s : option stateFn)
      (l l1 : lexer) :
  state l = Some f -> call f (S (m + n)) l = Ret s l1 ->
  run_loop (S m + n) l = run_loop (m + n) (set_state s l1).
Proof.
  intros Hs E. exact (run_loop_step (m + n) f s l l1 Hs E).
Qed.

(** From the state of the date: the calls that absorb the runes of the
    date, one rune a call, and the call that ends it. *)
Lemma date_loop (b : nat) :
  forall l,
    state l = Some LexPlainXactDate ->
    0 <= start l <= pos l -> pos l <= len (input l) ->
    len (rest l) <= Z.of_nat b ->
    let k := run_length dateRune (rest l) in
    let j := run_length isSpace (slice_from (rest l) k) in
    isSpace (head_rune (slice_from (rest l) k)) = true ->
    exists m l',
      (forall n, len (rest l) < Z.of_nat n ->
                 run_loop (m + n) l = run_loop n l') /\
      state l' = Some LexPlainXactRest /\
      items l' =
        items l ++
        [mkItem itemDate (start l) (slice (input l) (start l) (pos l + k));
         mkItem itemSpace (pos l + k)
                (slice (input l) (pos l + k) (pos l + k + j))] /\
      pos l' = pos l + k + j /\ start l' = pos l' /\ 1 <= j.
Proof.
  induction b as [|b IH]; intros l Hst Hs Hp Hb k j Hsp.
  - (* no rune is left: the next rune is no space *)
    pose proof (len_nonneg (rest l)).
    assert (E0 : len (rest l) = 0) by lia.
    unfold k in Hsp. rewrite run_length_empty, slice_from_0 in Hsp by exact E0.
    apply isSpace_nonempty in Hsp. lia.
  - pose proof (head_width_range (rest l)) as Hw.
    pose proof (len_rest l ltac:(lia)) as Hl.
    destruct (dateRune (head_rune (rest l))) eqn:Ed.
    + pose proof (dateRune_nonempty _ Ed) as Hne.
      pose proof (head_width_pos _ Hne) as Hw1.
      set (w := head_width (rest l)) in *.
      set (l1 := set_state (Some LexPlainXactDate) (at_pos (pos l + w) w l)).
      assert (Er : rest l1 = slice_from (rest l) w)
        by (apply rest_at_pos; lia).
      set (k1 := run_length dateRune (rest l1)).
      assert (Ek : k = w + k1).
      { unfold k, k1. rewrite run_length_unfold by exact Hne.
        now rewrite Ed, Er. }
      pose proof (run_length_range dateRune (rest l1)) as Hk1.
      fold k1 in Hk1. rewrite Er, len_slice_from in Hk1 by lia.
      assert (Es : slice_from (rest l1) k1 = slice_from (rest l) k).
      { rewrite Er, slice_from_slice_from by lia. now rewrite Ek. }
      destruct (IH l1) as (m & l' & Hrun & Hst' & Hit & Hpos & Hsl & Hj1).
      * reflexivity.
      * unfold l1, at_pos; proj. lia.
      * unfold l1, at_pos; proj. lia.
      * rewrite Er, len_slice_from by lia. lia.
      * fold k1. rewrite Es. exact Hsp.
      * fold k1 in Hit, Hpos, Hj1. rewrite Es in Hit, Hpos, Hj1.
        fold j in Hit, Hpos, Hj1.
        exists (S m), l'. split; [|split; [exact Hst'|]].
        { intros n Hn.
          rewrite (run_loop_more m n LexPlainXactDate
                     (Some LexPlainXactDate) l (at_pos (pos l + w) w l) Hst)
            by (cbn [call]; apply lexPlainXactDate_absorbs; [lia | exact Ed]).
          apply Hrun. rewrite Er, len_slice_from by lia. lia. }
        change (items l1) with (items l) in Hit.
        change (start l1) with (start l) in Hit.
        change (input l1) with (input l) in Hit.
        change (pos l1) with (pos l + w) in Hit, Hpos.
        replace (pos l + w + k1) with (pos l + k) in Hit, Hpos by lia.
        repeat split; assumption.
    + assert (Ek : k = 0) by (unfold k; now apply run_length_stop).
      unfold j in *. rewrite Ek in *. rewrite slice_from_0 in *.
      rewrite !Z.add_0_r.
      destruct (lexPlainXactDate_ends (S (S b)) l Hs Hp ltac:(lia) Hsp)
        as (Hj1 & _).
      eexists 1%nat, (set_state (Some LexPlainXactRest) _).
      split.
      { intros n Hn.
        destruct (lexPlainXactDate_ends (S n) l Hs Hp ltac:(lia) Hsp)
          as (_ & Ec).
        apply (run_loop_step n LexPlainXactDate (Some LexPlainXactRest)
                             l _ Hst).
        exact Ec. }
      unfold at_pos; proj. rewrite <- app_assoc. cbn [app].
      repeat split. exact Hj1.
Qed.

Lemma lexJournal_digit (n : nat) (l : lexer) :
  0 <= pos l <= len (input l) ->
  IsDigit (head_rune (rest l)) = true ->
  lexJournal n l =
  Ret (Some LexPlainXactDate)
      (at_pos (pos l + head_width (rest l)) (head_width (rest l)) l).
Proof.
  intros Hp H. unfold lexJournal. rewrite next_at by exact Hp.
  destruct (digit_at_top _ H) as (E1 & E2 & E3 & _).
  now rewrite E1, E2, E3, H.
Qed.

(** The date of a transaction.  At the top level with no text pending,
    when the input goes on with a digit, then with digits and the
    separators ['.'], ['-'] and ['/'], and then with a space: after one
    call of a state function for each rune of the date and one for the
    space, the producer has sent the whole date -- its first digit, read
    by [lexJournal], included -- as one [itemDate], and the run of
    spaces and tabs as an [itemSpace], and is in the state of the rest
    of the header with no text pending. *)
Theorem date_is_read_rune_by_rune (l : lexer) :
  state l = Some LexJournal ->
  0 <= pos l <= len (input l) -> start l = pos l ->
  IsDigit (head_rune (rest l)) = true ->
  let k := run_length dateRune (rest l) in
  let j := run_length isSpace (slice_from (rest l) k) in
  isSpace (head_rune (slice_from (rest l) k)) = true ->
  exists m l',
    (forall n, len (rest l) < Z.of_nat n ->
               run_loop (m + n) l = run_loop n l') /\
    state l' = Some LexPlainXactRest /\
    items l' =
      items l ++
      [mkItem itemDate (pos l) (slice (input l) (pos l) (pos l + k));
       mkItem itemSpace (pos l + k)
              (slice (input l) (pos l + k) (pos l + k + j))] /\
    pos l' = pos l + k + j /\ start l' = pos l' /\
    1 <= k /\ 1 <= j.
Proof.
  intros Hst Hp Hs Hd k j Hsp.
  destruct (digit_at_top _ Hd) as (_ & _ & _ & Hdr).
  pose proof (dateRune_nonempty _ Hdr) as Hne.
  pose proof (head_width_pos _ Hne) as Hw1.
  pose proof (head_width_range (rest l)) as Hw.
  pose proof (len_rest l Hp) as Hl.
  set (w := head_width (rest l)) in *.
  set (l1 := set_state (Some LexPlainXactDate) (at_pos (pos l + w) w l)).
  assert (Er : rest l1 = slice_from (rest l) w) by (apply rest_at_pos; lia).
  set (k1 := run_length dateRune (rest l1)).
  assert (Ek : k = w + k1).
  { unfold k, k1. rewrite run_length_unfold by exact Hne.
    now rewrite Hdr, Er. }
  pose proof (run_length_range dateRune (rest l1)) as Hk1.
  fold k1 in Hk1. rewrite Er, len_slice_from in Hk1 by lia.
  assert (Es : slice_from (rest l1) k1 = slice_from (rest l) k).
  { rewrite Er, slice_from_slice_from by lia. now rewrite Ek. }
  destruct (date_loop (Z.to_nat (len (rest l))) l1)
    as (m & l' & Hrun & Hst' & Hit & Hpos & Hsl & Hj1).
  - reflexivity.
  - unfold l1, at_pos; proj. lia.
  - unfold l1, at_pos; proj. lia.
  - rewrite Er, len_slice_from by lia. lia.
  - fold k1. rewrite Es. exact Hsp.
  - fold k1 in Hit, Hpos, Hj1. rewrite Es in Hit, Hpos, Hj1.
    fold j in Hit, Hpos, Hj1.
    exists (S m), l'. split; [|split; [exact Hst'|]].
    { intros n Hn.
      rewrite (run_loop_more m n LexJournal (Some LexPlainXactDate) l
                 (at_pos (pos l + w) w l) Hst)
        by (cbn [call]; apply lexJournal_digit; [lia | exact Hd]).
      apply Hrun. rewrite Er, len_slice_from by lia. lia. }
    change (items l1) with (items l) in Hit.
    change (start l1) with (start l) in Hit.
    change (input l1) with (input l) in Hit.
    change (pos l1) with (pos l + w) in Hit, Hpos.
    replace (pos l + w + k1) with (pos l + k) in Hit, Hpos by lia.
    rewrite Hs in Hit.
    repeat split; try assumption. lia.
Qed.

(** ** The code of a transaction, in parentheses *)

(** [scanStringUntil] emits the pending text and the runes of the line
    before the delimiter as an [itemString], unless both are empty. *)
Lemma scanStringUntil_spec (u : rune) (n : nat) (l : lexer) :
  0 <= start l <= pos l -> pos l <= len (input l) ->
  len (rest l) < Z.of_nat n ->
  let k := run_length (before u) (rest l) in
  let l1 := at_pos (pos l + k) (head_width (slice_from (rest l) k)) l in
  scanStringUntil u n l =
  if start l =? pos l + k then Ret false l1
  else Ret true (emit itemString l1).
Proof.
  intros Hs Hp Hn k l1. unfold scanStringUntil.
  rewrite stringUntil_spec by (auto; lia). cbn [bind]. fold k. fold l1.
  pose proof (run_length_range (before u) (rest l)) as Hk. fold k in Hk.
  rewrite len_rest in Hk by lia.
  unfold l1. rewrite current_at_pos, slice_eqb_empty by lia.
  reflexivity.
Qed.

(** [lexPlainXactRest] on an opening parenthesis. *)
Lemma lexPlainXactRest_open (n : nat) (l : lexer) :
  0 <= pos l <= len (input l) -> start l = pos l ->
  len (rest l) < Z.of_nat n ->
  head_rune (rest l) = rn "(" ->
  let k := run_length (before (rn ")")) (slice_from (rest l) 1) in
  let l3 := at_pos (pos l + 1 + k)
                   (head_width (slice_from (slice_from (rest l) 1) k))
                   (emit itemLeftParen (at_pos (pos l + 1) 1 l)) in
  lexPlainXactRest n l =
  Ret (Some LexPlainXactRest) (if k =? 0 then l3 else emit itemString l3).
Proof.
  intros Hp Hs Hn Hr k l3.
  destruct (head_char l "(" Hp Hr ltac:(vm_compute; reflexivity))
    as (Hw & Hp1 & Ht).
  pose proof (len_rest l Hp) as Hl.
  unfold lexPlainXactRest. rewrite next_at by exact Hp. rewrite Hr, Hw.
  change (rn "(" =? rn "=") with false. change (rn "(" =? rn "*") with false.
  change (rn "(" =? rn "!") with false. change (rn "(" =? rn "(") with true.
  cbv iota.
  set (l2 := emit itemLeftParen (at_pos (pos l + 1) 1 l)) in *.
  assert (Er : rest l2 = slice_from (rest l) 1)
    by (apply (rest_at_pos l 1 1); lia).
  rewrite (scanStringUntil_spec (rn ")") n l2);
    [|unfold l2, at_pos; proj; lia | unfold l2, at_pos; proj; lia
     |rewrite Er, len_slice_from by lia; lia].
  cbv zeta. rewrite Er. fold k.
  change (start l2) with (pos l + 1). change (pos l2) with (pos l + 1).
  rewrite eqb_shift. fold l3.
  destruct (k =? 0); reflexivity.
Qed.

(** [lexPlainXactRest] on a closing parenthesis. *)
Lemma lexPlainXactRest_close (n : nat) (l : lexer) :
  0 <= pos l <= len (input l) -> start l = pos l ->
  head_rune (rest l) = rn ")" ->
  lexPlainXactRest n l =
  Ret (Some LexPlainXactRest) (emit itemRightParen (at_pos (pos l + 1) 1 l))
  /\ slice (input l) (pos l) (pos l + 1) = ")".
Proof.
  intros Hp Hs Hr.
  destruct (head_char l ")" Hp Hr ltac:(vm_compute; reflexivity))
    as (Hw & Hp1 & Ht).
  split; [|exact Ht].
  unfold lexPlainXactRest. rewrite next_at by exact Hp. rewrite Hr, Hw.
  reflexivity.
Qed.

(** The code of a transaction.  In the state of the rest of the header
    with no text pending, when the input goes on with ['('], with runes
    of the line other than [')'], and with [')']: after two calls of
    [lexPlainXactRest] the producer has sent an [itemLeftParen], the
    text between the parentheses as an [itemString] unless it is empty,
    and an [itemRightParen], and is in the same state with no text
    pending. *)
Theorem code_in_parentheses (l : lexer) :
  state l = Some LexPlainXactRest ->
  0 <= pos l <= len (input l) -> start l = pos l ->
  head_rune (rest l) = rn "(" ->
  let k := run_length (before (rn ")")) (slice_from (rest l) 1) in
  head_rune (slice_from (rest l) (1 + k)) = rn ")" ->
  exists l',
    (forall n, len (rest l) < Z.of_nat n ->
               run_loop (2 + n) l = run_loop n l') /\
    state l' = Some LexPlainXactRest /\
    items l' =
      items l ++ [mkItem itemLeftParen (pos l) "("] ++
      (if k =? 0 then []
       else [mkItem itemString (pos l + 1)
                    (slice (input l) (pos l + 1) (pos l + 1 + k))]) ++
      [mkItem itemRightParen (pos l + 1 + k) ")"] /\
    pos l' = pos l + k + 2 /\ start l' = pos l'.
Proof.
  intros Hst Hp Hs Hr k Hc.
  pose proof (len_rest l Hp) as Hl.
  destruct (head_char l "(" Hp Hr ltac:(vm_compute; reflexivity))
    as (Hw & Hp1 & _).
  pose proof (run_length_range (before (rn ")")) (slice_from (rest l) 1))
    as Hk. fold k in Hk. rewrite len_slice_from in Hk by lia.
  pose (l3 := at_pos (pos l + 1 + k)
                     (head_width (slice_from (slice_from (rest l) 1) k))
                     (emit itemLeftParen (at_pos (pos l + 1) 1 l))).
  pose (l1 := if k =? 0 then l3 else emit itemString l3).
  assert (Fi : input l1 = input l) by (unfold l1; now destruct (k =? 0)).
  assert (Fp : pos l1 = pos l + 1 + k) by (unfold l1; now destruct (k =? 0)).
  assert (Fs : start l1 = pos l1).
  { unfold l1. destruct (k =? 0) eqn:Ek; [|reflexivity].
    apply Z.eqb_eq in Ek. unfold l3, at_pos; proj. lia. }
  assert (Fit : items l1 =
                items l ++ [mkItem itemLeftParen (pos l) "("] ++
                (if k =? 0 then []
                 else [mkItem itemString (pos l + 1)
                              (slice (input l) (pos l + 1) (pos l + 1 + k))])).
  { destruct (head_char l "(" Hp Hr ltac:(vm_compute; reflexivity))
      as (_ & _ & Ht).
    unfold l1. destruct (k =? 0); unfold l3, at_pos; proj;
      rewrite Hs, Ht, <- ?app_assoc; reflexivity. }
  set (l2 := set_state (Some LexPlainXactRest) l1).
  assert (Er2 : rest l2 = slice_from (rest l) (1 + k)).
  { unfold rest at 1. change (input l2) with (input l1).
    change (pos l2) with (pos l1). rewrite Fi, Fp.
    unfold rest. rewrite slice_from_slice_from by lia.
    f_equal. lia. }
  assert (Hp2 : 0 <= pos l2 <= len (input l2)).
  { change (input l2) with (input l1). change (pos l2) with (pos l1).
    rewrite Fi, Fp.
    assert (1 <= len (slice_from (rest l) (1 + k))).
    { pose proof (len_nonneg (slice_from (rest l) (1 + k))).
      destruct (Z.eq_dec (len (slice_from (rest l) (1 + k))) 0) as [E0|E0];
        [|lia].
      apply head_rune_eof in E0. rewrite E0 in Hc. discriminate. }
    rewrite len_slice_from in H by lia. lia. }
  assert (Hr2 : head_rune (rest l2) = rn ")") by now rewrite Er2.
  destruct (lexPlainXactRest_close 0 l2 Hp2 Fs Hr2) as (_ & Ht2).
  exists (set_state (Some LexPlainXactRest)
                    (emit itemRightParen (at_pos (pos l2 + 1) 1 l2))).
  split; [|split; [reflexivity|]].
  - intros n Hn.
    pose proof (lexPlainXactRest_open (S (S n)) l Hp Hs ltac:(lia) Hr)
      as E1'.
    cbv zeta in E1'. fold k in E1'. fold l3 in E1'. fold l1 in E1'.
    change (2 + n)%nat with (S (S n)).
    rewrite (run_loop_step (S n) LexPlainXactRest (Some LexPlainXactRest)
                           l l1 Hst E1').
    fold l2.
    apply (run_loop_step n LexPlainXactRest (Some LexPlainXactRest) l2 _
                         eq_refl).
    cbn [call]. apply lexPlainXactRest_close; assumption.
  - proj. unfold at_pos; proj.
    change (items l2) with (items l1). change (start l2) with (start l1).
    change (input l2) with (input l1). change (pos l2) with (pos l1).
    rewrite Fs. change (input l2) with (input l1) in Ht2.
    change (pos l2) with (pos l1) in Ht2. rewrite Ht2, Fit, Fp.
    rewrite <- !app_assoc. repeat split; lia.
Qed.

(** ** [accept] and [acceptRun] *)

Lemma acceptRun_spec (valid : string) (n : nat) :
  ContainsRune valid eof = false ->
  forall l,
    0 <= pos l <= len (input l) ->
    len (rest l) < Z.of_nat n ->
    acceptRun valid n l =
    Ret tt (at_pos (pos l + run_length (ContainsRune valid) (rest l))
                   (head_width
                      (slice_from (rest l)
                                  (run_length (ContainsRune valid) (rest l))))
                   l).
Proof.
  intros He. induction n as [|n IH]; intros l Hp Hn.
  - pose proof (len_nonneg (rest l)). lia.
  - cbn [acceptRun]. rewrite next_spec by exact Hp.
    pose proof (head_width_range (rest l)) as Hw.
    pose proof (len_rest l Hp) as Hl.
    destruct (ContainsRune valid (head_rune (rest l))) eqn:E.
    + assert (Hne : 1 <= len (rest l)).
      { pose proof (len_nonneg (rest l)).
        destruct (Z.eq_dec (len (rest l)) 0) as [E0|E0]; [|lia].
        apply head_rune_eof in E0. rewrite E0 in E. congruence. }
      pose proof (head_width_pos _ Hne) as Hw1.
      set (l' := set_pos _ _).
      assert (Er : rest l' = slice_from (rest l) (head_width (rest l)))
        by (apply rest_advance; lia).
      assert (Ep : pos l' = pos l + head_width (rest l)) by reflexivity.
      assert (Ei : input l' = input l) by reflexivity.
      rewrite IH; [|rewrite Ei, Ep; lia|rewrite Er, len_slice_from; lia].
      rewrite (run_length_unfold (ContainsRune valid) (rest l)) by exact Hne.
      rewrite E, Er.
      pose proof (run_length_range (ContainsRune valid)
                    (slice_from (rest l) (head_width (rest l)))) as Hk.
      rewrite len_slice_from in Hk by lia.
      rewrite slice_from_slice_from by lia.
      f_equal. subst l'. lexer_eq l.
    + rewrite run_length_stop by exact E.
      rewrite slice_from_0, backup_at. f_equal. lexer_eq l.
Qed.

(** [accept] and [acceptRun].  No valid set contains [eof], which is no
    code point.  On a scanner within its input, [accept] reads the next
    rune when it is in the valid set and leaves the cursor where it was
    otherwise, and tells which; [acceptRun], with enough budget, returns
    after the longest run of runes of the valid set, the rune that ends
    the run not being consumed, also at the end of the input.  Neither
    sends an item or moves the start of the pending text. *)
Theorem acceptRun_consumes_the_longest_run
        (valid : string) (n : nat) (l : lexer) :
  ContainsRune valid eof = false ->
  0 <= pos l <= len (input l) ->
  len (rest l) < Z.of_nat n ->
  let ok := ContainsRune valid (head_rune (rest l)) in
  let k := run_length (ContainsRune valid) (rest l) in
  fst (accept valid l) = ok /\
  pos (snd (accept valid l)) =
    (if ok then pos l + head_width (rest l) else pos l) /\
  items (snd (accept valid l)) = items l /\
  start (snd (accept valid l)) = start l /\
  exists l',
    acceptRun valid n l = Ret tt l' /\
    pos l' = pos l + k /\ pos l' <= len (input l) /\
    ContainsRune valid (head_rune (rest l')) = false /\
    items l' = items l /\ start l' = start l /\ input l' = input l.
Proof.
  intros He Hp Hn ok k.
  pose proof (run_length_range (ContainsRune valid) (rest l)) as Hk.
  fold k in Hk. rewrite len_rest in Hk by exact Hp.
  assert (Ha : accept valid l =
               if ok then (true, at_pos (pos l + head_width (rest l))
                                        (head_width (rest l)) l)
               else (false, set_width (head_width (rest l)) l)).
  { unfold accept. rewrite next_spec by exact Hp. fold ok.
    destruct ok; [reflexivity | now rewrite backup_at]. }
  rewrite Ha.
  split; [now destruct ok|]. split; [now destruct ok|].
  split; [now destruct ok|]. split; [now destruct ok|].
  rewrite acceptRun_spec by assumption. fold k.
  eexists. split; [reflexivity|].
  rewrite rest_at_pos by lia.
  unfold at_pos; proj.
  repeat split; try lia.
  now apply run_length_maximal.
Qed.

(** ** How a run ends *)

Lemma run_loop_at_eof (n : nat) :
  forall l,
    0 <= pos l -> pos l = len (input l) -> start l = pos l ->
    state l = Some LexJournal ->
    exists l',
      run_loop n l = Timeout l' /\
      state l' = Some LexJournal /\ pos l' = pos l /\
      items l' = items l ++ repeat (mkItem itemEOF (pos l) "") n.
Proof.
  induction n as [|n IH]; intros l H0 Hp Hs Hst.
  - cbn [run_loop]. rewrite Hst. exists l. cbn [repeat].
    now rewrite app_nil_r.
  - destruct (rest_at_end l H0 Hp) as [Er Ew].
    assert (E : call LexJournal (S n) l =
                Ret (Some LexJournal) (emit itemEOF (at_pos (pos l) 0 l))).
    { cbn [call]. unfold lexJournal. rewrite next_at by lia.
      rewrite Er, Ew, Z.add_0_r. reflexivity. }
    rewrite (run_loop_step _ _ _ _ _ Hst E).
    destruct (IH (set_state (Some LexJournal)
                            (emit itemEOF (at_pos (pos l) 0 l))))
      as (l' & E1 & E2 & E3 & E4); try (unfold at_pos; proj; auto; lia).
    exists l'. split; [exact E1|]. split; [exact E2|].
    split; [exact E3|].
    rewrite E4. unfold at_pos; proj. rewrite Hs, slice_empty.
    rewrite <- app_assoc. reflexivity.
Qed.

Lemma spaceRun_state (n : nat) :
  forall l, state (final (spaceRun n l)) = state l.
Proof.
  induction n as [|n IH]; intros l; cbn [spaceRun]; [reflexivity|].
  rewrite peek_eq. destruct (isSpace _); [|reflexivity].
  cbn [snd]. rewrite next_set_width, IH. apply next_fields.
Qed.

Lemma scanSpaces_state (n : nat) (l : lexer) :
  state (final (scanSpaces n l)) = state l.
Proof.
  unfold scanSpaces. pose proof (spaceRun_state n l) as E.
  destruct (spaceRun n l) as [[] l1|l1]; cbn [bind final] in *; [|exact E].
  destruct (String.eqb _ _); exact E.
Qed.

Lemma Returns_ret {A : Type} (l : lexer) (m : outcome A) :
  Returns l m -> exists a l', m = Ret a l' /\ advances l l'.
Proof.
  destruct m as [a l'|l']; cbn; [|contradiction].
  intros H. now exists a, l'.
Qed.

(** The loop of [lexPostings], with enough budget: it returns only
    after it has read a rune, except to leave the block at once, and if
    it does not return it is at the end of the input. *)
Lemma lexPostings_loop_progress (n : nat) :
  forall b l,
    0 <= pos l <= len (input l) -> len (rest l) < Z.of_nat n ->
    match lexPostings_loop n b l with
    | Ret None _ => False
    | Ret (Some s) l' => advances l l' /\ (pos l < pos l' \/ b = true)
    | Timeout l' =>
        pos l' = len (input l') /\ state l' = state l /\ input l' = input l
    end.
Proof.
  induction n as [|n IH]; intros b l Hp Hn.
  - pose proof (len_nonneg (rest l)). lia.
  - pose proof (len_rest l Hp) as Hl.
    destruct (head_rune (rest l) =? eof) eqn:Ee.
    + (* at the end of the input *)
      apply Z.eqb_eq in Ee.
      assert (E0 : pos l = len (input l)).
      { apply head_rune_eof in Ee. lia. }
      destruct (rest_at_end l ltac:(lia) E0) as [Er Ew].
      cbn [lexPostings_loop]. rewrite next_at by exact Hp.
      rewrite Er, Ew, Z.add_0_r.
      change (isEndOfLine eof) with false. change (isSpace eof) with false.
      cbv iota. destruct b.
      * split; [|now right].
        unfold advances, at_pos; proj. split; [reflexivity | lia].
      * change (eof =? rn "*") with false.
        change (eof =? rn "!") with false.
        change (IsLetter eof) with false. cbv iota.
        destruct (lexPostings_spins n (at_pos (pos l) 0 l)) as (w & E);
          [unfold at_pos; proj; lia | exact E0|].
        rewrite E. unfold at_pos; proj. repeat split. exact E0.
    + destruct (next_consumes l Hp Ee) as (Ha & Hp1 & Hl1).
      destruct (not_eof_nonempty _ Ee) as (Hne & Hw1).
      assert (Hlt : pos l < pos (snd (next l))).
      { rewrite next_spec by exact Hp. proj. lia. }
      assert (Hst1 : state (snd (next l)) = state l) by apply next_fields.
      cbn [lexPostings_loop]. rewrite next_parts by exact Hp.
      set (l1 := snd (next l)) in *.
      assert (Hfin : forall (m : outcome (option stateFn)),
                 match m with
                 | Ret None _ => False
                 | Ret (Some s) l' =>
                     advances l1 l' /\ (pos l1 < pos l' \/ True)
                 | Timeout l' =>
                     pos l' = len (input l') /\ state l' = state l1 /\
                     input l' = input l1
                 end ->
                 match m with
                 | Ret None _ => False
                 | Ret (Some s) l' =>
                     advances l l' /\ (pos l < pos l' \/ b = true)
                 | Timeout l' =>
                     pos l' = len (input l') /\ state l' = state l /\
                     input l' = input l
                 end).
      { intros [[s|] l'|l']; [| |].
        - intros (Hx & _). split; [now apply (advances_trans l l1)|].
          left. destruct Hx as (_ & Hx). lia.
        - auto.
        - intros (X1 & X2 & X3). destruct Ha as (Hi & _).
          repeat split; congruence. }
      assert (Hsp : forall t (k : bool -> lexer -> outcome (option stateFn)),
                 (forall a l2, advances (emit t l1) l2 ->
                               state l2 = state l1 ->
                               match k a l2 with
                               | Ret None _ => False
                               | Ret (Some s) l' =>
                                   advances l2 l' /\ (pos l2 < pos l' \/ True)
                               | Timeout l' =>
                                   pos l' = len (input l') /\
                                   state l' = state l2 /\
                                   input l' = input l2
                               end) ->
                 match bind (scanSpaces (S n) (emit t l1)) k with
                 | Ret None _ => False
                 | Ret (Some s) l' =>
                     advances l1 l' /\ (pos l1 < pos l' \/ True)
                 | Timeout l' =>
                     pos l' = len (input l') /\ state l' = state l1 /\
                     input l' = input l1
                 end).
      { intros t k Hk.
        pose proof (scanSpaces_returns (S n) (emit t l1) Hp1 ltac:(change (rest (emit t l1)) with (rest l1); lia)) as HR.
        pose proof (scanSpaces_state (S n) (emit t l1)) as HS.
        destruct (Returns_ret _ _ HR) as (a & l2 & E2 & A2).
        rewrite E2 in HS |- *. cbn [bind final] in *.
        change (state (emit t l1)) with (state l1) in HS.
        specialize (Hk a l2 A2 HS).
        assert (A1 : advances l1 l2).
        { eapply advances_trans; [now apply (advances_emit t)|exact A2]. }
        destruct (k a l2) as [[s|] l'|l']; [| |].
        - destruct Hk as (Hx & _). split; [|now right].
          now apply (advances_trans l1 l2).
        - exact Hk.
        - destruct Hk as (X1 & X2 & X3). destruct A1 as (Hi & _).
          repeat split; congruence. }
      destruct (isEndOfLine _).
      { apply Hfin.
        specialize (IH true (emit itemEOL l1) Hp1
                       ltac:(change (rest (emit itemEOL l1)) with (rest l1);
                             lia)).
        destruct (lexPostings_loop n true (emit itemEOL l1))
          as [[s|] l'|l']; [| |].
        - destruct IH as (Hx & _). split; [|now right].
          eapply advances_trans; [now apply (advances_emit itemEOL)|exact Hx].
        - exact IH.
        - exact IH. }
      destruct b.
      { destruct (isSpace _).
        - pose proof (scanSpaces_returns (S n) l1 Hp1 ltac:(lia)) as HR.
          destruct (Returns_ret _ _ HR) as (a & l2 & E2 & A2).
          rewrite E2. cbn [bind]. split; [|now right].
          now apply (advances_trans l l1).
        - split; [now apply advances_backup_next | now right]. }
      assert (Hloop : forall l2,
                 0 <= pos l2 <= len (input l2) ->
                 len (rest l2) < Z.of_nat n ->
                 match lexPostings_loop n false l2 with
                 | Ret None _ => False
                 | Ret (Some s) l' =>
                     advances l2 l' /\ (pos l2 < pos l' \/ True)
                 | Timeout l' =>
                     pos l' = len (input l') /\ state l' = state l2 /\
                     input l' = input l2
                 end).
      { intros l2 Hp2 Hn2. specialize (IH false l2 Hp2 Hn2).
        destruct (lexPostings_loop n false l2) as [[s|] l'|l']; [| |].
        - destruct IH as (Hx & _). split; [exact Hx | now right].
        - exact IH.
        - exact IH. }
      assert (Hmark : forall t,
                 match bind (scanSpaces (S n) (emit t l1))
                            (fun _ l2 => lexPostings_loop n false l2) with
                 | Ret None _ => False
                 | Ret (Some s) l' =>
                     advances l1 l' /\ (pos l1 < pos l' \/ True)
                 | Timeout l' =>
                     pos l' = len (input l') /\ state l' = state l1 /\
                     input l' = input l1
                 end).
      { intros t. apply Hsp. intros a l2 A2 S2.
        destruct (advances_rest (emit t l1) l2
                    ltac:(change (pos (emit t l1)) with (pos l1); lia) A2)
          as (Hp2 & Hl2).
        change (rest (emit t l1)) with (rest l1) in Hl2.
        apply (Hloop l2); [exact Hp2 | lia]. }
      destruct (_ =? rn "*"); [apply Hfin, Hmark|].
      destruct (_ =? rn "!"); [apply Hfin, Hmark|].
      destruct (IsLetter _).
      { pose proof (scanAccountName_returns (S n) l1 Hp1 ltac:(lia)) as HR.
        destruct (Returns_ret _ _ HR) as (a & l2 & E2 & A2).
        rewrite E2. cbn [bind]. split.
        - now apply (advances_trans l l1).
        - left. destruct A2 as (_ & A2). lia. }
      apply Hfin. apply (Hloop l1); [exact Hp1 | lia].
Qed.

Lemma Steps_weaken (l : lexer) (m : outcome (option stateFn))
      (Q Q' : stateFn -> lexer -> Prop) :
  Steps l m Q ->
  (forall s l', advances l l' -> Q s l' -> Q' s l') ->
  Steps l m Q'.
Proof.
  destruct m as [[s|] l'|l']; cbn; auto.
  intros (Ha & Hq) H. split; auto.
Qed.

(** A call that goes on after a rune has been read. *)
Lemma Steps_consumed (l l1 : lexer) (m : outcome (option stateFn))
      (Q : stateFn -> lexer -> Prop) :
  advances l l1 -> pos l < pos l1 -> Returns l1 m ->
  (forall s l', pos l < pos l' -> Q s l') ->
  Steps l m Q.
Proof.
  intros Ha Hlt HR HQ. destruct m as [[s|] l'|l']; cbn in *;
    [|exact I|contradiction].
  split; [now apply (advances_trans l l1)|].
  apply HQ. destruct HR as (_ & HR). lia.
Qed.

Lemma next_moves (l : lexer) :
  0 <= pos l <= len (input l) ->
  (head_rune (rest l) =? eof) = false ->
  pos l < pos (snd (next l)).
Proof.
  intros Hp Ee. destruct (not_eof_nonempty _ Ee) as (_ & Hw).
  rewrite next_spec by exact Hp. proj. lia.
Qed.

Lemma lexJournal_steps (n : nat) (l : lexer) :
  0 <= pos l <= len (input l) -> len (rest l) < Z.of_nat n ->
  (head_rune (rest l) =? eof) = false ->
  Steps l (lexJournal n l)
        (fun s l' =>
           pos l < pos l' \/
           (s = LexIdentifier /\ rest l' = rest l /\
            isAlphaNumeric (head_rune (rest l)) = true)).
Proof.
  intros Hp Hn Ee. unfold lexJournal. rewrite next_parts by exact Hp.
  destruct (next_consumes l Hp Ee) as (Ha & Hp1 & Hl1).
  pose proof (next_moves l Hp Ee) as Hlt.
  set (l1 := snd (next l)) in *.
  assert (Hc : forall m, Returns l1 m ->
             Steps l m (fun s l' =>
               pos l < pos l' \/
               (s = LexIdentifier /\ rest l' = rest l /\
                isAlphaNumeric (head_rune (rest l)) = true))).
  { intros m HR. apply (Steps_consumed l l1); auto. }
  assert (He : forall t (s : stateFn), Returns l1 (Ret (Some s) (emit t l1)))
    by (intros t s; now apply advances_emit).
  destruct (isSpace _).
  { apply Hc. apply Returns_bind; [apply spaceRun_returns; [exact Hp1 | lia]|].
    intros _ l2 H2.
    destruct (advances_rest l1 l2 ltac:(lia) H2) as [Hp2 _].
    cbn [Returns]. now apply advances_emit. }
  destruct (_ =? rn "~"); [apply Hc, He|].
  destruct (_ =? rn "="); [apply Hc, He|].
  destruct (IsDigit _); [apply Hc; now apply advances_refl|].
  destruct (isAlphaNumeric _) eqn:Ea.
  { cbn [Steps]. split; [now apply advances_backup_next|]. right.
    split; [reflexivity|]. split; [apply rest_backup_next | reflexivity]. }
  destruct (isEndOfLine _); [apply Hc, He|].
  rewrite Ee. exact I.
Qed.

Lemma lexIdentifier_steps (n : nat) (l : lexer) :
  0 <= pos l <= len (input l) -> start l = pos l ->
  len (rest l) < Z.of_nat n ->
  Steps l (lexIdentifier n l)
        (fun s l' =>
           pos l < pos l' \/
           (s = LexJournal /\ rest l' = rest l /\
            isAlphaNumeric (head_rune (rest l)) = false)).
Proof.
  intros Hp Hs Hn.
  destruct (lexIdentifier_skip n l Hp Hn) as (m & w & E1 & E2 & E3).
  pose proof (run_length_range isAlphaNumeric (rest l)) as Hk.
  pose proof (len_rest l Hp) as Hl.
  set (k := run_length isAlphaNumeric (rest l)) in *.
  set (lk := at_pos (pos l + k) w l) in E1.
  assert (Hak : advances l lk) by (apply advances_at_pos; lia).
  destruct (advances_rest l lk ltac:(lia) Hak) as [Hpk _].
  assert (Erk : rest lk = slice_from (rest l) k)
    by (apply rest_at_pos; lia).
  rewrite <- Erk in E3.
  destruct (Z.eq_dec k 0) as [Ek|Ek].
  - (* no rune of a bareword: the word is empty *)
    rewrite E1, (lexIdentifier_stop m lk Hpk E3).
    assert (Erl : rest lk = rest l) by (rewrite Erk, Ek; apply slice_from_0).
    assert (Ew : slice (input lk) (start lk) (pos lk) = "").
    { unfold lk, at_pos; proj. rewrite Hs, Ek, Z.add_0_r.
      apply slice_empty. }
    rewrite Ew. destruct (negb _); [exact I|].
    change (String.eqb "" "include") with false.
    change (String.eqb "" "end") with false.
    change (iota (key "") >? iota itemKeyword) with false. cbv iota.
    cbn [Steps]. split.
    + eapply advances_trans; [exact Hak|].
      eapply advances_trans; [now apply (advances_set_width (head_width (rest lk)))|].
      now apply advances_emit.
    + right. split; [reflexivity|]. split; [exact Erl|].
      now rewrite <- Erl.
  - rewrite E1. apply (Steps_consumed l lk); auto.
    + unfold lk, at_pos; proj. lia.
    + apply lexIdentifier_returns; [exact Hpk|].
      rewrite Erk, len_slice_from by lia. lia.
Qed.

Lemma lexPeriodicXact_steps (n : nat) (l : lexer) :
  0 <= pos l <= len (input l) -> len (rest l) < Z.of_nat n ->
  Steps l (lexPeriodicXact n l) (fun s _ => s = LexPostings).
Proof.
  intros Hp Hn. pose proof (lexPeriodicXact_returns n l Hp Hn) as HR.
  unfold lexPeriodicXact in *.
  destruct (scanSpaces n l) as [a l1|l1]; cbn [bind] in *; [|contradiction].
  destruct (scanStringNote n l1) as [a2 l2|l2]; cbn [bind Returns] in *;
    [|contradiction].
  split; [exact HR | reflexivity].
Qed.

Lemma dateRune_not_eof (r : Z) : dateRune r = true -> (r =? eof) = false.
Proof.
  intros H. destruct (r =? eof) eqn:E; [|reflexivity].
  apply Z.eqb_eq in E. subst r. vm_compute in H. discriminate.
Qed.

Lemma isSpace_not_eof (r : Z) : isSpace r = true -> (r =? eof) = false.
Proof.
  intros H. destruct (r =? eof) eqn:E; [|reflexivity].
  apply Z.eqb_eq in E. subst r. vm_compute in H. discriminate.
Qed.

Lemma lexPlainXactDate_steps (n : nat) (l : lexer) :
  0 <= start l <= pos l -> pos l <= len (input l) ->
  len (rest l) < Z.of_nat n ->
  Steps l (lexPlainXactDate n l) (fun _ l' => pos l < pos l').
Proof.
  intros Hs Hp Hn.
  assert (Hp' : 0 <= pos l <= len (input l)) by lia.
  pose proof (len_rest l Hp') as Hl.
  pose proof (head_width_range (rest l)) as Hw.
  destruct (dateRune (head_rune (rest l))) eqn:Ed.
  - rewrite lexPlainXactDate_absorbs by assumption.
    destruct (not_eof_nonempty _ (dateRune_not_eof _ Ed)) as (_ & Hw1).
    cbn [Steps]. split; [apply advances_at_pos; lia|].
    unfold at_pos; proj. lia.
  - destruct (isSpace (head_rune (rest l))) eqn:Esp.
    + destruct (lexPlainXactDate_ends n l Hs Hp Hn Esp) as (Hj & E).
      rewrite E. cbn [Steps].
      pose proof (run_length_range isSpace (rest l)) as Hk.
      unfold advances, at_pos; proj. repeat split; lia.
    + unfold lexPlainXactDate. rewrite peek_spec by exact Hp'.
      unfold dateRune in Ed. rewrite Ed, Esp.
      destruct (_ =? eof); [exact I|].
      destruct (isEndOfLine _); exact I.
Qed.

Lemma lexPlainXactRest_steps (n : nat) (l : lexer) :
  0 <= pos l <= len (input l) -> len (rest l) < Z.of_nat n ->
  Steps l (lexPlainXactRest n l)
        (fun s l' => pos l < pos l' \/ s = LexPostings).
Proof.
  intros Hp Hn. unfold lexPlainXactRest. rewrite next_parts by exact Hp.
  pose proof (advances_next l Hp) as Ha.
  destruct (advances_rest l (snd (next l)) ltac:(lia) Ha) as [Hp1 Hl1].
  set (l1 := snd (next l)) in *.
  assert (Hc : forall c m,
             head_rune (rest l) = rn c -> Returns l1 m ->
             Steps l m (fun s l' => pos l < pos l' \/ s = LexPostings)).
  { intros c m Er HR. apply (Steps_consumed l l1); auto.
    apply next_moves; [exact Hp|]. rewrite Er.
    pose proof (byte_val_range c). unfold rn, eof. lia. }
  assert (Hsp : forall t (s : stateFn),
             Returns l1 (bind (scanSpaces n (emit t l1))
                              (fun _ l2 => Ret (Some s) l2))).
  { intros t s.
    apply Returns_weaken with (l1 := emit t l1); [now apply advances_emit|].
    apply Returns_bind;
      [apply scanSpaces_returns;
       [exact Hp1 | change (rest (emit t l1)) with (rest l1); lia]|].
    intros _ l2 H2. cbn [Returns]. apply advances_refl.
    apply (advances_rest (emit t l1) l2); [|exact H2].
    change (pos (emit t l1)) with (pos l1). lia. }
  destruct (_ =? rn "=") eqn:E1;
    [apply Z.eqb_eq in E1; apply (Hc "="%char); [exact E1 | apply Hsp]|].
  destruct (_ =? rn "*") eqn:E2;
    [apply Z.eqb_eq in E2; apply (Hc "*"%char); [exact E2 | apply Hsp]|].
  destruct (_ =? rn "!") eqn:E3;
    [apply Z.eqb_eq in E3; apply (Hc "!"%char); [exact E3 | apply Hsp]|].
  destruct (_ =? rn "(") eqn:E4.
  { apply Z.eqb_eq in E4. apply (Hc "("%char); [exact E4|].
    apply Returns_weaken with (l1 := emit itemLeftParen l1);
      [now apply advances_emit|].
    apply Returns_bind;
      [apply scanStringUntil_returns;
       [exact Hp1
       | change (rest (emit itemLeftParen l1)) with (rest l1); lia]|].
    intros _ l2 H2. cbn [Returns]. apply advances_refl.
    apply (advances_rest (emit itemLeftParen l1) l2); [|exact H2].
    change (pos (emit itemLeftParen l1)) with (pos l1). lia. }
  destruct (_ =? rn ")") eqn:E5.
  { apply Z.eqb_eq in E5. apply (Hc ")"%char); [exact E5|].
    cbn [Returns]. now apply advances_emit. }
  unfold l1. rewrite backup_next.
  pose proof (scanStringNote_returns n
                (set_width (width (snd (next l))) l) Hp Hn) as HR.
  destruct (scanStringNote n _) as [a l2|l2]; cbn [bind Returns] in *;
    [|contradiction].
  split; [exact HR | now right].
Qed.

Lemma rank_range (f : stateFn) (r : Z) : 0 <= rank f r <= 1.
Proof. destruct f; cbn; try destruct (isAlphaNumeric r); lia. Qed.

(** Every call of a state function that returns a state, other than
    the top level at the end of the input, brings the end nearer. *)
Lemma call_steps (f : stateFn) (n : nat) (l : lexer) :
  0 <= start l <= pos l -> pos l <= len (input l) ->
  (f <> LexPlainXactDate -> start l = pos l) ->
  len (rest l) < Z.of_nat n ->
  f <> LexPostings ->
  (f = LexJournal -> (head_rune (rest l) =? eof) = false) ->
  Steps l (call f n l) (fun s l' => effort s l' < effort f l).
Proof.
  intros Hs Hp Hc Hn Hf He.
  assert (Hp' : 0 <= pos l <= len (input l)) by lia.
  pose proof (len_rest l Hp') as Hl.
  assert (Hmove : forall s l', advances l l' -> pos l < pos l' ->
                               effort s l' < effort f l).
  { intros s l' (Hi & Ha) Hlt. unfold effort.
    pose proof (rank_range s (head_rune (rest l'))).
    pose proof (rank_range f (head_rune (rest l))).
    rewrite (len_rest l') by (rewrite Hi; lia). rewrite Hi. lia. }
  assert (Hpost : forall l', advances l l' -> rank f (head_rune (rest l)) = 1 ->
                             effort LexPostings l' < effort f l).
  { intros l' (Hi & Ha) Hr. unfold effort. rewrite Hr. cbn [rank].
    rewrite (len_rest l') by (rewrite Hi; lia). rewrite Hi. lia. }
  destruct f; cbn [call]; try congruence.
  - eapply Steps_weaken;
      [apply lexJournal_steps; auto|].
    intros s l' Ha [Hlt|(-> & Er & Ea)]; [now apply Hmove|].
    unfold effort. rewrite Er. cbn [rank]. rewrite Ea. lia.
  - eapply Steps_weaken;
      [apply lexIdentifier_steps; auto; apply Hc; discriminate|].
    intros s l' Ha [Hlt|(-> & Er & Ea)]; [now apply Hmove|].
    unfold effort. rewrite Er. cbn [rank]. rewrite Ea. lia.
  - eapply Steps_weaken; [apply lexPeriodicXact_steps; auto|].
    intros s l' Ha ->. now apply Hpost.
  - eapply Steps_weaken; [apply lexPeriodicXact_steps; auto|].
    intros s l' Ha ->. now apply Hpost.
  - eapply Steps_weaken; [apply lexPlainXactDate_steps; auto|].
    intros s l' Ha Hlt. now apply Hmove.
  - eapply Steps_weaken; [apply lexPlainXactRest_steps; auto|].
    intros s l' Ha [Hlt| ->]; [now apply Hmove | now apply Hpost].
  - cbn [Steps]. split; [now apply advances_refl | now apply Hpost;
                                                   [apply advances_refl|]].
Qed.

Lemma stateFn_eq_dec (f g : stateFn) : {f = g} + {f <> g}.
Proof. decide equality. Defined.

Lemma effort_nonneg (f : stateFn) (l : lexer) : 0 <= effort f l.
Proof.
  unfold effort. pose proof (len_nonneg (rest l)).
  pose proof (rank_range f (head_rune (rest l))). lia.
Qed.

Lemma Ending_step (inp : string) (b : nat) (n : nat) (m : outcome unit) :
  Ending inp (Z.of_nat b) n m -> Ending inp (Z.of_nat (S b)) (S n) m.
Proof.
  intros [H|[(H1 & H2 & H3 & its & j & E & Hj)|H]].
  - now left.
  - right; left. repeat split; auto. exists its, j. split; [exact E | lia].
  - now right; right.
Qed.

(** With a budget above what is left to do, [run] ends in one of the
    three ways. *)
Lemma run_loop_ends (inp : string) :
  forall (b n : nat) (l : lexer) (f : stateFn),
    Inv inp l -> Shaped inp l -> state l = Some f ->
    (f <> LexPlainXactDate -> start l = pos l) ->
    effort f l < Z.of_nat b ->
    Z.of_nat b + len (rest l) <= Z.of_nat n ->
    Ending inp (Z.of_nat b) n (run_loop n l).
Proof.
  induction b as [|b IH]; intros n l f HI HS Hst Hc He Hn.
  - pose proof (effort_nonneg f l). lia.
  - pose proof (Inv_range _ _ HI) as Hr.
    assert (Hi : input l = inp) by apply HI.
    assert (Hp : 0 <= pos l <= len (input l)) by lia.
    pose proof (len_rest l Hp) as Hl.
    pose proof (len_nonneg (rest l)) as Hl0.
    destruct n as [|n]; [lia|].
    assert (Hnext : forall s l1,
               call f (S n) l = Ret (Some s) l1 ->
               advances l l1 -> effort s l1 < effort f l ->
               Ending inp (Z.of_nat (S b)) (S n) (run_loop (S n) l)).
    { intros s l1 E Ha Hd.
      rewrite (run_loop_step n f (Some s) l l1 Hst E).
      apply Ending_step.
      pose proof (call_Post inp f (S n) l HI) as HP.
      pose proof (call_tidy inp f (S n) l HI HS Hc) as (HT & HT2).
      rewrite E in HP, HT, HT2. cbn [Post final] in HP, HT.
      destruct (advances_rest l l1 ltac:(lia) Ha) as (_ & Hl1).
      apply (IH n (set_state (Some s) l1) s).
      - now apply Inv_set_state.
      - exact HT.
      - reflexivity.
      - exact HT2.
      - change (effort s (set_state (Some s) l1)) with (effort s l1). lia.
      - change (rest (set_state (Some s) l1)) with (rest l1). lia. }
    destruct (stateFn_eq_dec f LexPostings) as [Ef|Ef].
    { (* the postings: a rune is read, or the loop has no end *)
      subst f.
      pose proof (lexPostings_loop_progress (S n) false l Hp ltac:(lia))
        as HP1.
      destruct (lexPostings_loop (S n) false l) as [[s|] l1|l1] eqn:E;
        [| contradiction |].
      - destruct HP1 as (Ha & [Hlt|Hx]); [|discriminate].
        apply (Hnext s l1); [exact E | exact Ha|].
        destruct Ha as (Hi1 & Ha). unfold effort.
        pose proof (rank_range s (head_rune (rest l1))).
        cbn [rank]. rewrite (len_rest l1) by (rewrite Hi1; lia).
        rewrite Hi1. lia.
      - destruct HP1 as (P1 & S1 & I1).
        right; right. cbn [run_loop]. rewrite Hst. cbn [call].
        unfold lexPostings. rewrite E. cbn [bind returned final].
        repeat split; congruence. }
    assert (Hcall : (f = LexJournal ->
                     (head_rune (rest l) =? eof) = false) ->
                    Ending inp (Z.of_nat (S b)) (S n) (run_loop (S n) l)).
    { intros Hj.
      pose proof (call_steps f (S n) l ltac:(lia) ltac:(lia)
                    Hc ltac:(lia) Ef Hj) as HS1.
      destruct (call f (S n) l) as [[s|] l1|l1] eqn:E;
        cbn [Steps] in HS1; [| |contradiction].
      - destruct HS1. now apply (Hnext s l1).
      - left. cbn [run_loop]. rewrite Hst, E. cbn [bind].
        now rewrite run_loop_nil. }
    destruct (head_rune (rest l) =? eof) eqn:Ee; [|now apply Hcall].
    destruct (stateFn_eq_dec f LexJournal) as [Ej|Ej];
      [|apply Hcall; intros; contradiction].
    (* the top level at the end of the input: [itemEOF] again and again *)
    subst f. apply Z.eqb_eq in Ee.
    assert (E0 : pos l = len (input l)).
    { apply head_rune_eof in Ee. lia. }
    destruct (run_loop_at_eof (S n) l ltac:(lia) E0
                (Hc ltac:(discriminate)) Hst)
      as (l' & E & S1 & P1 & I1).
    right; left. rewrite E. cbn [returned final].
    split; [reflexivity|]. split; [exact S1|].
    split; [congruence|].
    exists (items l), (S n). split; [|lia].
    rewrite I1. now rewrite E0, Hi.
Qed.

(** How a run ends.  On every input, once the budget exceeds three
    times the length of the input by 2, the producer is in one of three
    situations, and in no other.  It has returned, after an error: the
    last item is an [itemError] and the channel is closed.  Or it is at
    the top level at the end of the input, where it sends [itemEOF]
    again and again: all the budget above twice the length of the input
    and 2 has gone into such items.  Or it is in the loop of
    [lexPostings] at the end of the input.  In particular no run ends
    after an [itemEOF]. *)
Theorem run_ends_in_one_of_three_ways (inp : string) (n : nat) :
  3 * len inp + 2 <= Z.of_nat n ->
  let m := scan n inp in
  (returned m = true /\ closed (final m) = true /\
   exists its p msg, items (final m) = its ++ [mkItem itemError p msg])
  \/ (returned m = false /\ state (final m) = Some LexJournal /\
      pos (final m) = len inp /\
      exists its j,
        items (final m) = its ++ repeat (mkItem itemEOF (len inp) "") j /\
        Z.of_nat n <= Z.of_nat j + (2 * len inp + 2))
  \/ (returned m = false /\ state (final m) = Some LexPostings /\
      pos (final m) = len inp).
Proof.
  intros Hn. cbv zeta. unfold scan, run.
  pose proof (len_nonneg inp) as H0.
  set (l0 := set_state (Some LexJournal) (lex "" inp)).
  assert (HI : Inv inp l0) by apply Inv_set_state, lex_Inv.
  assert (Er : rest l0 = inp) by apply slice_from_0.
  destruct (run_loop_ends inp (Z.to_nat (2 * len inp + 2)) n l0 LexJournal)
    as [H|[H|H]].
  - exact HI.
  - constructor.
  - reflexivity.
  - reflexivity.
  - unfold effort. rewrite Er.
    pose proof (rank_range LexJournal (head_rune inp)). lia.
  - rewrite Er. lia.
  - left. pose proof (run_loop_shape inp n l0 HI ltac:(discriminate)) as HS.
    destruct (run_loop n l0) as [a l'|l']; cbn [returned final] in *;
      [|discriminate].
    destruct HS as ((l1 & msg & _ & E) & Hc).
    split; [reflexivity|]. split; [exact Hc|].
    now exists (items l1), (start l1), msg.
  - right; left. rewrite Z2Nat.id in H by lia. exact H.
  - right; right. exact H.
Qed.

(** ** The keyword [end] *)

(** [lexIdentifier] entered on a space or an end-of-line character with
    no text pending: the bareword is empty, and is sent. *)
Lemma lexIdentifier_empty (m : nat) (l : lexer) :
  0 <= pos l <= len (input l) -> start l = pos l ->
  isSpace (head_rune (rest l)) || isEndOfLine (head_rune (rest l)) = true ->
  lexIdentifier (S m) l =
  Ret (Some LexJournal)
      (emit itemIdentifier (set_width (head_width (rest l)) l)).
Proof.
  intros Hp Hs Ht.
  rewrite (lexIdentifier_stop m l Hp (terminator_not_alnum _ Ht)).
  rewrite Ht. cbn [negb]. rewrite Hs, slice_empty. reflexivity.
Qed.

Lemma spaces_then_terminator (tail : string) :
  isEndOfLine (head_rune (slice_from tail (run_length isSpace tail))) = true ->
  isSpace (head_rune tail) || isEndOfLine (head_rune tail) = true.
Proof.
  intros H. destruct (isSpace (head_rune tail)) eqn:E; [reflexivity|].
  rewrite run_length_stop, slice_from_0 in H by exact E. exact H.
Qed.

(** [lexIdentifier] on the bareword "end". *)
Lemma lexIdentifier_end (n : nat) (l : lexer) (tail : string) :
  0 <= start l -> start l = pos l -> pos l <= len (input l) ->
  rest l = "end" +++ tail ->
  isSpace (head_rune tail) || isEndOfLine (head_rune tail) = true ->
  len (rest l) < Z.of_nat n ->
  let sp := run_length isSpace tail in
  let l4 := at_pos (pos l + 3 + sp) (head_width (slice_from tail sp))
                   (emit itemEnd (at_pos (pos l + 3) (head_width tail) l)) in
  lexIdentifier n l =
  Ret (Some LexIdentifier) (if sp =? 0 then l4 else emit itemSpace l4) /\
  slice (input l) (pos l) (pos l + 3) = "end" /\
  slice (input l) (pos l + 3) (pos l + 3 + sp) = slice tail 0 sp.
Proof.
  intros H0 Hs Hp Hrest Hterm Hn sp l4.
  assert (Hp' : 0 <= pos l <= len (input l)) by lia.
  pose proof (len_rest l Hp') as Hl.
  assert (Hlen : len (rest l) = 3 + len tail)
    by (rewrite Hrest, len_app; reflexivity).
  pose proof (len_nonneg tail) as Htl.
  pose proof (run_length_range isSpace tail) as Hsp. fold sp in Hsp.
  assert (Etail : slice_from (rest l) 3 = tail)
    by (rewrite Hrest; apply (slice_from_app "end" tail)).
  assert (Eword : slice (input l) (pos l) (pos l + 3) = "end").
  { rewrite <- (Z.add_0_r (pos l)) at 1.
    rewrite slice_rest by lia. rewrite Hrest.
    apply (slice_app_l "end" tail). }
  assert (Espace : slice (input l) (pos l + 3) (pos l + 3 + sp) =
                   slice tail 0 sp).
  { rewrite <- Z.add_assoc. rewrite slice_rest by lia.
    rewrite <- Etail. rewrite slice_slice_from by lia.
    f_equal; lia. }
  split; [|split; [exact Eword | exact Espace]].
  assert (Hk : run_length isAlphaNumeric (rest l) = 3).
  { rewrite Hrest. cbn [append].
    repeat (rewrite run_length_ascii by (vm_compute; reflexivity);
            match goal with
            | |- context [isAlphaNumeric (byte_val ?c)] =>
                change (isAlphaNumeric (byte_val c)) with true
            end; cbv iota).
    rewrite run_length_stop; [reflexivity|].
    now apply terminator_not_alnum. }
  destruct (lexIdentifier_skip n l Hp' Hn) as (m & w & E1 & E2 & E3).
  rewrite Hk in E1, E2, E3. rewrite Etail in E3.
  set (lk := at_pos (pos l + 3) w l) in E1.
  assert (Hpk : 0 <= pos lk <= len (input lk))
    by (unfold lk, at_pos; proj; lia).
  assert (Erk : rest lk = tail)
    by (unfold lk; rewrite rest_at_pos by lia; exact Etail).
  rewrite <- Erk in E3.
  rewrite (lexIdentifier_stop m lk Hpk E3) in E1.
  rewrite Erk, Hterm in E1. cbn [negb] in E1.
  assert (Ew : slice (input lk) (start lk) (pos lk) = "end").
  { unfold lk, at_pos; proj. now rewrite Hs. }
  rewrite Ew in E1.
  change (String.eqb "end" "include") with false in E1.
  change (String.eqb "end" "end") with true in E1. cbv iota in E1.
  assert (E3' : set_width (head_width tail) lk =
                at_pos (pos l + 3) (head_width tail) l)
    by (unfold lk; lexer_eq l).
  rewrite E3' in E1.
  set (l3 := emit itemEnd (at_pos (pos l + 3) (head_width tail) l)) in *.
  assert (Er3 : rest l3 = tail).
  { change (rest l3) with (rest (at_pos (pos l + 3) (head_width tail) l)).
    rewrite rest_at_pos by lia. exact Etail. }
  rewrite (scanSpaces_spec (S m) l3) in E1;
    [|unfold l3, at_pos; proj; lia | unfold l3, at_pos; proj; lia
     |rewrite Er3; lia].
  cbv zeta in E1. rewrite Er3 in E1. fold sp in E1.
  change (start l3) with (pos l + 3) in E1.
  change (pos l3) with (pos l + 3) in E1.
  rewrite eqb_shift in E1. fold l4 in E1.
  rewrite E1. destruct (sp =? 0); reflexivity.
Qed.

(** The keyword [end] before the end of a line.  In the state of a
    bareword with no text pending, when the input goes on with "end",
    with spaces or tabs, if any, and with an end-of-line character:
    after two calls of [lexIdentifier] the producer has sent an
    [itemEnd], the spaces as an [itemSpace], and an [itemIdentifier]
    whose text is empty -- the bareword that the second call found
    before the end of the line -- and is at the top level, the
    end-of-line character not being read. *)
Theorem end_before_the_end_of_a_line (l : lexer) (tail : string) :
  state l = Some LexIdentifier ->
  0 <= start l -> start l = pos l -> pos l <= len (input l) ->
  rest l = "end" +++ tail ->
  let sp := run_length isSpace tail in
  isEndOfLine (head_rune (slice_from tail sp)) = true ->
  exists l',
    (forall n, len (rest l) < Z.of_nat n ->
               run_loop (2 + n) l = run_loop n l') /\
    state l' = Some LexJournal /\
    items l' =
      items l ++ [mkItem itemEnd (pos l) "end"] ++
      (if sp =? 0 then []
       else [mkItem itemSpace (pos l + 3) (slice tail 0 sp)]) ++
      [mkItem itemIdentifier (pos l + 3 + sp) ""] /\
    pos l' = pos l + 3 + sp /\ start l' = pos l' /\
    isEndOfLine (head_rune (rest l')) = true.
Proof.
  intros Hst H0 Hs Hp Hrest sp Heol.
  pose proof (spaces_then_terminator tail Heol) as Hterm.
  assert (Hp' : 0 <= pos l <= len (input l)) by lia.
  pose proof (len_rest l Hp') as Hl.
  assert (Hlen : len (rest l) = 3 + len tail)
    by (rewrite Hrest, len_app; reflexivity).
  pose proof (len_nonneg tail) as Htl.
  pose proof (run_length_range isSpace tail) as Hsp. fold sp in Hsp.
  assert (Etail : slice_from (rest l) 3 = tail)
    by (rewrite Hrest; apply (slice_from_app "end" tail)).
  pose (l4 := at_pos (pos l + 3 + sp) (head_width (slice_from tail sp))
                     (emit itemEnd (at_pos (pos l + 3) (head_width tail) l))).
  pose (l5 := set_state (Some LexIdentifier)
                        (if sp =? 0 then l4 else emit itemSpace l4)).
  assert (F5 : input l5 = input l /\ pos l5 = pos l + 3 + sp /\
               start l5 = pos l + 3 + sp).
  { unfold l5. destruct (sp =? 0) eqn:E; unfold l4, at_pos; proj;
      repeat split. apply Z.eqb_eq in E. lia. }
  destruct F5 as (Fi & Fp & Fs).
  assert (Er5 : rest l5 = slice_from tail sp).
  { unfold rest. rewrite Fi, Fp. rewrite <- Z.add_assoc.
    rewrite <- slice_from_slice_from by lia.
    change (slice_from (input l) (pos l)) with (rest l).
    rewrite <- slice_from_slice_from by lia. now rewrite Etail. }
  assert (Hp5 : 0 <= pos l5 <= len (input l5)) by (rewrite Fi, Fp; lia).
  assert (Ht5 : isSpace (head_rune (rest l5))
                || isEndOfLine (head_rune (rest l5)) = true).
  { rewrite Er5, Heol. apply orb_true_r. }
  exists (set_state (Some LexJournal)
                    (emit itemIdentifier
                          (set_width (head_width (rest l5)) l5))).
  split; [|split; [reflexivity|]].
  - intros n Hn.
    destruct (lexIdentifier_end (S (S n)) l tail H0 Hs Hp Hrest Hterm
                                ltac:(lia)) as (E1 & _).
    cbv zeta in E1. fold sp in E1. fold l4 in E1.
    change (2 + n)%nat with (S (S n)).
    rewrite (run_loop_step (S n) LexIdentifier (Some LexIdentifier) l _
                           Hst E1).
    fold l5.
    apply (run_loop_step n LexIdentifier (Some LexJournal) l5 _ eq_refl).
    cbn [call]. apply lexIdentifier_empty; [exact Hp5 | congruence | exact Ht5].
  - destruct (lexIdentifier_end (S (Z.to_nat (len (rest l)))) l tail H0 Hs Hp
                                Hrest Hterm ltac:(lia)) as (_ & Ew & Esp).
    fold sp in Esp.
    change (rest (set_state (Some LexJournal)
                    (emit itemIdentifier
                          (set_width (head_width (rest l5)) l5))))
      with (rest l5).
    proj. rewrite Fs, Fp, Fi, slice_empty, Er5.
    split; [|repeat split; exact Heol].
    unfold l5. destruct (sp =? 0) eqn:E; unfold l4, at_pos; proj;
      rewrite Hs, Ew, <- ?app_assoc; cbn [app]; [reflexivity|].
    now rewrite Esp.
Qed.

(** ** The runes that the top level refuses *)

(** The unrecognized character.  At the top level, a rune that is
    neither a space or a tab, nor ['~'], ['='], a digit, a letter, an
    underscore or an end-of-line character, and that is not the end of
    the input, is an error: the item [itemError] with the message
    "unrecognized character in directive: " and the rune is sent, and
    the scan halts.  Such a rune is [';']: a line of the journal that
    begins with a comment stops the scan. *)
Theorem unrecognized_character_halts (n : nat) (l : lexer) :
  (0 < n)%nat -> 0 <= pos l <= len (input l) ->
  let r := head_rune (rest l) in
  isSpace r = false -> r <> rn "~" -> r <> rn "=" ->
  isAlphaNumeric r = false -> isEndOfLine r = false -> r <> eof ->
  halts_with n LexJournal l
             ("unrecognized character in directive: " +++ fmt_U r).
Proof.
  intros Hn Hp r H1 H2 H3 H4 H5 H6.
  assert (Hd : IsDigit r = false).
  { unfold isAlphaNumeric in H4.
    apply orb_false_iff in H4 as [_ H4]. exact H4. }
  assert (E : call LexJournal n l =
              Ret None
                  (snd (errorf ("unrecognized character in directive: "
                                +++ fmt_U r)
                               (at_pos (pos l + head_width (rest l))
                                       (head_width (rest l)) l)))).
  { cbn [call]. unfold lexJournal. rewrite next_at by exact Hp. fold r.
    rewrite H1, Hd, H4, H5.
    replace (r =? rn "~") with false by (symmetry; now apply Z.eqb_neq).
    replace (r =? rn "=") with false by (symmetry; now apply Z.eqb_neq).
    replace (r =? eof) with false by (symmetry; now apply Z.eqb_neq).
    reflexivity. }
  eexists. split; [exact E|]. split; [reflexivity|].
  intros Hst. now apply run_loop_halts with (f := LexJournal).
Qed.

(** ** What [lexPostings] does not match *)

Lemma unmatched_cases (r : Z) :
  unmatched r = true ->
  isEndOfLine r = false /\ (r =? rn "*") = false /\ (r =? rn "!") = false /\
  IsLetter r = false /\ (r =? eof) = false.
Proof.
  unfold unmatched. intros H.
  repeat (apply andb_prop in H as [H ?]).
  repeat split; now apply negb_true_iff.
Qed.

(** The loop of [lexPostings], no indentation being expected, passes
    over the runes that match none of its cases. *)
Lemma lexPostings_loop_skip (n : nat) :
  forall l,
    0 <= pos l <= len (input l) ->
    len (rest l) < Z.of_nat n ->
    exists m w,
      lexPostings_loop n false l =
      lexPostings_loop (S m) false
        (at_pos (pos l + run_length unmatched (rest l)) w l) /\
      len (rest l) - run_length unmatched (rest l) <= Z.of_nat m /\
      unmatched
        (head_rune (slice_from (rest l) (run_length unmatched (rest l))))
      = false.
Proof.
  induction n as [|n IH]; intros l Hp Hn.
  - pose proof (len_nonneg (rest l)). lia.
  - pose proof (head_width_range (rest l)) as Hw.
    pose proof (len_rest l Hp) as Hl.
    destruct (unmatched (head_rune (rest l))) eqn:E.
    + destruct (unmatched_cases _ E) as (E1 & E2 & E3 & E4 & E5).
      destruct (not_eof_nonempty _ E5) as (Hne & Hw1).
      assert (Estep : lexPostings_loop (S n) false l =
                      lexPostings_loop n false
                        (set_pos (pos l + head_width (rest l))
                                 (set_width (head_width (rest l)) l))).
      { cbn [lexPostings_loop]. rewrite next_spec by exact Hp.
        now rewrite E1, E2, E3, E4. }
      rewrite Estep.
      set (l' := set_pos _ _).
      assert (Er : rest l' = slice_from (rest l) (head_width (rest l)))
        by (apply rest_advance; lia).
      assert (Ep : pos l' = pos l + head_width (rest l)) by reflexivity.
      assert (Ei : input l' = input l) by reflexivity.
      destruct (IH l') as (m & w & F1 & F2 & F3);
        [rewrite Ei, Ep; lia|rewrite Er, len_slice_from; lia|].
      exists m, w.
      rewrite (run_length_unfold unmatched (rest l)) by exact Hne.
      rewrite E. rewrite Er in *.
      pose proof (run_length_range unmatched
                    (slice_from (rest l) (head_width (rest l)))) as Hk.
      rewrite len_slice_from in Hk, F2 by lia.
      rewrite slice_from_slice_from in F3 by lia.
      split; [|split; [lia | exact F3]].
      rewrite F1. apply (f_equal (lexPostings_loop (S m) false)).
      subst l'. lexer_eq l.
    + exists n, (width l).
      rewrite run_length_stop by exact E. rewrite slice_from_0.
      split; [|split; [lia | exact E]].
      apply (f_equal (lexPostings_loop (S n) false)). lexer_eq l.
Qed.

(** What [lexPostings] does not match.  Entered with no indentation
    expected, the loop of [lexPostings] reads the runes that are neither
    an end-of-line character, ['*'], ['!'] nor a letter -- the spaces
    and the digits of an amount are such runes -- without sending an
    item and without moving the start of the pending text.  When an
    end-of-line character follows, and then a rune that is neither a
    space nor an end-of-line character, the [itemEOL] that is sent
    carries all the text read since the last item, and the top-level
    state is returned with that rune pushed back. *)
Theorem lexPostings_passes_over_what_it_does_not_match
        (n : nat) (l : lexer) :
  0 <= start l <= pos l -> pos l <= len (input l) ->
  len (rest l) < Z.of_nat n ->
  let k := run_length unmatched (rest l) in
  let s := slice_from (rest l) k in
  let w := head_width s in
  isEndOfLine (head_rune s) = true ->
  isSpace (head_rune (slice_from s w)) = false ->
  isEndOfLine (head_rune (slice_from s w)) = false ->
  exists l',
    lexPostings n l = Ret (Some LexJournal) l' /\
    items l' =
      items l ++
      [mkItem itemEOL (start l)
              (slice (input l) (start l) (pos l + k + w))] /\
    pos l' = pos l + k + w /\ start l' = pos l' /\ 1 <= w.
Proof.
  intros Hs Hp Hn k s w Heol Hsp2 Heol2.
  assert (Hp' : 0 <= pos l <= len (input l)) by lia.
  pose proof (len_rest l Hp') as Hl.
  pose proof (run_length_range unmatched (rest l)) as Hk. fold k in Hk.
  destruct (lexPostings_loop_skip n l Hp' Hn) as (m & w0 & E1 & E2 & _).
  fold k in E1, E2.
  set (lk := at_pos (pos l + k) w0 l) in E1.
  assert (Erk : rest lk = s) by (apply rest_at_pos; lia).
  assert (Hpk : 0 <= pos lk <= len (input lk))
    by (unfold lk, at_pos; proj; lia).
  assert (Hne : 1 <= len s).
  { pose proof (len_nonneg s).
    destruct (Z.eq_dec (len s) 0) as [E0|E0]; [|lia].
    apply head_rune_eof in E0. rewrite E0 in Heol. discriminate. }
  pose proof (head_width_pos s Hne) as Hw1. fold w in Hw1.
  pose proof (head_width_range s) as Hw. fold w in Hw.
  assert (Hls : len s = len (rest l) - k)
    by (unfold s; rewrite len_slice_from by lia; lia).
  destruct m as [|m]; [lia|].
  unfold lexPostings. rewrite E1.
  (* the end-of-line character *)
  assert (Estep1 : lexPostings_loop (S (S m)) false lk =
                   lexPostings_loop (S m) true
                     (emit itemEOL (at_pos (pos l + k + w) w lk))).
  { cbn [lexPostings_loop]. rewrite next_at by exact Hpk.
    rewrite Erk. fold w. rewrite Heol. reflexivity. }
  rewrite Estep1.
  set (l2 := emit itemEOL (at_pos (pos l + k + w) w lk)).
  assert (Er2 : rest l2 = slice_from s w).
  { change (rest l2) with (rest (at_pos (pos lk + w) w lk)).
    rewrite rest_at_pos by (rewrite ?Erk; unfold lk, at_pos; proj; lia).
    now rewrite Erk. }
  assert (Hp2 : 0 <= pos l2 <= len (input l2))
    by (unfold l2, lk, at_pos; proj; lia).
  (* the rune that follows it *)
  assert (Estep2 : lexPostings_loop (S m) true l2 =
                   Ret (Some LexJournal)
                       (set_width (head_width (rest l2)) l2)).
  { cbn [lexPostings_loop]. rewrite next_spec by exact Hp2.
    rewrite Er2, Heol2, Hsp2. now rewrite backup_at. }
  rewrite Estep2. eexists. split; [reflexivity|].
  unfold l2, lk, at_pos; proj. repeat split. exact Hw1.
Qed.

(** ** How the items are printed *)

Lemma key_inv (w : string) :
  (iota (key w) >? iota itemKeyword) = true ->
  (w = "include" /\ key w = itemInclude) \/
  (w = "account" /\ key w = itemAccountKeyword) \/
  (w = "end" /\ key w = itemEnd) \/
  (w = "alias" /\ key w = itemAlias) \/
  (w = "P" /\ key w = itemPrice).
Proof.
  unfold key, key_table, lookup.
  destruct (String.eqb w "include") eqn:E1;
    [apply String.eqb_eq in E1; now left|].
  destruct (String.eqb w "account") eqn:E2;
    [apply String.eqb_eq in E2; now right; left|].
  destruct (String.eqb w "end") eqn:E3;
    [apply String.eqb_eq in E3; now right; right; left|].
  destruct (String.eqb w "alias") eqn:E4;
    [apply String.eqb_eq in E4; now right; right; right; left|].
  destruct (String.eqb w "P") eqn:E5;
    [apply String.eqb_eq in E5; now right; right; right; right|].
  cbn. discriminate.
Qed.

(** How the items are printed.  For an item of a scan, the method
    [String] prints an [itemEOF] as "EOF", an [itemError] as its
    message, and a keyword item as its key between angle brackets:
    "<include>", "<account>", "<end>", "<alias>" or "<P>", according to
    its kind. *)
Theorem keyword_items_print_their_key (inp : string) (n : nat) (t : item) :
  In t (items (final (scan n inp))) ->
  (typ t = itemEOF -> item_String t = "EOF") /\
  (typ t = itemError -> item_String t = val t) /\
  (typ t = itemInclude -> item_String t = "<include>") /\
  (typ t = itemAccountKeyword -> item_String t = "<account>") /\
  (typ t = itemEnd -> item_String t = "<end>") /\
  (typ t = itemAlias -> item_String t = "<alias>") /\
  (typ t = itemPrice -> item_String t = "<P>").
Proof.
  intros Hin.
  assert (HS : Shaped inp (final (scan n inp))).
  { unfold scan, run. apply run_loop_tidy.
    - apply Inv_set_state, lex_Inv.
    - constructor.
    - reflexivity. }
  unfold Shaped in HS. rewrite Forall_forall in HS.
  specialize (HS t Hin). unfold shaped in HS.
  assert (Hkw : forall k w,
             typ t = k -> (iota k >? iota itemKeyword) = true ->
             key (val t) = k -> key w = k ->
             (forall w', key w' = k -> w' = w) ->
             item_String t = "<" +++ w +++ ">").
  { intros k w Et Hgt Hkey _ Hu.
    assert (Ev : val t = w) by (apply Hu; exact Hkey).
    unfold item_String. rewrite Et, Ev.
    destruct k; cbn in Hgt; try discriminate; reflexivity. }
  assert (Hu : forall k w, key w = k ->
             (iota k >? iota itemKeyword) = true ->
             forall w', key w' = k -> w' = w).
  { intros k w E Hgt w' E'.
    assert (G : (iota (key w) >? iota itemKeyword) = true) by now rewrite E.
    assert (G' : (iota (key w') >? iota itemKeyword) = true)
      by now rewrite E'.
    destruct (key_inv w G) as [(A & B)|[(A & B)|[(A & B)|[(A & B)|(A & B)]]]];
      destruct (key_inv w' G')
        as [(A' & B')|[(A' & B')|[(A' & B')|[(A' & B')|(A' & B')]]]];
      try congruence. }
  split; [intros Et; unfold item_String; now rewrite Et|].
  split; [intros Et; unfold item_String; now rewrite Et|].
  repeat split; intros Et; rewrite Et in HS; cbv iota in HS.
  - apply (Hkw itemInclude "include"); auto. now apply Hu.
  - apply (Hkw itemAccountKeyword "account"); auto. now apply Hu.
  - apply (Hkw itemEnd "end"); auto. now apply Hu.
  - apply (Hkw itemAlias "alias"); auto. now apply Hu.
  - apply (Hkw itemPrice "P"); auto. now apply Hu.
Qed.

(** ** The rune after a bareword *)

(** The rune after a bareword.  When the run of alphanumeric runes that
    [lexIdentifier] reads is followed by a rune that is neither a space
    or a tab nor an end-of-line character -- a punctuation character
    such as [':'] as well as the end of the input -- the bareword is
    not sent: [lexIdentifier] sends the error "bad character " with the
    rendering of that rune, at the start of the bareword, and the scan
    halts. *)
Theorem bareword_before_a_bad_character (n : nat) (l : lexer) :
  0 <= pos l <= len (input l) ->
  len (rest l) < Z.of_nat n ->
  let k := run_length isAlphaNumeric (rest l) in
  let r := head_rune (slice_from (rest l) k) in
  isSpace r || isEndOfLine r = false ->
  halts_with n LexIdentifier l ("bad character " +++ fmt_U r).
Proof.
  intros Hp Hn k r Hr.
  destruct (lexIdentifier_skip n l Hp Hn) as (m & w & E1 & _ & E3).
  fold k in E1, E3.
  pose proof (len_rest l Hp) as Hl.
  pose proof (run_length_range isAlphaNumeric (rest l)) as Hk. fold k in Hk.
  set (lk := at_pos (pos l + k) w l) in E1.
  assert (Hpk : 0 <= pos lk <= len (input lk))
    by (unfold lk, at_pos; proj; lia).
  assert (Erk : rest lk = slice_from (rest l) k)
    by (apply rest_at_pos; lia).
  rewrite <- Erk in E3.
  rewrite (lexIdentifier_stop m lk Hpk E3) in E1.
  rewrite Erk in E1. fold r in E1. rewrite Hr in E1. cbn [negb] in E1.
  eexists. split; [exact E1|]. split; [reflexivity|].
  intros Hs. apply run_loop_halts with (f := LexIdentifier); auto.
  pose proof (len_nonneg (rest l)). lia.
Qed.

End Lexer.

(** ** The theorems at concrete scanners

    The library parameters are instantiated by [latin1_only] and
    [fmt_U_ascii]; the inputs are ASCII, on which the range tables are
    not consulted. *)

Lemma C10_witness :
  halts_with latin1_only latin1_only fmt_U_ascii 4 LexIdentifier
    (set_state (Some LexIdentifier) (lex "" "abc"))
    ("bad character " +++ fmt_U_ascii eof).
Proof.
  apply (C10_bareword_at_end_of_input latin1_only latin1_only fmt_U_ascii 4
           (set_state (Some LexIdentifier) (lex "" "abc"))).
  - vm_compute. split; discriminate.
  - vm_compute. reflexivity.
  - vm_compute. reflexivity.
Defined.

Lemma C5_witness :
  exists more,
    items (final (lexIdentifier latin1_only latin1_only fmt_U_ascii 8
                                (lex "" "alias x"))) =
    mkItem itemAlias 0 "alias" :: more.
Proof.
  assert (H1 : 0 <= start (lex "" "alias x") <= pos (lex "" "alias x"))
    by (vm_compute; split; discriminate).
  assert (H2 : pos (lex "" "alias x") <= len (input (lex "" "alias x")))
    by (vm_compute; discriminate).
  assert (H3 : len (rest (lex "" "alias x")) < Z.of_nat 8)
    by (vm_compute; reflexivity).
  destruct (C5_keyword_lookup latin1_only latin1_only fmt_U_ascii 8
              (lex "" "alias x") H1 H2 H3 eq_refl) as [_ H].
  exact H.
Defined.

Lemma C9_witness :
  (exists l',
     lexIdentifier latin1_only latin1_only fmt_U_ascii 12
                   (lex "" "include x") = Ret (Some LexJournal) l' /\
     items l' = [mkItem itemInclude 0 "include"; mkItem itemSpace 7 " ";
                 mkItem itemString 8 "x"]) /\
  (exists l',
     lexIdentifier latin1_only latin1_only fmt_U_ascii 12
                   (lex "" "include ") = Ret None l' /\
     items l' = [mkItem itemInclude 0 "include"; mkItem itemSpace 7 " ";
                 mkItem itemError 8 "missing filename after 'include'"]).
Proof.
  split.
  - destruct (C9_include latin1_only latin1_only fmt_U_ascii 12
                (lex "" "include x") " x")
      as (l' & E1 & E2 & _);
      [vm_compute; discriminate | reflexivity | vm_compute; discriminate
      | reflexivity | reflexivity | vm_compute; reflexivity |].
    exists l'. split; [exact E1 | exact E2].
  - destruct (C9_include latin1_only latin1_only fmt_U_ascii 12
                (lex "" "include ") " ")
      as (l' & E1 & E2 & _);
      [vm_compute; discriminate | reflexivity | vm_compute; discriminate
      | reflexivity | reflexivity | vm_compute; reflexivity |].
    exists l'. split; [exact E1 | exact E2].
Defined.

Lemma C4_witness :
  exists l',
    lexPlainXactDate latin1_only fmt_U_ascii 8
      (mkLexer "" "2016/09/09 Payee" (Some LexPlainXactDate) 10 0 1 0 []
               false 0) =
    Ret (Some LexPlainXactRest) l' /\
    items l' = [mkItem itemDate 0 "2016/09/09"; mkItem itemSpace 10 " "] /\
    start l' = 11 /\ pos l' = 11.
Proof.
  destruct (C4_transaction_date latin1_only latin1_only fmt_U_ascii 8
              (mkLexer "" "2016/09/09 Payee" (Some LexPlainXactDate)
                       10 0 1 0 [] false 0))
    as (_ & H & _);
    [vm_compute; split; discriminate | vm_compute; discriminate
    | vm_compute; reflexivity |].
  apply H. reflexivity.
Defined.

Lemma C8_witness :
  exists l',
    lexPostings_loop latin1_only 8 true
      (mkLexer "" ("~" +++ LF +++ "  x") (Some LexPostings) 2 2 1 0
               [mkItem itemTilde 0 "~"; mkItem itemEOL 1 LF] false 0) =
    Ret (Some LexPostings) l' /\
    items l' = [mkItem itemTilde 0 "~"; mkItem itemEOL 1 LF;
                mkItem itemSpace 2 "  "] /\
    start l' = 4 /\ pos l' = 4.
Proof.
  destruct (C8_postings_expect_indent latin1_only 8
              (mkLexer "" ("~" +++ LF +++ "  x") (Some LexPostings) 2 2 1 0
                       [mkItem itemTilde 0 "~"; mkItem itemEOL 1 LF]
                       false 0))
    as (H & _);
    [vm_compute; discriminate | reflexivity | vm_compute; discriminate
    | vm_compute; reflexivity |].
  apply H. reflexivity.
Defined.

(** ** Where C2, C4, C5, C8 and C9, as stated, fail *)

(** C2 as stated fails: the texts of the tokens do not reproduce the
    prefix of the source that has been consumed before the terminal
    token.  On "abc" the scan reads the three bytes of the bareword,
    finds the end of the input and halts on the error "bad character",
    which [errorf] sends with the position [l.start] = 0: the cursor is
    at 3, the source consumed is "abc", and no token precedes the
    terminal one.  The same on "2016/09eee" and a line feed, where the
    cursor is at 7 when the error is sent at 0. *)
Lemma C2_counterexample :
  let m := scan latin1_only latin1_only fmt_U_ascii 8 "abc" in
  let m' := scan latin1_only latin1_only fmt_U_ascii 12
                 ("2016/09eee" +++ LF) in
  returned m = true /\
  items (final m) =
  [mkItem itemError 0 "bad character U+FFFFFFFFFFFFFFFF"] /\
  pos (final m) = 3 /\
  slice "abc" 0 (pos (final m)) = "abc" /\
  texts (removelast (items (final m))) = "" /\
  texts (removelast (items (final m))) <> slice "abc" 0 (pos (final m)) /\
  returned m' = true /\
  items (final m') =
  [mkItem itemError 0
     "invalid character in transaction date specification: U+0065 'e'"] /\
  pos (final m') = 7 /\
  texts (removelast (items (final m'))) <>
  slice ("2016/09eee" +++ LF) 0 (pos (final m')).
Proof.
  intros m m'.
  split; [vm_compute; reflexivity|].
  split; [vm_compute; reflexivity|].
  split; [vm_compute; reflexivity|].
  split; [vm_compute; reflexivity|].
  split; [vm_compute; reflexivity|].
  split; [vm_compute; discriminate|].
  split; [vm_compute; reflexivity|].
  split; [vm_compute; reflexivity|].
  split; [vm_compute; reflexivity|].
  vm_compute; discriminate.
Qed.

(** C4 as stated fails: the digits of a date are those of
    [unicode.IsDigit], not the ASCII digits only.  With the
    Arabic-Indic digits in the table [unicode.Digit], the rune U+0663
    (the bytes D9 A3), which is neither an ASCII digit nor a separator,
    a space, the end of the input or an end-of-line character, is
    absorbed in the date: the state is kept, no error is sent, and the
    scan goes on to emit the date with this rune in it. *)
Lemma C4_counterexample :
  let three := String "217" (String "163" EmptyString) in
  let inp := "2016/09/0" +++ three +++ " x" in
  let l := mkLexer "" inp (Some LexPlainXactDate) 9 0 1 0 [] false 0 in
  let r := head_rune (rest l) in
  r = 0x0663 /\
  (rn "0" <=? r) && (r <=? rn "9") = false /\
  (r =? rn ".") || (r =? rn "-") || (r =? rn "/") = false /\
  isSpace r = false /\ r <> eof /\ isEndOfLine r = false /\
  lexPlainXactDate arabic_indic fmt_U_ascii 8 l =
  Ret (Some LexPlainXactDate) (at_pos 11 2 l) /\
  items (at_pos 11 2 l) = [] /\
  ~ halts_with latin1_only arabic_indic fmt_U_ascii 8 LexPlainXactDate l
      ("invalid character in transaction date specification: " +++
       fmt_U_ascii r) /\
  firstn 2 (tokens (scan latin1_only arabic_indic fmt_U_ascii 20 inp)) =
  [(itemDate, "2016/09/0" +++ three); (itemSpace, " ")].
Proof.
  intros three inp l r.
  split; [vm_compute; reflexivity|].
  split; [vm_compute; reflexivity|].
  split; [vm_compute; reflexivity|].
  split; [vm_compute; reflexivity|].
  split; [vm_compute; discriminate|].
  split; [vm_compute; reflexivity|].
  split; [vm_compute; reflexivity|].
  split; [vm_compute; reflexivity|].
  split; [|vm_compute; reflexivity].
  intros (l' & E & _). vm_compute in E. discriminate E.
Qed.

(** C9 as stated fails: "include" directly followed by the end of the
    input is not a completed bareword.  Nothing remains on the line,
    but no [itemInclude] is emitted and the error is "bad character"
    with the rune [eof], not "missing filename after 'include'". *)
Lemma C9_counterexample :
  let l := lex "" "include" in
  let m := lexIdentifier latin1_only latin1_only fmt_U_ascii 12 l in
  rest l = "include" /\
  m = Ret None (final m) /\
  items (final m) =
  [mkItem itemError 0 "bad character U+FFFFFFFFFFFFFFFF"] /\
  tokens (scan latin1_only latin1_only fmt_U_ascii 12 "include") =
  [(itemError, "bad character U+FFFFFFFFFFFFFFFF")] /\
  returned (scan latin1_only latin1_only fmt_U_ascii 12 "include") = true /\
  "bad character U+FFFFFFFFFFFFFFFF" <> "missing filename after 'include'".
Proof.
  intros l m.
  split; [vm_compute; reflexivity|].
  split; [vm_compute; reflexivity|].
  split; [vm_compute; reflexivity|].
  split; [vm_compute; reflexivity|].
  split; [vm_compute; reflexivity|].
  discriminate.
Qed.

(** C5 as stated fails: in "P x" the bareword "P" is recognised as the
    keyword [itemPrice], and its text is not lower-case; the lower-case
    bareword "p" is an identifier. *)
Lemma C5_counterexample :
  nth_error
    (items (final (scan latin1_only latin1_only fmt_U_ascii 4 "P x"))) 0 =
  Some (mkItem itemPrice 0 "P") /\
  is_keyword itemPrice = true /\
  ToLower "P" <> "P" /\
  nth_error
    (items (final (scan latin1_only latin1_only fmt_U_ascii 4 "p x"))) 0 =
  Some (mkItem itemIdentifier 0 "p").
Proof.
  split; [vm_compute; reflexivity|].
  split; [vm_compute; reflexivity|].
  split; [vm_compute; discriminate|].
  vm_compute; reflexivity.
Qed.

(** C8 as stated fails: with [expectIndent] set and a line feed as the
    next rune, which is not a space, the rune is not pushed back and the
    top-level state is not returned: the line feed is emitted as an
    [itemEOL] and the loop goes on, here to the indented line.  In the
    scan of a header followed by a blank line and an indented "*", the
    asterisk is therefore still read in the block of the postings,
    whereas the top-level state sends an error for it. *)
Lemma C8_counterexample :
  let l := mkLexer "" (LF +++ " *" +++ LF) (Some LexPostings) 0 0 0 0 []
                   false 0 in
  let m := lexPostings_loop latin1_only 4 true l in
  isSpace (fst (next l)) = false /\
  m <> Ret (Some LexJournal) (backup (snd (next l))) /\
  m = Ret (Some LexPostings) (final m) /\
  items (final m) = [mkItem itemEOL 0 LF; mkItem itemSpace 1 " "] /\
  pos (final m) = 2 /\
  firstn 6 (tokens (scan latin1_only latin1_only fmt_U_ascii 12
                         ("~;" +++ LF +++ LF +++ " *" +++ LF))) =
  [(itemTilde, "~"); (itemNote, ";"); (itemEOL, LF); (itemEOL, LF);
   (itemSpace, " "); (itemAsterisk, "*")] /\
  tokens (scan latin1_only latin1_only fmt_U_ascii 12 (" *" +++ LF)) =
  [(itemSpace, " ");
   (itemError, "unrecognized character in directive: U+002A '*'")].
Proof.
  intros l m.
  split; [vm_compute; reflexivity|].
  split; [vm_compute; discriminate|].
  split; [vm_compute; reflexivity|].
  split; [vm_compute; reflexivity|].
  split; [vm_compute; reflexivity|].
  split; vm_compute; reflexivity.
Qed.

Lemma scanning_functions_return_witness :
  Returns (lex "" "2016/09/09 Payee")
          (lexJournal latin1_only latin1_only fmt_U_ascii 17
                      (lex "" "2016/09/09 Payee")) /\
  Returns (lex "" "2016/09/09 Payee")
          (scanStringNote 17 (lex "" "2016/09/09 Payee")).
Proof.
  destruct (scanning_functions_return latin1_only latin1_only fmt_U_ascii 17
              (lex "" "2016/09/09 Payee")) as (H & _ & _ & _ & H' & _).
  - vm_compute. split; discriminate.
  - vm_compute. reflexivity.
  - split; [apply (H LexJournal); discriminate | exact H'].
Defined.

Lemma next_peek_backup_witness :
  fst (next (lex "" "ab")) <> eof /\
  pos (snd (next (lex "" "ab"))) = 1 /\
  peek (lex "" "ab") =
    (fst (next (lex "" "ab")), backup (snd (next (lex "" "ab")))).
Proof.
  destruct (next_peek_backup (lex "" "ab")) as (H1 & _ & _ & H4 & _ & _ & H7 & _).
  - vm_compute. split; discriminate.
  - split; [|split; [|exact H7]].
    + intros E. apply H1 in E. vm_compute in E. discriminate.
    + rewrite H4. vm_compute. reflexivity.
Defined.

Lemma scan_never_sends_witness :
  In (mkItem itemTilde 0 "~")
     (items (final (scan latin1_only latin1_only fmt_U_ascii 3 "~ "))) /\
  typ (mkItem itemTilde 0 "~") <> itemQuantity.
Proof.
  assert (H : In (mkItem itemTilde 0 "~")
                 (items (final (scan latin1_only latin1_only fmt_U_ascii
                                     3 "~ "))))
    by (vm_compute; left; reflexivity).
  split; [exact H|].
  destruct (scan_never_sends latin1_only latin1_only fmt_U_ascii "~ " 3 _ H)
    as (_ & _ & _ & _ & _ & _ & Hq & _).
  exact Hq.
Defined.

Lemma lineNumber_counts_the_lines_before_witness :
  match nextItem 2 (final (scan latin1_only latin1_only fmt_U_ascii 5
                                (LF +++ LF +++ "%"))) with
  | Some (t, l') => typ t = itemError /\ lineNumber l' = 3
  | None => False
  end.
Proof.
  destruct (nextItem 2 (final (scan latin1_only latin1_only fmt_U_ascii 5
                                    (LF +++ LF +++ "%"))))
    as [[t l']|] eqn:E; [|vm_compute in E; discriminate].
  destruct (lineNumber_counts_the_lines_before
              latin1_only latin1_only fmt_U_ascii _ _ _ _ _ E) as (E1 & _).
  split; [vm_compute in E; now injection E as <- _|].
  rewrite E1. vm_compute. reflexivity.
Defined.

Lemma scanStringNote_text_and_note_witness :
  exists l',
    scanStringNote 20 (lex "" ("Payee ; note" +++ LF +++ " x")) = Ret tt l' /\
    items l' = [mkItem itemString 0 "Payee "; mkItem itemNote 6 "; note"] /\
    pos l' = 12.
Proof.
  destruct (scanStringNote_text_and_note
              20 (lex "" ("Payee ; note" +++ LF +++ " x")))
    as (l' & E & _ & [(_ & Hi & Hp & _)|[(Hh & _)|(Hh & _)]]).
  - vm_compute. split; discriminate.
  - vm_compute. discriminate.
  - vm_compute. reflexivity.
  - exists l'. split; [exact E|]. split.
    + vm_compute in Hi. exact Hi.
    + vm_compute in Hp. exact Hp.
  - vm_compute in Hh. discriminate.
  - vm_compute in Hh. discriminate.
Defined.

Lemma scanners_send_the_longest_run_witness :
  exists l',
    scanStringUntil (rn ")") 9 (mkLexer "" "(ab) x" None 1 1 1 0 [] false 0) =
    Ret true l' /\
    items l' = [mkItem itemString 1 "ab"] /\ pos l' = 3.
Proof.
  destruct (scanners_send_the_longest_run
              9 (mkLexer "" "(ab) x" None 1 1 1 0 [] false 0))
    as (_ & _ & H).
  - vm_compute. split; discriminate.
  - vm_compute. discriminate.
  - vm_compute. reflexivity.
  - destruct (H (rn ")")) as (l' & E & _ & Hp & _ & _ & Hi).
    exists l'. split; [exact E|]. split; [exact Hi | exact Hp].
Defined.

Lemma items_have_their_shape_witness :
  In (mkItem itemNote 3 ";note")
     (items (final (scan latin1_only latin1_only fmt_U_ascii 12 "~ x;note")))
  /\ exists s, val (mkItem itemNote 3 ";note") = String ";" s.
Proof.
  assert (H : In (mkItem itemNote 3 ";note")
                 (items (final (scan latin1_only latin1_only fmt_U_ascii
                                     12 "~ x;note"))))
    by (vm_compute; right; right; right; left; reflexivity).
  split; [exact H|].
  destruct (items_have_their_shape latin1_only latin1_only fmt_U_ascii
              "~ x;note" 12 _ H) as (_ & _ & _ & _ & _ & Hn & _).
  apply Hn. reflexivity.
Defined.

Lemma date_is_read_rune_by_rune_witness :
  exists m l',
    (forall n, (16 < n)%nat ->
       run_loop latin1_only latin1_only fmt_U_ascii (m + n)
                (set_state (Some LexJournal) (lex "" "2016/09/09 Payee")) =
       run_loop latin1_only latin1_only fmt_U_ascii n l') /\
    items l' = [mkItem itemDate 0 "2016/09/09"; mkItem itemSpace 10 " "] /\
    state l' = Some LexPlainXactRest.
Proof.
  destruct (date_is_read_rune_by_rune latin1_only latin1_only fmt_U_ascii
              (set_state (Some LexJournal) (lex "" "2016/09/09 Payee")))
    as (m & l' & Hrun & Hst & Hit & _).
  - reflexivity.
  - vm_compute. split; discriminate.
  - reflexivity.
  - vm_compute. reflexivity.
  - vm_compute. reflexivity.
  - exists m, l'. split; [|split; [|exact Hst]].
    + intros n Hn. apply Hrun.
      change (len (rest (set_state (Some LexJournal)
                                   (lex "" "2016/09/09 Payee")))) with 16.
      lia.
    + vm_compute in Hit. exact Hit.
Defined.

Lemma code_in_parentheses_witness :
  exists l',
    (forall n, (6 < n)%nat ->
       run_loop latin1_only latin1_only fmt_U_ascii (2 + n)
                (mkLexer "" "(ab) x" (Some LexPlainXactRest) 0 0 0 0 []
                         false 0) =
       run_loop latin1_only latin1_only fmt_U_ascii n l') /\
    items l' = [mkItem itemLeftParen 0 "("; mkItem itemString 1 "ab";
                mkItem itemRightParen 3 ")"] /\
    pos l' = 4.
Proof.
  destruct (code_in_parentheses latin1_only latin1_only fmt_U_ascii
              (mkLexer "" "(ab) x" (Some LexPlainXactRest) 0 0 0 0 []
                       false 0))
    as (l' & Hrun & _ & Hit & Hp & _).
  - reflexivity.
  - vm_compute. split; discriminate.
  - reflexivity.
  - vm_compute. reflexivity.
  - vm_compute. reflexivity.
  - exists l'. split; [|split].
    + intros n Hn. apply Hrun.
      change (len (rest (mkLexer "" "(ab) x" (Some LexPlainXactRest)
                                 0 0 0 0 [] false 0))) with 6.
      lia.
    + vm_compute in Hit. exact Hit.
    + vm_compute in Hp. exact Hp.
Defined.

Lemma acceptRun_consumes_the_longest_run_witness :
  exists l',
    acceptRun contains_byte "0123456789" 9 (lex "" "2016/09") = Ret tt l' /\
    pos l' = 4 /\ items l' = [].
Proof.
  destruct (acceptRun_consumes_the_longest_run
              contains_byte "0123456789" 9 (lex "" "2016/09"))
    as (_ & _ & _ & _ & l' & E & Hp & _ & _ & Hi & _).
  - reflexivity.
  - vm_compute. split; discriminate.
  - vm_compute. reflexivity.
  - exists l'. split; [exact E|]. split; [|exact Hi].
    vm_compute in Hp. exact Hp.
Defined.

Lemma run_ends_in_one_of_three_ways_witness :
  returned (scan latin1_only latin1_only fmt_U_ascii 8 "~ ") = false /\
  state (final (scan latin1_only latin1_only fmt_U_ascii 8 "~ ")) =
    Some LexPostings /\
  pos (final (scan latin1_only latin1_only fmt_U_ascii 8 "~ ")) = 2.
Proof.
  destruct (run_ends_in_one_of_three_ways
              latin1_only latin1_only fmt_U_ascii "~ " 8)
    as [(Hr & _)|[(_ & Hs & _)|(Hr & Hs & Hp)]].
  - vm_compute. discriminate.
  - vm_compute in Hr. discriminate.
  - vm_compute in Hs. discriminate.
  - split; [exact Hr|]. split; [exact Hs | exact Hp].
Defined.

Lemma end_before_the_end_of_a_line_witness :
  exists l',
    (forall n, (4 < n)%nat ->
       run_loop latin1_only latin1_only fmt_U_ascii (2 + n)
                (mkLexer "" ("end" +++ LF) (Some LexIdentifier) 0 0 0 0 []
                         false 0) =
       run_loop latin1_only latin1_only fmt_U_ascii n l') /\
    items l' = [mkItem itemEnd 0 "end"; mkItem itemIdentifier 3 ""] /\
    state l' = Some LexJournal.
Proof.
  destruct (end_before_the_end_of_a_line latin1_only latin1_only fmt_U_ascii
              (mkLexer "" ("end" +++ LF) (Some LexIdentifier) 0 0 0 0 []
                       false 0) LF)
    as (l' & Hrun & Hst & Hit & _).
  - reflexivity.
  - vm_compute. discriminate.
  - reflexivity.
  - vm_compute. discriminate.
  - reflexivity.
  - vm_compute. reflexivity.
  - exists l'. split; [|split; [|exact Hst]].
    + intros n Hn. apply Hrun.
      change (len (rest (mkLexer "" ("end" +++ LF) (Some LexIdentifier)
                                 0 0 0 0 [] false 0))) with 4.
      lia.
    + vm_compute in Hit. exact Hit.
Defined.

Lemma unrecognized_character_halts_witness :
  halts_with latin1_only latin1_only fmt_U_ascii 1 LexJournal
             (set_state (Some LexJournal) (lex "" "; a comment"))
             "unrecognized character in directive: U+003B ';'".
Proof.
  apply (unrecognized_character_halts latin1_only latin1_only fmt_U_ascii
           1 (set_state (Some LexJournal) (lex "" "; a comment"))).
  - lia.
  - vm_compute. split; discriminate.
  - reflexivity.
  - vm_compute. discriminate.
  - vm_compute. discriminate.
  - reflexivity.
  - reflexivity.
  - vm_compute. discriminate.
Defined.

Lemma lexPostings_passes_over_what_it_does_not_match_witness :
  exists l',
    lexPostings latin1_only 12
      (mkLexer "" (" 20.00" +++ LF +++ "x") (Some LexPostings) 0 0 0 0 []
               false 0) =
    Ret (Some LexJournal) l' /\
    items l' = [mkItem itemEOL 0 (" 20.00" +++ LF)] /\ pos l' = 7.
Proof.
  destruct (lexPostings_passes_over_what_it_does_not_match latin1_only 12
              (mkLexer "" (" 20.00" +++ LF +++ "x") (Some LexPostings)
                       0 0 0 0 [] false 0))
    as (l' & E & Hit & Hp & _).
  - vm_compute. split; discriminate.
  - vm_compute. discriminate.
  - vm_compute. reflexivity.
  - vm_compute. reflexivity.
  - vm_compute. reflexivity.
  - vm_compute. reflexivity.
  - exists l'. split; [exact E|]. split.
    + vm_compute in Hit. exact Hit.
    + vm_compute in Hp. exact Hp.
Defined.

Lemma keyword_items_print_their_key_witness :
  In (mkItem itemAlias 0 "alias")
     (items (final (scan latin1_only latin1_only fmt_U_ascii 10 "alias x")))
  /\ item_String quote_plain quote_plain10 (mkItem itemAlias 0 "alias") =
     "<alias>".
Proof.
  assert (H : In (mkItem itemAlias 0 "alias")
                 (items (final (scan latin1_only latin1_only fmt_U_ascii
                                     10 "alias x"))))
    by (vm_compute; left; reflexivity).
  split; [exact H|].
  destruct (keyword_items_print_their_key
              latin1_only latin1_only fmt_U_ascii quote_plain quote_plain10
              "alias x" 10 _ H) as (_ & _ & _ & _ & _ & Ha & _).
  apply Ha. reflexivity.
Defined.

Lemma bareword_before_a_bad_character_witness :
  halts_with latin1_only latin1_only fmt_U_ascii 12 LexIdentifier
             (set_state (Some LexIdentifier) (lex "" "Assets:Cash"))
             "bad character U+003A ':'".
Proof.
  apply (bareword_before_a_bad_character latin1_only latin1_only fmt_U_ascii
           12 (set_state (Some LexIdentifier) (lex "" "Assets:Cash"))).
  - vm_compute. split; discriminate.
  - vm_compute. reflexivity.
  - vm_compute. reflexivity.
Defined.
